(** * Verification of the run allocator and of the lazy result collection

    Shallow embedding of
    - [experimentalist/logging/logger.py]: [_make_run_dir],
      [_maximum_existing_run_id], [Logger.log_metric];
    - [experimentalist/reading/data_operations.py]: [LazyData], [Config],
      [ConfigList], [GroupedConfigs] and the module-level helpers;
    - [experimentalist/reading/aggregation_maps.py]: [Last], [Min], [Max],
      [AvgStd].

    Python dictionaries whose iteration order is observable are association
    lists kept in insertion order; the cache of a [LazyData] and its set of
    used keys, where only membership matters, are a [gmap] and a [gset].
    Exceptions are values of [exn]; a call returns an [outcome].  A number
    is a Python [int] or a binary64 [float], and an array of [np.asarray]
    is int64 or float64 accordingly; the numbers of a metrics file are
    floats.  A mutable object is passed and returned as a value: each
    record owns its [LazyData] objects. *)

From Stdlib Require Import ZArith NArith List Bool Lia.
From Stdlib Require Import Ascii String.
From Stdlib Require Import DecimalString DecimalN.
From Stdlib Require Import Floats.
From stdpp Require Import gmap strings list.

Local Open Scope string_scope.

(** ** Exceptions and outcomes

    [NotModelled] is not a Python exception: it is the outcome of an
    operation on values whose behaviour (numpy's on arrays that are not
    float64, mostly) the embedding leaves out.  No theorem concludes it. *)

Inductive exn : Type :=
| TypeError
| KeyError (key : string)
| IndexError
| ValueError
| AttributeError
| UnboundLocalError
| AssertionError
| NotImplementedError
| FileExistsError
| InvalidKeyError (message : string)
| InvalidAggregationMapError (message : string)
| NotModelled.

Inductive outcome (A : Type) : Type :=
| Ok (a : A)
| Raise (e : exn).
Arguments Ok {A} a.
Arguments Raise {A} e.

Definition is_ok {A} (o : outcome A) : bool :=
  match o with Ok _ => true | Raise _ => false end.

Definition bind {A B} (o : outcome A) (f : A → outcome B) : outcome B :=
  match o with
  | Ok a => f a
  | Raise e => Raise e
  end.

#[global] Instance outcome_fmap : FMap outcome :=
  λ A B f o, match o with Ok a => Ok (f a) | Raise e => Raise e end.

Declare Scope outcome_scope.
Notation "x ← y ; z" := (bind y (λ x : _, z))
  (at level 20, y at level 100, z at level 200, only parsing) : outcome_scope.
Notation "' x ← y ; z" := (bind y (λ x : _, z))
  (at level 20, x pattern, y at level 100, z at level 200, only parsing)
  : outcome_scope.
Local Open Scope outcome_scope.

(** A comprehension [[f(x) for x in l]] whose body may raise. *)
Fixpoint comprehension {A B} (f : A → outcome B) (l : list A)
  : outcome (list B) :=
  match l with
  | [] => Ok []
  | x :: l' => y ← f x; ys ← comprehension f l'; Ok (y :: ys)
  end.

(** A loop [for x in l: f(x)] whose body returns nothing and may raise. *)
Fixpoint for_each {A} (f : A → outcome ()) (l : list A) : outcome () :=
  match l with
  | [] => Ok ()
  | x :: l' => _ ← f x; for_each f l'
  end.

(** ** Python dictionaries, in insertion order *)

Abbreviation dict K V := (list (K * V)).

Section dict.
Context {K V : Type} `{EqDecision K}.

Fixpoint dict_get (d : dict K V) (k : K) : option V :=
  match d with
  | [] => None
  | (k', v) :: d' => if decide (k' = k) then Some v else dict_get d' k
  end.

(** [d[k] = v]: an existing key keeps its position. *)
Fixpoint dict_set (d : dict K V) (k : K) (v : V) : dict K V :=
  match d with
  | [] => [(k, v)]
  | (k', v') :: d' =>
      if decide (k' = k) then (k', v) :: d' else (k', v') :: dict_set d' k v
  end.

Definition dict_update (d new : dict K V) : dict K V :=
  foldl (λ acc kv, dict_set acc kv.1 kv.2) d new.

(** A dictionary display or comprehension over the pairs [l]. *)
Definition dict_of (l : list (K * V)) : dict K V := dict_update [] l.

Definition dict_keys (d : dict K V) : list K := d.*1.

Definition dict_values (d : dict K V) : list V := d.*2.

(** [d[k]], raising what [missing] says when the key is absent. *)
Definition dict_item (missing : exn) (d : dict K V) (k : K) : outcome V :=
  match dict_get d k with
  | Some v => Ok v
  | None => Raise missing
  end.

End dict.

(** ** Values of the fields of a run *)

Inductive value : Type :=
| VNone
| VStr (s : string)
| VNum (x : float)
| VSeq (l : list float)
| VArr (a : list float)
| VInt (n : Z)
| VSeqInt (l : list Z).

(** [VNum] is a Python [float] and [VInt] a Python [int]; [VSeq] is a
    Python list of floats (what the lines of a metrics file accumulate to),
    [VSeqInt] a list of ints (the empty list is either), [VArr] a
    one-dimensional float64 [np.ndarray].  A list that mixes ints and
    floats has no representation. *)

(** [l[i]] with Python's negative indices. *)
Definition py_index {A} (l : list A) (i : Z) : outcome A :=
  let n := Z.of_nat (length l) in
  let j := if (i <? 0)%Z then (i + n)%Z else i in
  if (0 <=? j)%Z && (j <? n)%Z then
    match l !! Z.to_nat j with
    | Some x => Ok x
    | None => Raise IndexError
    end
  else Raise IndexError.

(** [len(v)]. *)
Definition py_len (v : value) : outcome nat :=
  match v with
  | VSeq l | VArr l => Ok (length l)
  | VSeqInt l => Ok (length l)
  | VStr s => Ok (String.length s)
  | VNum _ | VInt _ | VNone => Raise TypeError
  end.

Fixpoint last_char (s : string) : option ascii :=
  match s with
  | EmptyString => None
  | String c EmptyString => Some c
  | String _ s' => last_char s'
  end.

(** [v[-1]]. *)
Definition subscript_last (v : value) : outcome value :=
  match v with
  | VSeq l | VArr l => VNum <$> py_index l (-1)
  | VSeqInt l => VInt <$> py_index l (-1)
  | VStr s =>
      match last_char s with
      | Some c => Ok (VStr (String c EmptyString))
      | None => Raise IndexError
      end
  | VNum _ | VInt _ | VNone => Raise TypeError
  end.

(** [os.path.join(root, name)] for a relative [name]. *)
Fixpoint ends_with_slash (s : string) : bool :=
  match s with
  | EmptyString => false
  | String c EmptyString => Ascii.eqb c "/"
  | String _ s' => ends_with_slash s'
  end.

Definition path_join (root name : string) : string :=
  match root with
  | EmptyString => name
  | _ => if ends_with_slash root then root ++ name else root ++ "/" ++ name
  end.


(** ** Run directories ([logger.py]) *)

Module Allocator.

(** An entry of the root directory is a directory or something else
    ([os.path.isdir] tells them apart). *)
Inductive kind : Type := Dir | File.

Definition is_dir (k : kind) : bool :=
  match k with Dir => true | File => false end.

(** The entries of [root], by name. *)
Abbreviation entries := (gmap string kind).

(** [str.isdigit] on ASCII names: at least one character, all of them
    decimal digits. *)
Definition is_digit_char (c : ascii) : bool :=
  (48 <=? nat_of_ascii c)%nat && (nat_of_ascii c <=? 57)%nat.

Fixpoint all_digits (s : string) : bool :=
  match s with
  | EmptyString => true
  | String c s' => is_digit_char c && all_digits s'
  end.

Definition isdigit (s : string) : bool :=
  match s with
  | EmptyString => false
  | _ => all_digits s
  end.

(** [int(d)], [None] standing for its [ValueError], and [str(n)] for a
    non-negative integer. *)
Definition int (s : string) : option N :=
  if isdigit s then N.of_uint <$> NilEmpty.uint_of_string s else None.

Definition str (n : N) : string :=
  NilEmpty.string_of_uint (N.to_uint n).

(** [dir_nrs]: the comprehension of [_maximum_existing_run_id]. *)
Definition dir_nr (e : string * kind) : option N :=
  if is_dir e.2 && isdigit e.1 then int e.1 else None.

Definition dir_nrs (root : entries) : list N :=
  omap dir_nr (map_to_list root).

Definition max_nrs (l : list N) : N := foldr N.max 0%N l.

Definition _maximum_existing_run_id (root : entries) : N :=
  match dir_nrs root with
  | [] => 0%N
  | l => max_nrs l
  end.

(** [os.mkdir]: fails when the name is taken, by a directory or by anything
    else. *)
Definition mkdir (root : entries) (name : string) : outcome entries :=
  match root !! name with
  | Some _ => Raise FileExistsError
  | None => Ok (<[name := Dir]> root)
  end.

(** The [while log_dir is None] loop.  [remaining] is [1000 - fail_count]:
    a failed attempt with [fail_count < 1000] increments the counter and
    tries again, the next failure re-raises.  Within one process nothing
    changes the directory between two attempts ([sleep] only waits). *)
Fixpoint attempt (remaining : nat) (root : entries)
  : outcome (N * entries) :=
  let _id := (_maximum_existing_run_id root + 1)%N in
  match mkdir root (str _id) with
  | Ok root' => Ok (_id, root')
  | Raise FileExistsError =>
      match remaining with
      | S remaining' => attempt remaining' root
      | O => Raise FileExistsError
      end
  | Raise e => Raise e
  end.

(** [_make_run_dir(_id, root)], on the entries of [root] (which
    [os.makedirs(root, exist_ok=True)] makes exist).  The result is the id,
    the path of the run directory and the entries afterwards. *)
Definition _make_run_dir (_id : option N) (root_path : string)
    (root : entries) : outcome (N * string) * entries :=
  match _id with
  | None =>
      match attempt 1000 root with
      | Ok (i, root') => (Ok (i, path_join root_path (str i)), root')
      | Raise e => (Raise e, root)
      end
  | Some i => (Ok (i, path_join root_path (str i)), root)
  end.

(** [n] allocations in sequence from the same root. *)
Fixpoint allocate_n (n : nat) (root_path : string) (root : entries)
  : outcome (list N) * entries :=
  match n with
  | O => (Ok [], root)
  | S n' =>
      match _make_run_dir None root_path root with
      | (Ok (i, _), root') =>
          match allocate_n n' root_path root' with
          | (Ok l, root'') => (Ok (i :: l), root'')
          | (Raise e, root'') => (Raise e, root'')
          end
      | (Raise e, root') => (Raise e, root')
      end
  end.

(** The set [S] of the claim: the integers named by the pure-digit
    subdirectories. *)
Definition is_run_id (root : entries) (n : N) : Prop :=
  ∃ d, root !! d = Some Dir ∧ isdigit d = true ∧ int d = Some n.

(** [m] is the maximum of [S], 0 when [S] is empty. *)
Definition is_max_id (root : entries) (m : N) : Prop :=
  (∀ n, is_run_id root n → (n <= m)%N) ∧ (m = 0%N ∨ is_run_id root m).

End Allocator.

(** ** The part of numpy the aggregation maps use *)

Module np.

(** A one-dimensional array: float64, or int64. *)
Inductive ndarray : Type :=
| F64 (a : list float)
| I64 (a : list Z).

Definition in_int64 (n : Z) : bool :=
  (- 2 ^ 63 <=? n)%Z && (n <? 2 ^ 63)%Z.

(** The conversion of an integer to float64: the nearest float, ties to
    even. *)
Definition float_of_Z (n : Z) : float :=
  SF2Prim (binary_normalize prec emax n 0 false).

(** Arithmetic on int64 wraps around. *)
Definition wrap64 (n : Z) : Z := ((n + 2 ^ 63) mod 2 ^ 64 - 2 ^ 63)%Z.

Definition as_int (v : value) : option Z :=
  match v with
  | VInt n => if in_int64 n then Some n else None
  | _ => None
  end.

Definition as_float (v : value) : option float :=
  match v with
  | VNum x => Some x
  | VInt n => if in_int64 n then Some (float_of_Z n) else None
  | _ => None
  end.

(** What [np.asarray] makes of the values the runs of a group hold at one
    field: an array of one axis when they are numbers, an array of two
    axes, one row per run, when they are float sequences of one length. *)
Inductive array : Type :=
| Axis1 (a : ndarray)
| Axis2 (rows : list (list float)).

Definition as_row (v : value) : option (list float) :=
  match v with
  | VSeq l | VArr l => Some l
  | _ => None
  end.

Definition same_length (rows : list (list float)) : bool :=
  match rows with
  | [] => true
  | r :: rows' => forallb (λ r', length r' =? length r)%nat rows'
  end.

(** [np.asarray(l)] for a list of field values: an int64 array when every
    entry is an int, a float64 array when every entry is a number and one
    of them is a float (the ints are converted), or when the list is empty;
    float64 rows when every entry is a float sequence, all of one length.
    An int out of the range of int64, sequences of ints or of several
    lengths, and the other mixtures are left out. *)
Definition asarray (l : list value) : outcome array :=
  match l with
  | [] => Ok (Axis1 (F64 []))
  | _ =>
      match mapM as_int l with
      | Some a => Ok (Axis1 (I64 a))
      | None =>
          match mapM as_float l with
          | Some a => Ok (Axis1 (F64 a))
          | None =>
              match mapM as_row l with
              | Some rows =>
                  if same_length rows then Ok (Axis2 rows)
                  else Raise NotModelled
              | None => Raise NotModelled
              end
          end
      end
  end.

(** The columns of rows of one length. *)
Definition columns (rows : list (list float)) : list (list float) :=
  match rows with
  | [] => []
  | r :: _ => (λ j, omap (λ r' : list float, r' !! j) rows) <$> seq 0 (length r)
  end.

(** [np.asarray(v)] for one field value holding a sequence. *)
Definition asarray_seq (v : value) : outcome ndarray :=
  match v with
  | VSeq l | VArr l => Ok (F64 l)
  | VSeqInt [] => Ok (F64 [])
  | VSeqInt l => if forallb in_int64 l then Ok (I64 l) else Raise NotModelled
  | _ => Raise NotModelled
  end.

(** [a[:n]]. *)
Definition slice (n : nat) (a : ndarray) : ndarray :=
  match a with
  | F64 a => F64 (take n a)
  | I64 a => I64 (take n a)
  end.

(** The entries of an array as float64, what an operation with a float64
    array makes of them. *)
Definition as_float64 (a : ndarray) : list float :=
  match a with
  | F64 a => a
  | I64 a => float_of_Z <$> a
  end.

Definition zeros (n : nat) : list float := replicate n 0%float.

(** Element-wise operations, on operands of one shape. *)
Definition add (a b : list float) : list float := zip_with PrimFloat.add a b.

Definition sub (a b : list float) : list float := zip_with PrimFloat.sub a b.

Definition square (a : list float) : list float := (λ x, x * x)%float <$> a.

(** [a ** 2]: the square of an int64 entry is taken in int64. *)
Definition power2 (a : ndarray) : ndarray :=
  match a with
  | F64 a => F64 (square a)
  | I64 a => I64 ((λ n, wrap64 (n * n)) <$> a)
  end.

Definition sqrt (a : list float) : list float := PrimFloat.sqrt <$> a.

Definition float_of_nat (n : nat) : float :=
  of_uint63 (Uint63.of_Z (Z.of_nat n)).

Definition divide (a : list float) (n : nat) : list float :=
  (λ x, x / float_of_nat n)%float <$> a.

(** [np.argmin] on a one-dimensional float64 array: the first position of
    the minimum; a NaN is minimal and ends the scan.  The scan replaces the
    current minimum [mp] by [x] when [!(x >= mp)]. *)
Fixpoint argmin_scan (mp : float) (min_ind i : nat) (l : list float) : nat :=
  match l with
  | [] => min_ind
  | x :: l' =>
      if negb (mp <=? x)%float then
        if is_nan x then i else argmin_scan x i (S i) l'
      else argmin_scan mp min_ind (S i) l'
  end.

Definition argmin (a : list float) : outcome nat :=
  match a with
  | [] => Raise ValueError
  | x :: l => Ok (if is_nan x then 0 else argmin_scan x 0 1 l)
  end.

(** [np.argmax]: the same scan with [!(x <= mp)]. *)
Fixpoint argmax_scan (mp : float) (max_ind i : nat) (l : list float) : nat :=
  match l with
  | [] => max_ind
  | x :: l' =>
      if negb (x <=? mp)%float then
        if is_nan x then i else argmax_scan x i (S i) l'
      else argmax_scan mp max_ind (S i) l'
  end.

Definition argmax (a : list float) : outcome nat :=
  match a with
  | [] => Raise ValueError
  | x :: l => Ok (if is_nan x then 0 else argmax_scan x 0 1 l)
  end.

(** [_replace_nan(a, val)]. *)
Definition replace_nan (val x : float) : float :=
  if is_nan x then val else x.

(** [np.nanargmin] on a float64 array: NaN entries are replaced by [+inf]
    before [argmin]; an array of NaN only is a [ValueError], and so is an
    empty one. *)
Definition nanargmin_float (a : list float) : outcome nat :=
  match a with
  | [] => Raise ValueError
  | _ =>
      if forallb is_nan a then Raise ValueError
      else argmin (replace_nan infinity <$> a)
  end.

(** [np.nanargmax] on a float64 array: the same with [-inf] and
    [argmax]. *)
Definition nanargmax_float (a : list float) : outcome nat :=
  match a with
  | [] => Raise ValueError
  | _ =>
      if forallb is_nan a then Raise ValueError
      else argmax (replace_nan neg_infinity <$> a)
  end.

(** [np.argmin] and [np.argmax] on an int64 array: the first position of
    the least, of the greatest entry. *)
Fixpoint argmin_int_scan (mp : Z) (min_ind i : nat) (l : list Z) : nat :=
  match l with
  | [] => min_ind
  | x :: l' =>
      if (x <? mp)%Z then argmin_int_scan x i (S i) l'
      else argmin_int_scan mp min_ind (S i) l'
  end.

Definition argmin_int (a : list Z) : outcome nat :=
  match a with
  | [] => Raise ValueError
  | x :: l => Ok (argmin_int_scan x 0 1 l)
  end.

Fixpoint argmax_int_scan (mp : Z) (max_ind i : nat) (l : list Z) : nat :=
  match l with
  | [] => max_ind
  | x :: l' =>
      if (mp <? x)%Z then argmax_int_scan x i (S i) l'
      else argmax_int_scan mp max_ind (S i) l'
  end.

Definition argmax_int (a : list Z) : outcome nat :=
  match a with
  | [] => Raise ValueError
  | x :: l => Ok (argmax_int_scan x 0 1 l)
  end.

(** An index: the Python int [-1] or the position [nanargmin] returns for
    an array of one axis, or the array of positions, one per column, it
    returns along the first of two axes. *)
Inductive index : Type :=
| Scalar (i : Z)
| Indices (l : list nat).

(** [np.nanargmin(a, axis=0)] and [np.nanargmax(a, axis=0)]: an int64 array
    has no NaN to replace; with two axes a column of NaN only is a
    [ValueError]. *)
Definition nanargmin (a : array) : outcome index :=
  match a with
  | Axis1 (F64 a) => i ← nanargmin_float a; Ok (Scalar (Z.of_nat i))
  | Axis1 (I64 a) => i ← argmin_int a; Ok (Scalar (Z.of_nat i))
  | Axis2 rows =>
      l ← comprehension nanargmin_float (columns rows); Ok (Indices l)
  end.

Definition nanargmax (a : array) : outcome index :=
  match a with
  | Axis1 (F64 a) => i ← nanargmax_float a; Ok (Scalar (Z.of_nat i))
  | Axis1 (I64 a) => i ← argmax_int a; Ok (Scalar (Z.of_nat i))
  | Axis2 rows =>
      l ← comprehension nanargmax_float (columns rows); Ok (Indices l)
  end.

(** [index.__index__()], which the subscript of a list takes: an array of
    one axis is no index. *)
Definition __index__ (index : index) : outcome Z :=
  match index with
  | Scalar i => Ok i
  | Indices _ => Raise TypeError
  end.

End np.

(** ** Aggregation maps ([aggregation_maps.py]) *)

Module AggregationMap.

Inductive class : Type := Base | Last | Min | Max | AvgStd.

(** The attributes [func] and [args] are never read and are left out. *)
Record t : Type := {
  cls : class;
  keys : list string;
  map_name : string;
  name : string
}.

Definition make_name (map_name : string) (keys : list string) : string :=
  map_name ++ "(" ++ String.concat "," keys ++ ")".

Definition __init__ (cls : class) (keys : list string) (map_name : string)
  : t :=
  {| cls := cls; keys := keys; map_name := map_name;
     name := make_name map_name keys |}.

End AggregationMap.

Definition Last (key : string) : AggregationMap.t :=
  AggregationMap.__init__ AggregationMap.Last [key] "last".

Definition Min (key : string) : AggregationMap.t :=
  AggregationMap.__init__ AggregationMap.Min [key] "min".

Definition Max (key : string) : AggregationMap.t :=
  AggregationMap.__init__ AggregationMap.Max [key] "max".

Definition AvgStd (key : string) : AggregationMap.t :=
  AggregationMap.__init__ AggregationMap.AvgStd [key] "avgstd".

(** What [apply] returns: [Last] returns a dictionary, the other maps a pair
    of a dictionary and an index. *)
Inductive apply_result : Type :=
| RetDict (d : dict string value)
| RetPair (d : dict string value) (index : option Z).

(** The argument of [apply] is written as the per-run dictionaries of a group
    ([_aggregate_collection] passes this list); [Last.apply] subscripts it by
    a field name, which only a dictionary supports. *)
Inductive pydata : Type :=
| DataList (l : list (dict string value))
| DataDict (d : dict string value).

Definition subscript_key (data : pydata) (key : string) : outcome value :=
  match data with
  | DataList _ => Raise TypeError
  | DataDict d => dict_item (KeyError key) d key
  end.

Definition Last_apply (self : AggregationMap.t) (data : pydata)
  : outcome apply_result :=
  key ← py_index (AggregationMap.keys self) 0;
  match v ← subscript_key data key; subscript_last v with
  | Ok x => Ok (RetDict [(AggregationMap.name self, x)])
  | Raise (KeyError _) => Ok (RetDict [])
  | Raise IndexError => Ok (RetDict [])
  | Raise e => Raise e
  end.

(** [[d[self.keys[0]] for d in data]]. *)
Definition select (self : AggregationMap.t) (data : list (dict string value))
  : outcome (list value) :=
  comprehension
    (λ d, key ← py_index (AggregationMap.keys self) 0;
          dict_item (KeyError key) d key)
    data.

(** [index = -1], overwritten unless [nanargmin] raises [ValueError];
    [selected_data[index]] then takes [index.__index__()]. *)
Definition index_or_last (r : outcome np.index) : outcome np.index :=
  match r with
  | Ok i => Ok i
  | Raise ValueError => Ok (np.Scalar (-1))
  | Raise e => Raise e
  end.

Definition Min_apply (self : AggregationMap.t)
    (data : list (dict string value)) : outcome apply_result :=
  selected_data ← select self data;
  index ← index_or_last (a ← np.asarray selected_data; np.nanargmin a);
  i ← np.__index__ index;
  v ← py_index selected_data i;
  Ok (RetPair [(AggregationMap.name self, v)] (Some i)).

Definition Max_apply (self : AggregationMap.t)
    (data : list (dict string value)) : outcome apply_result :=
  selected_data ← select self data;
  index ← index_or_last (a ← np.asarray selected_data; np.nanargmax a);
  i ← np.__index__ index;
  v ← py_index selected_data i;
  Ok (RetPair [(AggregationMap.name self, v)] (Some i)).

(** One step of the accumulation of [_compute_mean_and_std], for run [i],
    its dictionary [p] and one key. *)
Definition accumulate (i : nat) (p : dict string value)
    (out : dict string (list float)) (key : string)
  : outcome (dict string (list float)) :=
  '(len_data, out) ←
    match i with
    | O =>
        v ← dict_item (KeyError key) p key;
        len_data ← py_len v;
        Ok (len_data,
            dict_set (dict_set out (key ++ "_avg") (np.zeros len_data))
              (key ++ "_std") (np.zeros len_data))
    | S _ =>
        avg ← dict_item (KeyError (key ++ "_avg")) out (key ++ "_avg");
        v ← dict_item (KeyError key) p key;
        len_v ← py_len v;
        Ok (length avg `min` len_v, out)
    end;
  v ← dict_item (KeyError key) p key;
  a ← np.asarray_seq v;
  let new_array := np.slice len_data a in
  avg ← dict_item (KeyError (key ++ "_avg")) out (key ++ "_avg");
  let out := dict_set out (key ++ "_avg")
               (np.add (take len_data avg) (np.as_float64 new_array)) in
  std ← dict_item (KeyError (key ++ "_std")) out (key ++ "_std");
  Ok (dict_set out (key ++ "_std")
        (np.add (take len_data std) (np.as_float64 (np.power2 new_array)))).

Fixpoint accumulate_keys (i : nat) (p : dict string value)
    (keys : list string) (out : dict string (list float))
  : outcome (dict string (list float)) :=
  match keys with
  | [] => Ok out
  | key :: keys' => out' ← accumulate i p out key; accumulate_keys i p keys' out'
  end.

(** [for i, p in enumerate(data_list)], from index [i] on. *)
Fixpoint accumulate_runs (i : nat) (data_list : list (dict string value))
    (keys : list string) (out : dict string (list float))
  : outcome (dict string (list float)) :=
  match data_list with
  | [] => Ok out
  | p :: data_list' =>
      out' ← accumulate_keys i p keys out;
      accumulate_runs (S i) data_list' keys out'
  end.

(** The last loop: mean, then [sqrt(mean of squares - mean ** 2)]; [n] is
    [i + 1] for the last index [i] of the loop before. *)
Definition normalise (n : nat) (out : dict string (list float))
    (key : string) : outcome (dict string (list float)) :=
  avg ← dict_item (KeyError (key ++ "_avg")) out (key ++ "_avg");
  let out := dict_set out (key ++ "_avg") (np.divide avg n) in
  std ← dict_item (KeyError (key ++ "_std")) out (key ++ "_std");
  avg ← dict_item (KeyError (key ++ "_avg")) out (key ++ "_avg");
  let out := dict_set out (key ++ "_std")
               (np.sub (np.divide std n) (np.square avg)) in
  std ← dict_item (KeyError (key ++ "_std")) out (key ++ "_std");
  Ok (dict_set out (key ++ "_std") (np.sqrt std)).

Fixpoint normalise_keys (n : nat) (keys : list string)
    (out : dict string (list float)) : outcome (dict string (list float)) :=
  match keys with
  | [] => Ok out
  | key :: keys' => out' ← normalise n out key; normalise_keys n keys' out'
  end.

(** The arrays of [out], as field values. *)
Definition as_arrays (out : dict string (list float)) : dict string value :=
  (λ kv : string * list float, (kv.1, VArr kv.2)) <$> out.

(** The branch [len(data_list) == 1]: the run's own values as means and
    zeros as deviations. *)
Definition single_run (d : dict string value) : outcome (dict string value) :=
  let out : dict string value :=
    dict_of ((λ kv : string * value, (kv.1 ++ "_avg", kv.2)) <$> d) in
  match comprehension
          (λ kv : string * value,
             n ← py_len kv.2; Ok (kv.1 ++ "_std", VArr (np.zeros n)))
          d with
  | Ok stds => Ok (dict_update out (dict_of stds))
  | Raise e => Raise e
  end.

(** [_compute_mean_and_std(data_list)], always called with
    [log_scale=False]. *)
Definition _compute_mean_and_std (data_list : list (dict string value))
  : outcome (dict string value * option Z) :=
  match data_list with
  | [d] => out ← single_run d; Ok (out, None)
  | [] => Raise IndexError
  | d :: _ =>
      let keys := dict_keys d in
      out ← accumulate_runs 0 data_list keys [];
      out ← normalise_keys (length data_list) keys out;
      Ok (as_arrays out, None)
  end.

Definition AvgStd_apply (self : AggregationMap.t)
    (data : list (dict string value)) : outcome apply_result :=
  data ← comprehension
            (λ d, dict_of <$>
                    comprehension
                      (λ key, v ← dict_item (KeyError key) d key; Ok (key, v))
                      (AggregationMap.keys self))
            data;
  '(out, _) ← _compute_mean_and_std data;
  Ok (RetPair out None).

(** [agg_map.apply(val_array)], by the class of the map. *)
Definition apply (self : AggregationMap.t) (data : list (dict string value))
  : outcome apply_result :=
  match AggregationMap.cls self with
  | AggregationMap.Base => Raise NotImplementedError
  | AggregationMap.Last => Last_apply self (DataList data)
  | AggregationMap.Min => Min_apply self data
  | AggregationMap.Max => Max_apply self data
  | AggregationMap.AvgStd => AvgStd_apply self data
  end.


(** ** Lazily loaded outputs ([data_operations.py]) *)

(** A metrics file holds one JSON object per line, each field a number;
    [None] stands for a line [json.loads] rejects.  The files are read-only
    here; [reads] logs the paths opened, in order. *)
Abbreviation json_file := (list (option (gmap string float))).

Record world : Type := {
  files : gmap string json_file;
  reads : list string
}.

Definition add_line (file_name : string) (cur_dict : gmap string float)
    (out_dict : gmap string (list float)) : gmap string (list float) :=
  map_fold
    (λ key x out,
       let full_key := file_name ++ "." ++ key in
       match out !! full_key with
       | Some l => <[full_key := (l ++ [x])%list]> out
       | None => <[full_key := [x]]> out
       end)
    out_dict cur_dict.

(** The loop over the lines; a line that does not parse raises inside the
    [try], which ends the loop and keeps what was accumulated. *)
Fixpoint load_lines (file_name : string) (lines : json_file)
    (out_dict : gmap string (list float)) : gmap string (list float) :=
  match lines with
  | [] => out_dict
  | None :: _ => out_dict
  | Some cur_dict :: lines' =>
      load_lines file_name lines' (add_line file_name cur_dict out_dict)
  end.

Definition _load_dict_from_json (json_file_name file_name : string)
    (w : world) : gmap string (list float) * world :=
  let w' := {| files := files w; reads := reads w ++ [json_file_name] |} in
  match files w !! json_file_name with
  | None => (∅, w')
  | Some lines => (load_lines file_name lines ∅, w')
  end.

Module LazyData.

Record t : Type := {
  file_name : string;
  parent_dir : string;
  path : string;
  used_keys : gset string;
  _data : option (gmap string (list float))
}.

Definition __init__ (parent_dir file_name : string) : t :=
  {| file_name := file_name; parent_dir := parent_dir;
     path := path_join parent_dir (file_name ++ ".json");
     used_keys := ∅; _data := None |}.

Definition reload (self : t) (key : string) (w : world) : t * world :=
  let '(d, w') := _load_dict_from_json (path self) (file_name self) w in
  ({| file_name := file_name self; parent_dir := parent_dir self;
      path := path self; used_keys := {[key]} ∪ used_keys self;
      _data := Some d |}, w').

Definition get_data (self : t) (key : string) (w : world)
  : outcome value * t * world :=
  let '(self, w) :=
    match _data self with
    | None => reload self key w
    | Some _ =>
        if decide (key ∈ used_keys self) then (self, w) else reload self key w
    end in
  match _data self with
  | Some d =>
      match d !! key with
      | Some l => (Ok (VSeq l), self, w)
      | None => (Raise (KeyError key), self, w)
      end
  | None => (Raise TypeError, self, w)
  end.

(** [self._data.keys()] on [None] is an [AttributeError]; otherwise every
    key of the cache outside [used_keys] is deleted. *)
Definition free_unused (self : t) : outcome () * t :=
  match _data self with
  | None => (Raise AttributeError, self)
  | Some d =>
      (Ok (),
       {| file_name := file_name self; parent_dir := parent_dir self;
          path := path self; used_keys := used_keys self;
          _data := Some (filter (λ kv, kv.1 ∈ used_keys self) d) |})
  end.

End LazyData.

Module Config.

(** An entry of the [LazyDict]: a value, or the bound method [get_data] of
    the [LazyData] stored under [parent_key] in [lazydata_dict]. *)
Inductive lazy_entry : Type :=
| Eager (v : value)
| GetData (parent_key : string).

(** A record owns its [LazyData] objects: copies are value copies. *)
Record t : Type := {
  flattened : dict string value;
  lazy : dict string lazy_entry;
  lazydata_dict : dict string LazyData.t
}.

Definition LAZYDATA : value := VStr "LAZYDATA".

(** [__init__(flattened_dict, parend_dir)].  The constructor stores the
    directory under the attribute [parend_dir] and [_make_lazydict] reads
    [self.parent_dir]: with a lazy key the comprehension that builds
    [lazydata_dict] raises inside the [try], the attribute is never set,
    and the update of the lazy dictionary that reads it raises
    [AttributeError].  With no lazy key both comprehensions are empty. *)
Definition __init__ (flattened_dict : dict string value)
    (parend_dir : string) : outcome t :=
  let all_keys :=
    omap (λ kv : string * value,
            match kv.2 with
            | VStr s => if decide (s = "LAZYDATA") then Some kv.1 else None
            | _ => None
            end) flattened_dict in
  match all_keys with
  | [] =>
      Ok {| flattened := flattened_dict;
            lazy := (λ kv : string * value, (kv.1, Eager kv.2))
                    <$> flattened_dict;
            lazydata_dict := [] |}
  | _ :: _ => Raise AttributeError
  end.

Definition with_lazydata (self : t) (l : dict string LazyData.t) : t :=
  {| flattened := flattened self; lazy := lazy self; lazydata_dict := l |}.

(** [self.config['lazy'][key]]: [LazyDict.__getitem__] calls a callable
    entry on the key. *)
Definition __getitem__ (self : t) (key : string) (w : world)
  : outcome value * t * world :=
  match dict_get (lazy self) key with
  | None => (Raise (KeyError key), self, w)
  | Some (Eager v) => (Ok v, self, w)
  | Some (GetData parent_key) =>
      match dict_get (lazydata_dict self) parent_key with
      | None => (Raise NotModelled, self, w)
      | Some data =>
          let '(r, data', w') := LazyData.get_data data key w in
          (r, with_lazydata self (dict_set (lazydata_dict self) parent_key data'),
           w')
      end
  end.

Definition keys (self : t) : list string := dict_keys (lazy self).

(** [key in self], which [Mapping] implements by reading [self[key]] and
    catching [KeyError]. *)
Definition __contains__ (self : t) (key : string) (w : world)
  : outcome bool * t * world :=
  match __getitem__ self key w with
  | (Ok _, self', w') => (Ok true, self', w')
  | (Raise (KeyError _), self', w') => (Ok false, self', w')
  | (Raise e, self', w') => (Raise e, self', w')
  end.

(** [update(new_dict)]; no value of [new_dict] is callable here. *)
Definition update (self : t) (new_dict : dict string value) : t :=
  {| flattened := dict_update (flattened self) new_dict;
     lazy := dict_update (lazy self)
               ((λ kv : string * value, (kv.1, Eager kv.2)) <$> new_dict);
     lazydata_dict := lazydata_dict self |}.

Fixpoint free_all (l : dict string LazyData.t)
  : outcome () * dict string LazyData.t :=
  match l with
  | [] => (Ok (), [])
  | (key, data) :: l' =>
      match LazyData.free_unused data with
      | (Ok _, data') =>
          let '(r, l'') := free_all l' in (r, (key, data') :: l'')
      | (Raise e, data') => (Raise e, (key, data') :: l')
      end
  end.

Definition free_unused (self : t) : outcome () * t :=
  let '(r, l) := free_all (lazydata_dict self) in (r, with_lazydata self l).

End Config.

(** ** Collections of runs and their grouping ([data_operations.py]) *)

(** A [ConfigList] is the list of its records; the cached frame and column
    list are recomputed here at each use. *)
Abbreviation ConfigList := (list Config.t).

(** The nested dictionaries [_add_nested_keys_val] builds: a dictionary by
    group value, or a list of records at the end of a path. *)
#[warnings="-register-all"]
Inductive nested : Type :=
| Leaf (l : ConfigList)
| Node (d : list (string * nested)).

(** What a call of the class [GroupedConfigs] may be given. *)
Inductive ctor_arg : Type :=
| ArgGrouped (d : dict (list string) ConfigList)
| ArgNested (d : nested)
| ArgTuple (l : list string)
| ArgVals (l : list (list string)).

(** What [_check_valid_key] may be given as [valid_keys]: a list of column
    names, or a bound method that was not called. *)
Inductive valid_keys_arg : Type :=
| KeysList (l : list string)
| BoundMethod (method : string).

(** A member of the list given to [aggregate]: an instance of a class
    inheriting from [AggregationMap], or any other object, known by its
    [str]. *)
Inductive pyobj : Type :=
| IsMap (m : AggregationMap.t)
| Other (str : string).

Module GroupedConfigs.

Record t : Type := {
  group_keys : list string;
  grouped_dict : dict (list string) ConfigList
}.

Definition group_vals (self : t) : list (list string) :=
  dict_keys (grouped_dict self).

(** A call of [GroupedConfigs] with the positional arguments [args]: the
    signature is [(self, group_keys, grouped_dict)], so another number of
    arguments is a [TypeError] before the body runs. *)
Definition __init__ (args : list ctor_arg) : outcome t :=
  match args with
  | [ArgTuple group_keys; ArgGrouped grouped_dict] =>
      Ok {| group_keys := group_keys; grouped_dict := grouped_dict |}
  | [_; ArgTuple _] | [_; ArgVals _] => Raise AttributeError
  | [_; _] => Raise NotModelled
  | _ => Raise TypeError
  end.

Definition items (self : t) : list (list string * ConfigList) :=
  grouped_dict self.

(** The frame of [toPandasDF], by its rows and its index columns. *)
Record frame : Type := {
  rows : list (dict string value);
  index : list string
}.

Definition toPandasDF (self : t) : frame :=
  let all_configs := mjoin (dict_values (grouped_dict self)) in
  {| rows := Config.flattened <$> all_configs; index := group_keys self |}.

End GroupedConfigs.

Fixpoint add_new {A} `{EqDecision A} (x : A) (l : list A) : list A :=
  match l with
  | [] => [x]
  | y :: l' => if decide (y = x) then l else y :: add_new x l'
  end.

(** The columns of the frame of a collection: the keys of the rows, each at
    its first appearance. *)
Definition ConfigList_keys (self : ConfigList) : list string :=
  foldl (λ acc key, add_new key acc) []
    (mjoin ((λ config, dict_keys (Config.flattened config)) <$> self)).

Definition str_AggregationMap : string :=
  "<class 'experimentalist.reading.aggregation_maps.AggregationMap'>".

Section reading.

(** Python's [str] on a field value and on the argument [valid_keys]. *)
Variable str_value : value → string.
Variable str_valid_keys : valid_keys_arg → string.

(** [key in valid_keys]. *)
Definition contains (valid_keys : valid_keys_arg) (key : string)
  : outcome bool :=
  match valid_keys with
  | KeysList l => Ok (bool_decide (key ∈ l))
  | BoundMethod _ => Raise TypeError
  end.

(** Only the [AssertionError] of the [assert] is caught. *)
Definition _check_valid_key (valid_keys : valid_keys_arg) (key : string)
  : outcome () :=
  match contains valid_keys key with
  | Ok true => Ok ()
  | Ok false =>
      Raise (InvalidKeyError
               ("The provided key " ++ key ++ " is invalid! Valid keys are: "
                ++ str_valid_keys valid_keys))
  | Raise e => Raise e
  end.

Definition _assert_valid_map (agg_map : pyobj) : outcome () :=
  match agg_map with
  | IsMap _ => Ok ()
  | Other str =>
      Raise (InvalidAggregationMapError
               ("The map " ++ str ++ " must be an instance of a child class of  "
                ++ str_AggregationMap))
  end.

(** The loop of [_add_nested_keys_val] from the dictionary [d] on, for a
    non-empty [keys]; then [parent[key] = dico + val], or [val] alone when
    [dico] is a dictionary.  Subscripting a list by a group value is a
    [TypeError] no handler catches. *)
Fixpoint add_path (d : list (string * nested)) (key : string)
    (keys : list string) (val : ConfigList)
  : outcome (list (string * nested)) :=
  match keys with
  | [] =>
      match dict_get d key with
      | Some (Leaf l) => Ok (dict_set d key (Leaf (l ++ val)%list))
      | Some (Node _) | None => Ok (dict_set d key (Leaf val))
      end
  | key' :: keys' =>
      match dict_get d key with
      | Some (Leaf _) => Raise TypeError
      | Some (Node d') =>
          d'' ← add_path d' key' keys' val; Ok (dict_set d key (Node d''))
      | None =>
          d'' ← add_path [] key' keys' val; Ok (dict_set d key (Node d''))
      end
  end.

(** With no key the loop leaves [key] unbound: [dico + val] adds a list to
    a dictionary, and the handler's [parent[key] = val] reads [key]. *)
Definition _add_nested_keys_val (dictionary : list (string * nested))
    (keys : list string) (val : ConfigList)
  : outcome (list (string * nested)) :=
  match keys with
  | [] => Raise UnboundLocalError
  | key :: keys' => add_path dictionary key keys' val
  end.

(** [reduce(dict.get, key, collection_dict)]: [dict.get] needs a dictionary
    and gives [None] for an absent key. *)
Fixpoint reduce_get (key : list string) (d : option nested)
  : outcome (option nested) :=
  match key with
  | [] => Ok d
  | k :: key' =>
      match d with
      | Some (Node d') => reduce_get key' (dict_get d' k)
      | Some (Leaf _) | None => Raise TypeError
      end
  end.

(** [ConfigList(iterable)]: the members must be records. *)
Definition ConfigList_init (iterable : option nested) : outcome ConfigList :=
  match iterable with
  | Some (Leaf l) => Ok l
  | Some (Node []) => Ok []
  | Some (Node (_ :: _)) => Raise AssertionError
  | None => Raise TypeError
  end.

(** [pkey_val]: the values at the group keys, [None] left out, as
    strings. *)
Definition pkey_val (config_dict : Config.t) (list_group_keys : list string)
  : outcome (list string) :=
  pkey_list ←
    comprehension
      (λ group_key,
         dict_item (KeyError group_key) (Config.flattened config_dict)
           group_key)
      list_group_keys;
  Ok (omap (λ pkey, match pkey with
                    | VNone => None
                    | _ => Some (str_value pkey)
                    end) pkey_list).

Fixpoint group_loop (config_dicts : ConfigList) (list_group_keys : list string)
    (collection_dict : list (string * nested)) (group_vals : list (list string))
  : outcome (list (string * nested) * list (list string)) :=
  match config_dicts with
  | [] => Ok (collection_dict, group_vals)
  | config_dict :: rest =>
      pkey_val ← pkey_val config_dict list_group_keys;
      collection_dict ←
        _add_nested_keys_val collection_dict pkey_val [config_dict];
      group_loop rest list_group_keys collection_dict
        (add_new pkey_val group_vals)
  end.

(** [_group_by]; the set [group_vals] is listed in the order its members
    were first added. *)
Definition _group_by (config_dicts : ConfigList) (list_group_keys : list string)
  : outcome (dict (list string) ConfigList * list string
             * list (list string)) :=
  '(collection_dict, group_vals) ←
    group_loop config_dicts list_group_keys [] [];
  grouped ←
    comprehension
      (λ key,
         leaf ← reduce_get key (Some (Node collection_dict));
         l ← ConfigList_init leaf;
         Ok (key, l))
      group_vals;
  Ok (dict_of grouped, list_group_keys, group_vals).

(** [groupBy]: the keys are checked against [self.keys], the method
    itself. *)
Definition ConfigList_groupBy (self : ConfigList)
    (list_group_keys : list string) : outcome GroupedConfigs.t :=
  _ ← for_each (_check_valid_key (BoundMethod "keys")) list_group_keys;
  '(collection_dict, group_keys, group_vals) ← _group_by self list_group_keys;
  GroupedConfigs.__init__
    [ArgGrouped collection_dict; ArgTuple group_keys; ArgVals group_vals].

End reading.

(** ** Aggregation of a grouped collection ([data_operations.py]) *)

(** The keys of the maps, each at its first appearance. *)
Definition _extract_keys_from_maps (agg_maps : list AggregationMap.t)
  : list string :=
  foldl (λ extracted_keys key, add_new key extracted_keys) []
    (mjoin (AggregationMap.keys <$> agg_maps)).

(** [{key: config_dict[key] for key in value_keys}], from [data] on. *)
Fixpoint extract (config_dict : Config.t) (value_keys : list string)
    (data : dict string value) (w : world)
  : outcome (dict string value) * Config.t * world :=
  match value_keys with
  | [] => (Ok data, config_dict, w)
  | key :: value_keys' =>
      match Config.__getitem__ config_dict key w with
      | (Ok v, config_dict', w') =>
          extract config_dict' value_keys' (dict_set data key v) w'
      | (Raise e, config_dict', w') => (Raise e, config_dict', w')
      end
  end.

(** The first loop of [_aggregate_collection]: the values of each record
    are read, then the record frees what it has not used. *)
Fixpoint gather (collection : ConfigList) (value_keys : list string)
    (w : world) : outcome (list (dict string value)) * ConfigList * world :=
  match collection with
  | [] => (Ok [], [], w)
  | config_dict :: rest =>
      match extract config_dict value_keys [] w with
      | (Raise e, config_dict', w') => (Raise e, config_dict' :: rest, w')
      | (Ok data, config_dict', w') =>
          match Config.free_unused config_dict' with
          | (Raise e, config_dict'') => (Raise e, config_dict'' :: rest, w')
          | (Ok _, config_dict'') =>
              let '(r, rest', w'') := gather rest value_keys w' in
              ((λ val_array, data :: val_array) <$> r,
               config_dict'' :: rest', w'')
          end
      end
  end.

(** [agg_val, index = agg_map.apply(val_array)].  A dictionary unpacks to
    its keys: other than two of them is a [ValueError]; two would make
    [index] a string, which [collection[index]] rejects. *)
Definition unpack (r : apply_result)
  : outcome (dict string value * option Z) :=
  match r with
  | RetPair agg_val index => Ok (agg_val, index)
  | RetDict [_; _] => Raise TypeError
  | RetDict _ => Raise ValueError
  end.

(** The body of the second loop, for one map; [deepcopy] copies values. *)
Definition aggregate_map (collection : ConfigList)
    (val_array : list (dict string value)) (agg_map : AggregationMap.t)
  : outcome ConfigList :=
  r ← apply agg_map val_array;
  '(agg_val, index) ← unpack r;
  new_collection ←
    match index with
    | Some i => config_dict ← py_index collection i; Ok [config_dict]
    | None => Ok collection
    end;
  Ok ((λ config_dict, Config.update config_dict agg_val) <$> new_collection).

Fixpoint aggregate_maps (collection : ConfigList)
    (val_array : list (dict string value)) (agg_maps : list AggregationMap.t)
    (agg_collection : dict string ConfigList)
  : outcome (dict string ConfigList) :=
  match agg_maps with
  | [] => Ok agg_collection
  | agg_map :: agg_maps' =>
      new_collection ← aggregate_map collection val_array agg_map;
      aggregate_maps collection val_array agg_maps'
        (dict_set agg_collection (AggregationMap.name agg_map) new_collection)
  end.

(** [_aggregate_collection]: the result, the records of the group as the
    reads and [free_unused] left them, and the world. *)
Definition _aggregate_collection (collection : ConfigList)
    (agg_maps : list AggregationMap.t) (w : world)
  : outcome (dict string ConfigList) * ConfigList * world :=
  let value_keys := _extract_keys_from_maps agg_maps in
  match gather collection value_keys w with
  | (Raise e, collection', w') => (Raise e, collection', w')
  | (Ok val_array, collection', w') =>
      (aggregate_maps collection' val_array agg_maps [], collection', w')
  end.

(** The inner loop of [_aggregate] for one group. *)
Fixpoint add_aggregates (agg_config_dict : dict string (list (string * nested)))
    (keys : list string) (agg_config : dict string ConfigList)
    (aggregation_maps : list AggregationMap.t)
  : outcome (dict string (list (string * nested))) :=
  match aggregation_maps with
  | [] => Ok agg_config_dict
  | agg_map :: aggregation_maps' =>
      let name := AggregationMap.name agg_map in
      d ← dict_item (KeyError name) agg_config_dict name;
      val ← dict_item (KeyError name) agg_config name;
      d' ← _add_nested_keys_val d keys val;
      add_aggregates (dict_set agg_config_dict name d') keys agg_config
        aggregation_maps'
  end.

Fixpoint aggregate_groups (items : list (list string * ConfigList))
    (aggregation_maps : list AggregationMap.t)
    (agg_config_dict : dict string (list (string * nested))) (w : world)
  : outcome (dict string (list (string * nested)))
    * list (list string * ConfigList) * world :=
  match items with
  | [] => (Ok agg_config_dict, [], w)
  | (keys, config_list) :: rest =>
      match _aggregate_collection config_list aggregation_maps w with
      | (Raise e, config_list', w') =>
          (Raise e, (keys, config_list') :: rest, w')
      | (Ok agg_config, config_list', w') =>
          match add_aggregates agg_config_dict keys agg_config
                  aggregation_maps with
          | Raise e => (Raise e, (keys, config_list') :: rest, w')
          | Ok agg_config_dict' =>
              let '(r, rest', w'') :=
                aggregate_groups rest aggregation_maps agg_config_dict' w' in
              (r, (keys, config_list') :: rest', w'')
          end
      end
  end.

(** [_aggregate]: each result is built by a call of [GroupedConfigs] on
    three arguments. *)
Definition _aggregate (groupedconfigs : GroupedConfigs.t)
    (aggregation_maps : list AggregationMap.t) (w : world)
  : outcome (dict string GroupedConfigs.t) * GroupedConfigs.t * world :=
  let agg_config_dict : dict string (list (string * nested)) :=
    dict_of ((λ agg_map, (AggregationMap.name agg_map, [])) <$>
             aggregation_maps) in
  let '(r, items', w') :=
    aggregate_groups (GroupedConfigs.items groupedconfigs) aggregation_maps
      agg_config_dict w in
  let groupedconfigs' :=
    {| GroupedConfigs.group_keys := GroupedConfigs.group_keys groupedconfigs;
       GroupedConfigs.grouped_dict := items' |} in
  match r with
  | Raise e => (Raise e, groupedconfigs', w')
  | Ok agg_config_dict =>
      (dict_of <$>
         comprehension
           (λ agg_map,
              let name := AggregationMap.name agg_map in
              d ← dict_item (KeyError name) agg_config_dict name;
              g ← GroupedConfigs.__init__
                    [ArgNested (Node d);
                     ArgTuple (GroupedConfigs.group_keys groupedconfigs);
                     ArgVals (GroupedConfigs.group_vals groupedconfigs)];
              Ok (name, g))
           aggregation_maps,
       groupedconfigs', w')
  end.

Definition as_map (agg_map : pyobj) : option AggregationMap.t :=
  match agg_map with
  | IsMap m => Some m
  | Other _ => None
  end.

(** [GroupedConfigs.aggregate]: every member is checked before
    [_aggregate] runs. *)
Definition GroupedConfigs_aggregate (self : GroupedConfigs.t)
    (aggregation_maps : list pyobj) (w : world)
  : outcome (dict string GroupedConfigs.t) * GroupedConfigs.t * world :=
  match for_each _assert_valid_map aggregation_maps with
  | Raise e => (Raise e, self, w)
  | Ok _ => _aggregate self (omap as_map aggregation_maps) w
  end.

(** ** Differences between the records of a collection *)

Fixpoint seq_eqb (l k : list float) : bool :=
  match l, k with
  | [], [] => true
  | x :: l', y :: k' => (x =? y)%float && seq_eqb l' k'
  | _, _ => false
  end.

(** [n == x] for an int and a float, which Python compares by their exact
    values. *)
Definition int_float_eqb (n : Z) (x : float) : bool :=
  match Prim2SF x with
  | S754_zero _ => (n =? 0)%Z
  | S754_finite s m e =>
      let k := if s then Z.neg m else Z.pos m in
      if (0 <=? e)%Z then (n =? k * 2 ^ e)%Z
      else (k mod 2 ^ (- e) =? 0)%Z && (n =? k / 2 ^ (- e))%Z
  | _ => false
  end.

Fixpoint seq_int_eqb (l k : list Z) : bool :=
  match l, k with
  | [], [] => true
  | n :: l', m :: k' => (n =? m)%Z && seq_int_eqb l' k'
  | _, _ => false
  end.

Fixpoint seq_int_float_eqb (l : list Z) (k : list float) : bool :=
  match l, k with
  | [], [] => true
  | n :: l', x :: k' => int_float_eqb n x && seq_int_float_eqb l' k'
  | _, _ => false
  end.

(** [a != b] as a truth value; the element-wise comparison of arrays is
    left out. *)
Definition value_ne (a b : value) : outcome bool :=
  match a, b with
  | VArr _, _ | _, VArr _ => Raise NotModelled
  | VNone, VNone => Ok false
  | VStr s, VStr t => Ok (negb (bool_decide (s = t)))
  | VNum x, VNum y => Ok (negb (x =? y)%float)
  | VInt n, VInt m => Ok (negb (n =? m)%Z)
  | VInt n, VNum x | VNum x, VInt n => Ok (negb (int_float_eqb n x))
  | VSeq l, VSeq k => Ok (negb (seq_eqb l k))
  | VSeqInt l, VSeqInt k => Ok (negb (seq_int_eqb l k))
  | VSeqInt l, VSeq k | VSeq k, VSeqInt l =>
      Ok (negb (seq_int_float_eqb l k))
  | _, _ => Ok true
  end.

Definition starts_with (key start_key : string) : bool :=
  String.prefix start_key key.

(** The body of the inner loop of [config_diff], for one key of [config];
    reading a key may load the data of either record. *)
Definition diff_key (start_key key : string) (ref_dict config : Config.t)
    (diff_keys : list string) (w : world)
  : outcome (list string) * Config.t * Config.t * world :=
  match Config.__contains__ ref_dict key w with
  | (Raise e, ref_dict, w) => (Raise e, ref_dict, config, w)
  | (Ok present, ref_dict, w) =>
      if present && starts_with key start_key then
        match Config.__getitem__ ref_dict key w with
        | (Raise e, ref_dict, w) => (Raise e, ref_dict, config, w)
        | (Ok a, ref_dict, w) =>
            match Config.__getitem__ config key w with
            | (Raise e, config, w) => (Raise e, ref_dict, config, w)
            | (Ok b, config, w) =>
                match value_ne a b with
                | Raise e => (Raise e, ref_dict, config, w)
                | Ok true => (Ok (add_new key diff_keys), ref_dict, config, w)
                | Ok false => (Ok diff_keys, ref_dict, config, w)
                end
            end
        end
      else (Ok (add_new key diff_keys), ref_dict, config, w)
  end.

Fixpoint diff_keys_of (start_key : string) (keys : list string)
    (ref_dict config : Config.t) (diff_keys : list string) (w : world)
  : outcome (list string) * Config.t * Config.t * world :=
  match keys with
  | [] => (Ok diff_keys, ref_dict, config, w)
  | key :: keys' =>
      match diff_key start_key key ref_dict config diff_keys w with
      | (Ok diff_keys, ref_dict, config, w) =>
          diff_keys_of start_key keys' ref_dict config diff_keys w
      | r => r
      end
  end.

(** The outer loop, once [ref_dict] is the first record. *)
Fixpoint diff_configs (start_key : string) (ref_dict : Config.t)
    (rest : ConfigList) (diff_keys : list string) (w : world)
  : outcome (list string) * Config.t * ConfigList * world :=
  match rest with
  | [] => (Ok diff_keys, ref_dict, [], w)
  | config :: rest' =>
      match diff_keys_of start_key (Config.keys config) ref_dict config
              diff_keys w with
      | (Ok diff_keys, ref_dict, config, w) =>
          let '(r, ref_dict, rest'', w) :=
            diff_configs start_key ref_dict rest' diff_keys w in
          (r, ref_dict, config :: rest'', w)
      | (Raise e, ref_dict, config, w) =>
          (Raise e, ref_dict, config :: rest', w)
      end
  end.

Definition ConfigList_config_diff (self : ConfigList) (start_key : string)
    (w : world) : outcome (list string) * ConfigList * world :=
  match self with
  | [] => (Ok [], [], w)
  | ref_dict :: rest =>
      let '(r, ref_dict, rest, w) := diff_configs start_key ref_dict rest [] w in
      (r, ref_dict :: rest, w)
  end.

(** * Properties *)

(** ** Allocation of run directories *)

Section allocator.
Import Allocator.

Lemma all_digits_string_of_uint d :
  all_digits (NilEmpty.string_of_uint d) = true.
Proof. induction d; simpl; auto. Qed.

Lemma str_isdigit n : isdigit (str n) = true.
Proof.
  unfold isdigit, str.
  destruct (NilEmpty.string_of_uint (N.to_uint n)) eqn:E.
  - destruct n as [|p]; simpl in E; [discriminate|].
    pose proof (DecimalPos.Unsigned.to_uint_nonnil p) as Hnil.
    destruct (Pos.to_uint p); simpl in E; congruence.
  - rewrite <- E. apply all_digits_string_of_uint.
Qed.

Lemma int_str n : int (str n) = Some n.
Proof.
  unfold int. rewrite str_isdigit. unfold str.
  rewrite NilEmpty.usu. simpl. f_equal. apply DecimalN.Unsigned.of_to.
Qed.

Lemma str_inj n n' : str n = str n' → n = n'.
Proof.
  intros H. pose proof (int_str n) as Hn. rewrite H, int_str in Hn.
  congruence.
Qed.

Lemma max_nrs_ge l x : x ∈ l → (x <= max_nrs l)%N.
Proof.
  induction 1 as [x l|x y l _ IH]; simpl; lia.
Qed.

Lemma max_nrs_in l : max_nrs l = 0%N ∨ max_nrs l ∈ l.
Proof.
  induction l as [|x l IH]; simpl; [by left|].
  destruct (N.max_spec x (max_nrs l)) as [[_ ->]|[_ ->]].
  - destruct IH as [->|IH]; [|right; by constructor].
    destruct (decide (x = 0%N)) as [->|]; [right; constructor|].
    left. done.
  - right. constructor.
Qed.

Lemma maximum_existing_max_nrs root :
  _maximum_existing_run_id root = max_nrs (dir_nrs root).
Proof. unfold _maximum_existing_run_id. by destruct (dir_nrs root). Qed.

Lemma elem_of_dir_nrs root n : n ∈ dir_nrs root ↔ is_run_id root n.
Proof.
  unfold dir_nrs, is_run_id. rewrite list_elem_of_omap. split.
  - intros [[d k] [Hin Hnr]]. apply elem_of_map_to_list in Hin.
    unfold dir_nr in Hnr. simpl in Hnr.
    destruct k; simpl in Hnr; [|discriminate].
    destruct (isdigit d) eqn:Hd; [|discriminate]. eauto.
  - intros (d & Hd & Hdigit & Hint). exists (d, Dir). split.
    + by apply elem_of_map_to_list.
    + unfold dir_nr. simpl. by rewrite Hdigit.
Qed.

(** [_maximum_existing_run_id] computes the maximum of the ids present. *)
Lemma maximum_existing_is_max root :
  is_max_id root (_maximum_existing_run_id root).
Proof.
  rewrite maximum_existing_max_nrs. split.
  - intros n Hn. by apply max_nrs_ge, elem_of_dir_nrs.
  - destruct (max_nrs_in (dir_nrs root)) as [?|Hin]; [by left|].
    right. by apply elem_of_dir_nrs.
Qed.

Lemma is_max_id_unique root m m' :
  is_max_id root m → is_max_id root m' → m = m'.
Proof.
  intros [Hub [->|Hin]] [Hub' [->|Hin']]; try done.
  - specialize (Hub _ Hin'). lia.
  - specialize (Hub' _ Hin). lia.
  - specialize (Hub _ Hin'). specialize (Hub' _ Hin). lia.
Qed.

Lemma maximum_existing_eq root m :
  is_max_id root m → _maximum_existing_run_id root = m.
Proof. intros. eapply is_max_id_unique; [apply maximum_existing_is_max|done]. Qed.

(** The name of the next id is free unless something that is not a
    directory holds it. *)
Lemma next_name_free root m :
  is_max_id root m →
  root !! str (m + 1) ≠ Some File →
  root !! str (m + 1) = None.
Proof.
  intros [Hub _] Hfile.
  destruct (root !! str (m + 1)) as [[]|] eqn:E; [|done..].
  assert (is_run_id root (m + 1)) as Hid.
  { exists (str (m + 1)). by rewrite str_isdigit, int_str. }
  specialize (Hub _ Hid). lia.
Qed.

Lemma attempt_free remaining root m :
  is_max_id root m →
  root !! str (m + 1) = None →
  attempt remaining root = Ok ((m + 1)%N, <[str (m + 1) := Dir]> root).
Proof.
  intros Hmax Hfree.
  destruct remaining; simpl; rewrite (maximum_existing_eq _ _ Hmax);
    unfold mkdir; by rewrite Hfree.
Qed.

Lemma attempt_taken remaining root m k :
  is_max_id root m →
  root !! str (m + 1) = Some k →
  attempt remaining root = Raise FileExistsError.
Proof.
  intros Hmax Htaken.
  induction remaining as [|remaining IH]; simpl;
    rewrite (maximum_existing_eq _ _ Hmax); unfold mkdir; rewrite Htaken; auto.
Qed.

Lemma is_max_id_insert root m :
  is_max_id root m →
  is_max_id (<[str (m + 1) := Dir]> root) (m + 1).
Proof.
  intros [Hub _]. split.
  - intros n (d & Hd & Hdigit & Hint).
    destruct (decide (d = str (m + 1))) as [->|Hne].
    + rewrite int_str in Hint. injection Hint as <-. lia.
    + rewrite lookup_insert_ne in Hd by done.
      assert (n <= m)%N by (apply Hub; by exists d). lia.
  - right. exists (str (m + 1)).
    by rewrite lookup_insert_eq, str_isdigit, int_str.
Qed.

Lemma make_run_dir_free root_path root m :
  is_max_id root m →
  root !! str (m + 1) ≠ Some File →
  _make_run_dir None root_path root
  = (Ok ((m + 1)%N, path_join root_path (str (m + 1))),
     <[str (m + 1) := Dir]> root).
Proof.
  intros Hmax Hfile. unfold _make_run_dir.
  by rewrite (attempt_free _ _ _ Hmax (next_name_free _ _ Hmax Hfile)).
Qed.

Lemma allocate_n_consecutive root_path n : ∀ root m,
  is_max_id root m →
  (∀ k, (1 ≤ k ≤ n)%nat → root !! str (m + N.of_nat k) ≠ Some File) →
  ∃ root',
    allocate_n n root_path root
    = (Ok ((λ k, (m + N.of_nat k)%N) <$> seq 1 n), root')
    ∧ (∀ k, (1 ≤ k ≤ n)%nat → root' !! str (m + N.of_nat k) = Some Dir)
    ∧ (∀ d, (∀ k, (1 ≤ k ≤ n)%nat → d ≠ str (m + N.of_nat k)) →
            root' !! d = root !! d).
Proof.
  induction n as [|n IH]; intros root m Hmax Hfile.
  - exists root. simpl. split_and!; [done | lia | done].
  - assert (root !! str (m + 1) ≠ Some File) as H1.
    { apply (Hfile 1). lia. }
    destruct (IH (<[str (m + 1) := Dir]> root) (m + 1)%N) as (root' & Hrun & Hdirs & Hrest).
    { by apply is_max_id_insert. }
    { intros k Hk. rewrite lookup_insert_ne.
      - replace (m + 1 + N.of_nat k)%N with (m + N.of_nat (S k))%N by lia.
        apply Hfile. lia.
      - intros Heq%str_inj. lia. }
    exists root'. split_and!.
    + cbn [allocate_n]. rewrite (make_run_dir_free _ _ _ Hmax H1), Hrun.
      do 2 f_equal. change (seq 1 (S n)) with (1 :: seq 2 n).
      rewrite fmap_cons. f_equal; try lia.
      rewrite <- (fmap_S_seq 1 n), <- list_fmap_compose.
      apply list_fmap_ext. intros _ k _. simpl. lia.
    + intros k Hk. destruct (decide (k = 1)) as [->|Hne].
      * rewrite Hrest; [by rewrite lookup_insert_eq|].
        intros k Hk' Heq%str_inj. lia.
      * replace (m + N.of_nat k)%N with (m + 1 + N.of_nat (k - 1))%N by lia.
        apply Hdirs. lia.
    + intros d Hd. rewrite Hrest.
      * apply lookup_insert_ne. intros <-. by apply (Hd 1); [lia|].
      * intros k Hk ->. apply (Hd (S k)); [lia|]. f_equal. lia.
Qed.

(** C7, amended.  Let [m] be the maximum of the integers named by the
    pure-digit subdirectories of the root (0 when there is none).  Provided
    no entry of the root that is not a directory is named [str(m+k)] for
    [1 <= k <= n], an allocation with no requested id returns [m+1] and
    creates that directory, and [n] allocations in sequence return
    [m+1, ..., m+n], create these directories and leave every other entry
    as it was. *)
Theorem make_run_dir_consecutive (root_path : string) (root : entries)
    (m : N) (n : nat) :
  is_max_id root m →
  (∀ k, (1 ≤ k ≤ n)%nat → root !! str (m + N.of_nat k) ≠ Some File) →
  ((1 ≤ n)%nat →
   _make_run_dir None root_path root
   = (Ok ((m + 1)%N, path_join root_path (str (m + 1))),
      <[str (m + 1) := Dir]> root))
  ∧ ∃ root',
      allocate_n n root_path root
      = (Ok ((λ k, (m + N.of_nat k)%N) <$> seq 1 n), root')
      ∧ (∀ k, (1 ≤ k ≤ n)%nat → root' !! str (m + N.of_nat k) = Some Dir)
      ∧ (∀ d, (∀ k, (1 ≤ k ≤ n)%nat → d ≠ str (m + N.of_nat k)) →
              root' !! d = root !! d).
Proof.
  intros Hmax Hfile. split.
  - intros Hn. apply make_run_dir_free; [done|]. apply (Hfile 1). lia.
  - by apply allocate_n_consecutive.
Qed.

(** A root with the directories 4 and 05-as-a-file: three allocations give
    5, 6 and 7. *)
Lemma make_run_dir_consecutive_witness :
  let root : entries := <["4" := Dir]> (<["05" := File]> ∅) in
  is_max_id root 4
  ∧ (∀ k, (1 ≤ k ≤ 3)%nat → root !! str (4 + N.of_nat k) ≠ Some File)
  ∧ _make_run_dir None "logs" root
    = (Ok (5%N, "logs/5"), <["5" := Dir]> root)
  ∧ ∃ root', allocate_n 3 "logs" root = (Ok [5; 6; 7]%N, root').
Proof.
  intros root.
  assert (is_max_id root 4) as Hmax.
  { replace 4%N with (_maximum_existing_run_id root) by (by vm_compute).
    apply maximum_existing_is_max. }
  assert (∀ k, (1 ≤ k ≤ 3)%nat → root !! str (4 + N.of_nat k) ≠ Some File)
    as Hfile.
  { intros k Hk.
    assert (k = 1 ∨ k = 2 ∨ k = 3) as [->|[->| ->]] by lia;
      vm_compute; discriminate. }
  destruct (make_run_dir_consecutive "logs" root 4 3 Hmax Hfile)
    as [Hone (root' & Hrun & _)].
  split_and!; [done | done | apply Hone; lia | by exists root'].
Defined.

(** C7 as stated fails when something that is not a directory holds the
    next name: with the directory 4 and a file 5 the maximum is 4, and the
    allocation raises after its 1001 attempts instead of returning 5. *)
Lemma make_run_dir_blocked_by_file :
  let root : entries := <["4" := Dir]> (<["5" := File]> ∅) in
  is_max_id root 4
  ∧ _make_run_dir None "logs" root = (Raise FileExistsError, root).
Proof.
  intros root. split.
  - replace 4%N with (_maximum_existing_run_id root) by (by vm_compute).
    apply maximum_existing_is_max.
  - by vm_compute.
Qed.

End allocator.

(** ** Lazily loaded outputs *)

Section lazydata.

(** Reading never changes the files. *)
Lemma load_files json_file_name file_name w :
  files (_load_dict_from_json json_file_name file_name w).2 = files w.
Proof. unfold _load_dict_from_json. by destruct (files w !! _). Qed.

Lemma load_reads json_file_name file_name w :
  reads (_load_dict_from_json json_file_name file_name w).2
  = (reads w ++ [json_file_name])%list.
Proof. unfold _load_dict_from_json. by destruct (files w !! _). Qed.

(** What a read of the file gives depends on the files only. *)
Lemma load_same_files json_file_name file_name w w' :
  files w = files w' →
  (_load_dict_from_json json_file_name file_name w).1
  = (_load_dict_from_json json_file_name file_name w').1.
Proof.
  intros Hfiles. unfold _load_dict_from_json. rewrite Hfiles.
  by destruct (files w' !! _).
Qed.

(** The content of the backing file of [self], as a read returns it. *)
Definition backing (self : LazyData.t) (w : world)
  : gmap string (list float) :=
  (_load_dict_from_json (LazyData.path self) (LazyData.file_name self) w).1.

(** The cache, when present, holds part of the backing file. *)
Definition cache_of_file (self : LazyData.t) (w : world) : Prop :=
  ∀ d, LazyData._data self = Some d → d ⊆ backing self w.

Lemma cache_of_file_init parent_dir file_name w :
  cache_of_file (LazyData.__init__ parent_dir file_name) w.
Proof. intros d. discriminate. Qed.

Lemma free_unused_spec self d :
  LazyData._data self = Some d →
  ∃ self',
    LazyData.free_unused self = (Ok (), self')
    ∧ LazyData._data self'
      = Some (filter (λ kv, kv.1 ∈ LazyData.used_keys self) d)
    ∧ LazyData.used_keys self' = LazyData.used_keys self
    ∧ LazyData.path self' = LazyData.path self
    ∧ LazyData.file_name self' = LazyData.file_name self.
Proof.
  intros Hd. unfold LazyData.free_unused. rewrite Hd. eauto 10.
Qed.

(** [free_unused] keeps exactly the touched keys of the cache, with their
    values. *)
Lemma free_unused_lookup self d self' key :
  LazyData._data self = Some d →
  LazyData.free_unused self = (Ok (), self') →
  ∃ d', LazyData._data self' = Some d'
        ∧ d' !! key
          = if decide (key ∈ LazyData.used_keys self) then d !! key else None.
Proof.
  intros Hd Hfree.
  destruct (free_unused_spec _ _ Hd) as (self1 & Hfree1 & Hd1 & _).
  rewrite Hfree1 in Hfree. injection Hfree as <-.
  eexists. split; [done|].
  destruct (d !! key) as [l|] eqn:E.
  - case_decide.
    + by apply map_lookup_filter_Some.
    + apply map_lookup_filter_None. right. intros l' Hl'. done.
  - assert (filter (λ kv : string * list float,
                      kv.1 ∈ LazyData.used_keys self) d !! key = None) as ->.
    { apply map_lookup_filter_None. by left. }
    by case_decide.
Qed.

Lemma free_unused_cache_of_file self self' w :
  cache_of_file self w →
  LazyData.free_unused self = (Ok (), self') →
  cache_of_file self' w.
Proof.
  intros Hcache Hfree d' Hd'.
  destruct (LazyData._data self) as [d|] eqn:Hd.
  - destruct (free_unused_spec _ _ Hd) as (self1 & Hfree1 & Hd1 & _ & Hp & Hf).
    rewrite Hfree1 in Hfree. injection Hfree as <-.
    rewrite Hd1 in Hd'. injection Hd' as <-.
    unfold backing. rewrite Hp, Hf.
    etrans; [apply map_filter_subseteq|]. by apply Hcache.
  - unfold LazyData.free_unused in Hfree. rewrite Hd in Hfree. discriminate.
Qed.

(** A read of a key that is not marked as used loads the file again. *)
Lemma get_data_reload self key w :
  key ∉ LazyData.used_keys self →
  ∃ self' w',
    LazyData.get_data self key w
    = (match backing self w !! key with
       | Some l => Ok (VSeq l)
       | None => Raise (KeyError key)
       end, self', w')
    ∧ LazyData._data self' = Some (backing self w)
    ∧ LazyData.used_keys self' = {[key]} ∪ LazyData.used_keys self
    ∧ reads w' = (reads w ++ [LazyData.path self])%list
    ∧ files w' = files w.
Proof.
  intros Hkey. unfold LazyData.get_data.
  assert (match LazyData._data self with
          | Some _ =>
              if decide (key ∈ LazyData.used_keys self) then (self, w)
              else LazyData.reload self key w
          | None => LazyData.reload self key w
          end = LazyData.reload self key w) as ->.
  { destruct (LazyData._data self); [|done]. by case_decide. }
  unfold LazyData.reload, backing.
  pose proof (load_reads (LazyData.path self) (LazyData.file_name self) w).
  pose proof (load_files (LazyData.path self) (LazyData.file_name self) w).
  destruct (_load_dict_from_json _ _ w) as [d w'] eqn:E. simpl in *.
  destruct (d !! key); eauto 10.
Qed.

(** C5.  A [LazyData] whose cache holds the two keys [loss] and [acc] (in
    the code they carry the name of the file, as in [metrics.loss]), loaded
    from a backing file that has not changed, with only [loss] touched:
    [free_unused] leaves exactly [loss] cached, with its value, and a read
    of [acc] afterwards loads the file again (one more read of its path)
    and returns the value of [acc] instead of raising [KeyError]. *)
Theorem free_unused_then_read (self : LazyData.t) (w : world)
    (loss acc : string) (d : gmap string (list float)) :
  loss ≠ acc →
  LazyData._data self = Some d →
  dom d = {[loss; acc]} →
  LazyData.used_keys self = {[loss]} →
  cache_of_file self w →
  ∃ self' d' v,
    LazyData.free_unused self = (Ok (), self')
    ∧ LazyData._data self' = Some d'
    ∧ dom d' = {[loss]}
    ∧ d' !! loss = d !! loss
    ∧ d !! acc = Some v
    ∧ ∃ self'' w',
        LazyData.get_data self' acc w = (Ok (VSeq v), self'', w')
        ∧ reads w' = (reads w ++ [LazyData.path self])%list
        ∧ LazyData._data self'' = Some (backing self w)
        ∧ LazyData.used_keys self'' = {[acc; loss]}.
Proof.
  intros Hne Hd Hdom Hused Hcache.
  destruct (free_unused_spec _ _ Hd) as (self' & Hfree & Hd' & Hused' & Hp & Hf).
  assert (is_Some (d !! acc)) as [v Hv].
  { apply elem_of_dom. rewrite Hdom. clear. set_solver. }
  exists self', (filter (λ kv, kv.1 ∈ LazyData.used_keys self) d), v.
  split_and!; try done.
  - apply dom_filter_L. intros key. rewrite Hused. split.
    + intros ->%elem_of_singleton.
      assert (is_Some (d !! loss)) as [l Hl].
      { apply elem_of_dom. rewrite Hdom. clear. set_solver. }
      exists l. split; [done|]. set_solver.
    + intros (l & _ & Hin). simpl in Hin. set_solver.
  - destruct (d !! loss) as [l|] eqn:Hl.
    + apply map_lookup_filter_Some. split; [done|]. rewrite Hused. set_solver.
    + apply map_lookup_filter_None. by left.
  - destruct (get_data_reload self' acc w) as (self'' & w' & Hget & ? & ? & ? & _).
    { rewrite Hused', Hused. set_solver. }
    assert (backing self' w = backing self w) as Hback.
    { unfold backing. by rewrite Hp, Hf. }
    rewrite Hback in *.
    assert (backing self w !! acc = Some v) as Hacc.
    { eapply lookup_weaken; [done|]. by apply Hcache. }
    rewrite Hacc in Hget.
    exists self'', w'. split_and!; try done.
    + by rewrite <- Hp.
    + by rewrite Hused', Hused in *.
Qed.

(** Reads keep the cache a part of the backing file. *)
Lemma get_data_cache_of_file self key w r self' w' :
  cache_of_file self w →
  LazyData.get_data self key w = (r, self', w') →
  cache_of_file self' w' ∧ files w' = files w.
Proof.
  intros Hcache. unfold LazyData.get_data.
  assert (∀ self1 w1,
            LazyData.reload self key w = (self1, w1) →
            cache_of_file self1 w1 ∧ files w1 = files w) as Hreload.
  { intros self1 w1. unfold LazyData.reload.
    pose proof (load_files (LazyData.path self) (LazyData.file_name self) w)
      as Hfiles.
    destruct (_load_dict_from_json _ _ w) as [d1 w2] eqn:E.
    intros [= <- <-]. simpl in *. split; [|done].
    intros d [= <-]. unfold backing. simpl.
    rewrite (load_same_files _ _ w2 w Hfiles), E. done. }
  destruct (match LazyData._data self with
            | Some _ =>
                if decide (key ∈ LazyData.used_keys self) then (self, w)
                else LazyData.reload self key w
            | None => LazyData.reload self key w
            end) as [self1 w1] eqn:E.
  assert (cache_of_file self1 w1 ∧ files w1 = files w) as [? ?].
  { destruct (LazyData._data self); [case_decide|]; auto.
    injection E as <- <-. done. }
  destruct (LazyData._data self1) as [d1|]; [destruct (d1 !! key)|];
    intros [= <- <- <-]; done.
Qed.

Definition example_world : world :=
  {| files :=
       {[ "run/metrics.json" :=
            [Some {[ "loss" := 0.5%float; "acc" := 0.25%float ]};
             Some {[ "loss" := 0.25%float; "acc" := 0.5%float ]}] ]};
     reads := [] |}.

(** The field [metrics] of a run after one read of [metrics.loss]. *)
Definition example_lazydata : LazyData.t * world :=
  let '(_, self, w) :=
    LazyData.get_data (LazyData.__init__ "run" "metrics") "metrics.loss"
      example_world in
  (self, w).

Lemma free_unused_then_read_witness :
  let self := example_lazydata.1 in
  let w := example_lazydata.2 in
  LazyData.used_keys self = {["metrics.loss"]}
  ∧ cache_of_file self w
  ∧ ∃ self' self'' w',
      LazyData.free_unused self = (Ok (), self')
      ∧ LazyData.get_data self' "metrics.acc" w
        = (Ok (VSeq [0.25; 0.5]%float), self'', w')
      ∧ reads w' = ["run/metrics.json"; "run/metrics.json"].
Proof.
  intros self w.
  assert (LazyData.used_keys self = {["metrics.loss"]}) as Hused
    by (vm_compute; reflexivity).
  assert (cache_of_file self w) as Hcache.
  { unfold self, w, example_lazydata.
    destruct (LazyData.get_data (LazyData.__init__ "run" "metrics")
                "metrics.loss" example_world) as [[r self1] w1] eqn:E.
    exact (proj1 (get_data_cache_of_file _ _ _ _ _ _
                    (cache_of_file_init "run" "metrics" example_world) E)). }
  assert ("metrics.loss" ≠ "metrics.acc") as Hne by discriminate.
  assert (LazyData._data self = Some (backing self w)) as Hd
    by (vm_compute; reflexivity).
  assert (dom (backing self w) = {["metrics.loss"; "metrics.acc"]}) as Hdom
    by (vm_compute; reflexivity).
  destruct (free_unused_then_read self w "metrics.loss" "metrics.acc"
              (backing self w) Hne Hd Hdom Hused Hcache)
    as (self' & d' & v & Hfree & _ & _ & _ & Hv & self'' & w' & Hget & Hreads & _).
  split; [exact Hused|]. split; [exact Hcache|].
  exists self', self'', w'.
  vm_compute in Hv. injection Hv as <-.
  split; [exact Hfree|]. split; [exact Hget|exact Hreads].
Defined.

End lazydata.

(** ** Dictionaries *)

Section dict_facts.
Context {K V : Type} `{EqDecision K}.
Implicit Types (d : dict K V) (k : K) (v : V).

Lemma dict_get_set_eq d k v : dict_get (dict_set d k v) k = Some v.
Proof.
  induction d as [|[k' v'] d IH]; simpl.
  - by rewrite decide_True.
  - destruct (decide (k' = k)) as [->|Hne]; simpl.
    + by rewrite decide_True.
    + by rewrite decide_False.
Qed.

Lemma dict_get_set_ne d k k' v :
  k ≠ k' → dict_get (dict_set d k v) k' = dict_get d k'.
Proof.
  intros Hne. induction d as [|[k1 v1] d IH]; simpl.
  - by rewrite decide_False.
  - destruct (decide (k1 = k)) as [->|Hne1]; simpl.
    + by rewrite !decide_False.
    + destruct (decide (k1 = k')); auto.
Qed.

Lemma elem_of_dict_set_ne d k k' v v' :
  k ≠ k' → (k, v) ∈ d → (k, v) ∈ dict_set d k' v'.
Proof.
  intros Hne. induction d as [|[k1 v1] d IH]; simpl; [by inversion 1|].
  intros Hin. apply elem_of_cons in Hin as [[= <- <-]|Hin].
  - rewrite decide_False by done. constructor.
  - destruct (decide (k1 = k')); constructor; auto.
Qed.

Lemma dict_get_elem_of d k v : dict_get d k = Some v → (k, v) ∈ d.
Proof.
  induction d as [|[k1 v1] d IH]; simpl; [done|].
  destruct (decide (k1 = k)) as [->|].
  - intros [= ->]. constructor.
  - intros. constructor. auto.
Qed.

Lemma dict_keys_set d k v :
  is_Some (dict_get d k) → dict_keys (dict_set d k v) = dict_keys d.
Proof.
  unfold dict_keys. induction d as [|[k1 v1] d IH]; simpl.
  - by intros [? ?].
  - destruct (decide (k1 = k)) as [->|]; simpl; [done|].
    intros. f_equal. auto.
Qed.

End dict_facts.

(** ** Records and [free_unused] *)

Section config.

Lemma lazydata_free_unused_cases data :
  (LazyData._data data = None
   ∧ LazyData.free_unused data = (Raise AttributeError, data))
  ∨ (∃ d data',
       LazyData._data data = Some d
       ∧ LazyData.free_unused data = (Ok (), data')
       ∧ is_Some (LazyData._data data')).
Proof.
  unfold LazyData.free_unused. destruct (LazyData._data data) as [d|] eqn:E.
  - right. eexists _, _. split_and!; [done..|]. simpl. eauto.
  - by left.
Qed.

Lemma free_all_unmaterialised l key data :
  (key, data) ∈ l →
  LazyData._data data = None →
  ∃ l', Config.free_all l = (Raise AttributeError, l').
Proof.
  intros Hin Hnone. induction l as [|[k1 d1] l IH]; [by inversion Hin|].
  simpl. destruct (lazydata_free_unused_cases d1)
    as [[_ ->]|(d & d1' & Hd & -> & _)]; [eauto|].
  apply elem_of_cons in Hin as [[= <- <-]|Hin]; [congruence|].
  destruct (IH Hin) as [l' ->]. eauto.
Qed.

Lemma free_all_materialised l l' :
  Config.free_all l = (Ok (), l') →
  ∀ key data, (key, data) ∈ l' → is_Some (LazyData._data data).
Proof.
  revert l'. induction l as [|[k1 d1] l IH]; simpl; intros l'.
  - intros [= <-] ? ? Hin. by inversion Hin.
  - destruct (lazydata_free_unused_cases d1)
      as [[_ ->]|(d & d1' & Hd & -> & Hsome)]; [discriminate|].
    destruct (Config.free_all l) as [r l''] eqn:E.
    intros [= -> <-] key data Hin.
    apply elem_of_cons in Hin as [[= -> ->]|Hin]; [done|].
    by eapply IH.
Qed.

(** A read through a key that does not resolve to the [LazyData] stored
    under [parent_key] leaves that object alone. *)
Lemma getitem_keeps self key w r self' w' parent_key data :
  Config.__getitem__ self key w = (r, self', w') →
  dict_get (Config.lazy self) key ≠ Some (Config.GetData parent_key) →
  (parent_key, data) ∈ Config.lazydata_dict self →
  (parent_key, data) ∈ Config.lazydata_dict self'
  ∧ Config.lazy self' = Config.lazy self.
Proof.
  unfold Config.__getitem__. intros Hget Hkey Hin.
  destruct (dict_get (Config.lazy self) key) as [[v|pk]|].
  - by injection Hget as <- <- <-.
  - destruct (dict_get (Config.lazydata_dict self) pk) as [data1|].
    + destruct (LazyData.get_data data1 key w) as [[r1 data1'] w1].
      injection Hget as <- <- <-. simpl. split; [|done].
      apply elem_of_dict_set_ne; [congruence|done].
    + by injection Hget as <- <- <-.
  - by injection Hget as <- <- <-.
Qed.

Lemma extract_keeps value_keys : ∀ self acc w r self' w' parent_key data,
  extract self value_keys acc w = (r, self', w') →
  (∀ key, key ∈ value_keys →
          dict_get (Config.lazy self) key ≠ Some (Config.GetData parent_key)) →
  (parent_key, data) ∈ Config.lazydata_dict self →
  (parent_key, data) ∈ Config.lazydata_dict self'.
Proof.
  induction value_keys as [|key value_keys IH];
    intros self acc w r self' w' parent_key data; simpl.
  - by intros [= <- <- <-].
  - intros Hex Hkeys Hin.
    destruct (Config.__getitem__ self key w) as [[r1 self1] w1] eqn:Hget.
    destruct (getitem_keeps _ _ _ _ _ _ parent_key data Hget) as [Hin1 Hlazy];
      [apply Hkeys; constructor | done |].
    destruct r1 as [v|e].
    + eapply IH; [done| |done].
      intros key' Hkey'. rewrite Hlazy. apply Hkeys. by constructor.
    + by injection Hex as <- <- <-.
Qed.

Lemma config_free_unused_unmaterialised self key data :
  (key, data) ∈ Config.lazydata_dict self →
  LazyData._data data = None →
  ∃ self', Config.free_unused self = (Raise AttributeError, self').
Proof.
  intros Hin Hnone. unfold Config.free_unused.
  destruct (free_all_unmaterialised _ _ _ Hin Hnone) as [l' ->]. eauto.
Qed.

Lemma gather_unmaterialised collection : ∀ value_keys w self parent_key data,
  self ∈ collection →
  (parent_key, data) ∈ Config.lazydata_dict self →
  LazyData._data data = None →
  (∀ key, key ∈ value_keys →
          dict_get (Config.lazy self) key ≠ Some (Config.GetData parent_key)) →
  ∃ e collection' w', gather collection value_keys w = (Raise e, collection', w').
Proof.
  induction collection as [|c collection IH];
    intros value_keys w self parent_key data Hself Hin Hnone Hkeys;
    [by inversion Hself|].
  simpl.
  destruct (extract c value_keys [] w) as [[[val|e] c1] w1] eqn:Hex; [|eauto].
  apply elem_of_cons in Hself as [->|Hself].
  - pose proof (extract_keeps _ _ _ _ _ _ _ _ _ Hex Hkeys Hin) as Hin1.
    destruct (config_free_unused_unmaterialised _ _ _ Hin1 Hnone) as [c2 ->].
    eauto.
  - destruct (Config.free_unused c1) as [[[]|e] c2]; [|eauto].
    destruct (IH value_keys w1 self parent_key data) as (e & c' & w' & ->);
      [done..|].
    simpl. eauto.
Qed.

Lemma gather_materialised collection : ∀ value_keys w val_array collection' w',
  gather collection value_keys w = (Ok val_array, collection', w') →
  ∀ self key data,
    self ∈ collection' →
    (key, data) ∈ Config.lazydata_dict self →
    is_Some (LazyData._data data).
Proof.
  induction collection as [|c collection IH];
    intros value_keys w val_array collection' w'; simpl.
  - intros [= <- <- <-] self key data Hself. by inversion Hself.
  - destruct (extract c value_keys [] w) as [[[val|e] c1] w1]; [|done].
    destruct (Config.free_unused c1) as [[[]|e] c2] eqn:Hfree; [|done].
    destruct (gather collection value_keys w1) as [[r rest] w2] eqn:Hrest.
    destruct r as [vals|e]; [|done].
    intros [= <- <- <-] self key data Hself Hin.
    apply elem_of_cons in Hself as [->|Hself].
    + unfold Config.free_unused in Hfree.
      destruct (Config.free_all (Config.lazydata_dict c1)) as [r1 l1] eqn:Hall.
      injection Hfree as -> <-. simpl in Hin.
      by eapply free_all_materialised.
    + by eapply IH.
Qed.

(** C10.  [free_unused] on a record that owns a [LazyData] whose cache is
    still absent raises ([AttributeError]) instead of doing nothing; so the
    aggregation of a group raises as soon as one of its records owns such a
    [LazyData] that no key of the maps reads; and when the aggregation of a
    group returns, every [LazyData] of every record of the group holds a
    cache. *)
Theorem free_unused_needs_materialised :
  (∀ self key data,
     (key, data) ∈ Config.lazydata_dict self →
     LazyData._data data = None →
     ∃ self', Config.free_unused self = (Raise AttributeError, self'))
  ∧ (∀ collection agg_maps w self parent_key data,
       self ∈ collection →
       (parent_key, data) ∈ Config.lazydata_dict self →
       LazyData._data data = None →
       (∀ key, key ∈ _extract_keys_from_maps agg_maps →
               dict_get (Config.lazy self) key
               ≠ Some (Config.GetData parent_key)) →
       ∃ e collection' w',
         _aggregate_collection collection agg_maps w
         = (Raise e, collection', w'))
  ∧ (∀ collection agg_maps w r collection' w',
       _aggregate_collection collection agg_maps w = (Ok r, collection', w') →
       ∀ self key data,
         self ∈ collection' →
         (key, data) ∈ Config.lazydata_dict self →
         is_Some (LazyData._data data)).
Proof.
  split_and!.
  - apply config_free_unused_unmaterialised.
  - intros collection agg_maps w self parent_key data Hself Hin Hnone Hkeys.
    unfold _aggregate_collection.
    destruct (gather_unmaterialised collection _ w _ _ _ Hself Hin Hnone Hkeys)
      as (e & c' & w' & ->).
    eauto.
  - intros collection agg_maps w r collection' w'. unfold _aggregate_collection.
    destruct (gather collection _ w) as [[[val_array|e] c1] w1] eqn:Hg;
      [|done].
    intros [= _ <- <-]. by eapply gather_materialised.
Qed.

(** A record with the eager field [x] and the lazy field [metrics.loss],
    whose file was never read. *)
Definition example_config : Config.t :=
  {| Config.flattened := [("x", VNum 1); ("metrics.loss", Config.LAZYDATA)];
     Config.lazy :=
       [("x", Config.Eager (VNum 1));
        ("metrics.loss", Config.GetData "metrics")];
     Config.lazydata_dict := [("metrics", LazyData.__init__ "run" "metrics")]
  |}.

Lemma free_unused_needs_materialised_witness :
  (∃ self', Config.free_unused example_config = (Raise AttributeError, self'))
  ∧ ∃ e collection' w',
      _aggregate_collection [example_config] [Min "x"] example_world
      = (Raise e, collection', w').
Proof.
  destruct free_unused_needs_materialised as (Hfree & Hagg & _).
  assert (("metrics", LazyData.__init__ "run" "metrics")
          ∈ Config.lazydata_dict example_config) as Hin by constructor.
  split.
  - exact (Hfree example_config _ _ Hin eq_refl).
  - apply (Hagg [example_config] [Min "x"] example_world example_config
             "metrics" (LazyData.__init__ "run" "metrics"));
      [constructor | exact Hin | reflexivity |].
    intros key Hkey.
    change (_extract_keys_from_maps [Min "x"]) with ["x"] in Hkey.
    apply list_elem_of_singleton in Hkey as ->.
    vm_compute. discriminate.
Defined.

End config.

(** ** Validation of the aggregation maps *)

Section aggregate_validation.

Definition invalid_map_message (str : string) : string :=
  "The map " ++ str ++ " must be an instance of a child class of  "
  ++ str_AggregationMap.

Lemma for_each_assert_valid valid :
  for_each _assert_valid_map (IsMap <$> valid) = Ok ().
Proof. induction valid as [|m valid IH]; simpl; auto. Qed.

Lemma for_each_assert_invalid valid str rest :
  for_each _assert_valid_map ((IsMap <$> valid) ++ Other str :: rest)
  = Raise (InvalidAggregationMapError (invalid_map_message str)).
Proof. induction valid as [|m valid IH]; simpl; auto. Qed.

(** A list with an object that is no map splits at the first such object. *)
Lemma first_invalid (aggregation_maps : list pyobj) :
  (∃ str, Other str ∈ aggregation_maps) →
  ∃ valid str rest,
    aggregation_maps = ((IsMap <$> valid) ++ Other str :: rest)%list.
Proof.
  induction aggregation_maps as [|[m|str] l IH]; intros [str' Hin].
  - by inversion Hin.
  - apply elem_of_cons in Hin as [?|Hin]; [done|].
    destruct IH as (valid & str1 & rest & ->); [eauto|].
    by exists (m :: valid), str1, rest.
  - by exists [], str, l.
Qed.

(** C6.  When the list given to [aggregate] holds an object that is not an
    instance of a class inheriting from [AggregationMap], the call raises
    [InvalidAggregationMapError]; the message names the first such object
    and the class [AggregationMap]; the grouped records and the world are
    as before the call: no file was read and no record has loaded
    anything. *)
Theorem aggregate_rejects_invalid_map (self : GroupedConfigs.t)
    (aggregation_maps : list pyobj) (w : world) :
  (∃ str, Other str ∈ aggregation_maps) →
  ∃ valid str rest,
    aggregation_maps = ((IsMap <$> valid) ++ Other str :: rest)%list
    ∧ GroupedConfigs_aggregate self aggregation_maps w
      = (Raise (InvalidAggregationMapError
                  ("The map " ++ str
                   ++ " must be an instance of a child class of  "
                   ++ str_AggregationMap)),
         self, w).
Proof.
  intros Hinvalid.
  destruct (first_invalid _ Hinvalid) as (valid & str & rest & ->).
  exists valid, str, rest. split; [done|].
  unfold GroupedConfigs_aggregate. by rewrite for_each_assert_invalid.
Qed.

(** A group whose only record has never read its metrics file, aggregated
    with a valid map and a plain function. *)
Definition example_grouped : GroupedConfigs.t :=
  {| GroupedConfigs.group_keys := ["x"];
     GroupedConfigs.grouped_dict := [(["1.0"], [example_config])] |}.

Lemma aggregate_rejects_invalid_map_witness :
  GroupedConfigs_aggregate example_grouped
    [IsMap (Min "metrics.loss"); Other "<built-in function min>"]
    example_world
  = (Raise (InvalidAggregationMapError
              ("The map <built-in function min> must be an instance of a "
               ++ "child class of  <class 'experimentalist.reading."
               ++ "aggregation_maps.AggregationMap'>")),
     example_grouped, example_world).
Proof.
  destruct (aggregate_rejects_invalid_map example_grouped
              [IsMap (Min "metrics.loss"); Other "<built-in function min>"]
              example_world)
    as (valid & str & rest & Hsplit & Hraise).
  { exists "<built-in function min>". apply list_elem_of_In. simpl. auto. }
  destruct valid as [|m [|m' valid]]; simpl in Hsplit;
    [discriminate | | discriminate].
  injection Hsplit as _ <- _. exact Hraise.
Defined.

End aggregate_validation.

(** ** The map [Last] *)

Section last.

Lemma Last_apply_list key data :
  Last_apply (Last key) (DataList data) = Raise TypeError.
Proof. reflexivity. Qed.

Lemma apply_Last key val_array :
  apply (Last key) val_array = Raise TypeError.
Proof. reflexivity. Qed.

Lemma aggregate_map_Last collection val_array key :
  aggregate_map collection val_array (Last key) = Raise TypeError.
Proof. reflexivity. Qed.

Lemma aggregate_maps_Last collection val_array before key after :
  ∀ agg_collection,
    ∃ e, aggregate_maps collection val_array (before ++ Last key :: after)
           agg_collection = Raise e.
Proof.
  induction before as [|agg_map before IH]; intros agg_collection;
    cbn [app aggregate_maps].
  - rewrite aggregate_map_Last. simpl. eauto.
  - destruct (aggregate_map collection val_array agg_map); simpl; eauto.
Qed.

(** On the dictionary of one run [Last.apply] gives the final element of
    the sequence, and nothing when the field or the element is absent. *)
Lemma Last_apply_run key (d : dict string value) :
  Last_apply (Last key) (DataDict d)
  = match dict_get d key with
    | Some (VSeq l) | Some (VArr l) =>
        match last l with
        | Some x => Ok (RetDict [("last(" ++ key ++ ")", VNum x)])
        | None => Ok (RetDict [])
        end
    | Some (VSeqInt l) =>
        match last l with
        | Some n => Ok (RetDict [("last(" ++ key ++ ")", VInt n)])
        | None => Ok (RetDict [])
        end
    | Some (VStr s) =>
        match last_char s with
        | Some c => Ok (RetDict [("last(" ++ key ++ ")",
                                   VStr (String c EmptyString))])
        | None => Ok (RetDict [])
        end
    | Some (VNum _) | Some (VInt _) | Some VNone => Raise TypeError
    | None => Ok (RetDict [])
    end.
Proof.
  assert (∀ {A} (l : list A),
            py_index l (-1)
            = match last l with Some x => Ok x | None => Raise IndexError end)
    as Hlast.
  { intros A l. unfold py_index. destruct l as [|x l] using rev_ind; [done|].
    rewrite last_snoc, length_app. simpl.
    replace (-1 + Z.of_nat (length l + 1))%Z with (Z.of_nat (length l)) by lia.
    rewrite Nat2Z.id, lookup_app_r, Nat.sub_diag by lia. simpl.
    rewrite (proj2 (Z.leb_le _ _)), (proj2 (Z.ltb_lt _ _)) by lia. done. }
  unfold Last_apply. simpl. unfold dict_item.
  destruct (dict_get d key) as [[|s|x|l|l|n|l]|]; simpl; try done.
  - by destruct (last_char s).
  - rewrite Hlast. by destruct (last l).
  - rewrite Hlast. by destruct (last l).
  - rewrite Hlast. by destruct (last l).
Qed.

(** C9 fails on the code.  [_aggregate_collection] gives [apply] the list
    of the per-run dictionaries, and [Last.apply] subscripts its argument by
    the field name: on a list that is a [TypeError], which neither handler
    catches.  So an aggregation of any group with a [Last] map among the
    maps raises; on the dictionary of a single run [Last.apply] would give
    the final element under [last(f)], or an empty dictionary. *)
Theorem last_aggregation_raises :
  (∀ key data, Last_apply (Last key) (DataList data) = Raise TypeError)
  ∧ (∀ collection before key after w,
       ∃ e collection' w',
         _aggregate_collection collection (before ++ Last key :: after) w
         = (Raise e, collection', w'))
  ∧ (∀ w,
       _aggregate_collection
         [ {| Config.flattened := [("f", VSeq [1; 2]%float)];
              Config.lazy := [("f", Config.Eager (VSeq [1; 2]%float))];
              Config.lazydata_dict := [] |} ]
         [Last "f"] w
       = (Raise TypeError,
          [ {| Config.flattened := [("f", VSeq [1; 2]%float)];
               Config.lazy := [("f", Config.Eager (VSeq [1; 2]%float))];
               Config.lazydata_dict := [] |} ], w))
  ∧ Last_apply (Last "f") (DataDict [("f", VSeq [1; 2]%float)])
    = Ok (RetDict [("last(f)", VNum 2)]).
Proof.
  split_and!.
  - apply Last_apply_list.
  - intros collection before key after w. unfold _aggregate_collection.
    destruct (gather collection _ w) as [[[val_array|e] c1] w1]; [|eauto].
    destruct (aggregate_maps_Last c1 val_array before key after []) as [e ->].
    eauto.
  - intros w. reflexivity.
  - reflexivity.
Qed.

End last.

(** ** Differences between records *)

Section diff.

Lemma add_new_elem_of {A} `{EqDecision A} (x : A) l : x ∈ add_new x l.
Proof.
  induction l as [|y l IH]; simpl; [constructor|].
  case_decide; subst; constructor; auto.
Qed.

Lemma add_new_incl {A} `{EqDecision A} (x : A) l : l ⊆ add_new x l.
Proof.
  induction l as [|y l IH]; simpl; [intros z Hz; by inversion Hz|].
  case_decide; [done|].
  intros z Hz. apply elem_of_cons in Hz as [->|Hz]; constructor. by apply IH.
Qed.

Lemma diff_key_grows start_key key ref_dict config diff_keys w
    diff_keys' ref_dict' config' w' :
  diff_key start_key key ref_dict config diff_keys w
  = (Ok diff_keys', ref_dict', config', w') →
  diff_keys ⊆ diff_keys'
  ∧ (starts_with key start_key = false → key ∈ diff_keys')
  ∧ Config.lazy config' = Config.lazy config.
Proof.
  unfold diff_key.
  destruct (Config.__contains__ ref_dict key w) as [[[present|e] r1] w1];
    [|done].
  destruct (present && starts_with key start_key) eqn:Hcond.
  - destruct (Config.__getitem__ r1 key w1) as [[[a|e] r2] w2]; [|done].
    destruct (Config.__getitem__ config key w2) as [[[b|e] c2] w3] eqn:Hget;
      [|done].
    assert (Config.lazy c2 = Config.lazy config) as Hlazy.
    { unfold Config.__getitem__ in Hget.
      destruct (dict_get (Config.lazy config) key) as [[v|pk]|];
        [by injection Hget as _ <- _| |done].
      destruct (dict_get (Config.lazydata_dict config) pk); [|done].
      destruct (LazyData.get_data _ key w2) as [[? ?] ?].
      by injection Hget as _ <- _. }
    apply andb_true_iff in Hcond as [_ Hstart].
    destruct (value_ne a b) as [[]|]; intros [= <- <- <- <-];
      (split_and!; [|congruence|done]);
      [apply add_new_incl|done].
  - intros [= <- <- <- <-]. split_and!; [apply add_new_incl| |done].
    intros _. apply add_new_elem_of.
Qed.

Lemma diff_keys_of_grows start_key keys :
  ∀ ref_dict config diff_keys w diff_keys' ref_dict' config' w',
    diff_keys_of start_key keys ref_dict config diff_keys w
    = (Ok diff_keys', ref_dict', config', w') →
    diff_keys ⊆ diff_keys'
    ∧ (∀ key, key ∈ keys → starts_with key start_key = false →
              key ∈ diff_keys').
Proof.
  induction keys as [|key keys IH];
    intros ref_dict config diff_keys w diff_keys' ref_dict' config' w'; simpl.
  - intros [= <- <- <- <-]. split; [done|]. intros key Hin. by inversion Hin.
  - destruct (diff_key start_key key ref_dict config diff_keys w)
      as [[[[dk1|e] r1] c1] w1] eqn:Hkey; [|done].
    intros Hrest.
    destruct (diff_key_grows _ _ _ _ _ _ _ _ _ _ Hkey) as (Hincl & Hkey1 & _).
    destruct (IH _ _ _ _ _ _ _ _ Hrest) as [Hincl' Hkeys].
    split; [by etrans|].
    intros key' Hin Hstart. apply elem_of_cons in Hin as [->|Hin]; auto.
Qed.

Lemma diff_configs_grows start_key rest :
  ∀ ref_dict diff_keys w diff_keys' ref_dict' rest' w',
    diff_configs start_key ref_dict rest diff_keys w
    = (Ok diff_keys', ref_dict', rest', w') →
    diff_keys ⊆ diff_keys'
    ∧ (∀ config key,
         config ∈ rest → key ∈ Config.keys config →
         starts_with key start_key = false → key ∈ diff_keys').
Proof.
  induction rest as [|config rest IH];
    intros ref_dict diff_keys w diff_keys' ref_dict' rest' w'; simpl.
  - intros [= <- <- <- <-]. split; [done|]. intros ? ? Hin. by inversion Hin.
  - destruct (diff_keys_of start_key (Config.keys config) ref_dict config
                diff_keys w) as [[[[dk1|e] r1] c1] w1] eqn:Hkeys; [|done].
    destruct (diff_configs start_key r1 rest dk1 w1)
      as [[[r r2] rest2] w2] eqn:Hrest.
    intros [= -> <- <- <-].
    destruct (diff_keys_of_grows _ _ _ _ _ _ _ _ _ _ Hkeys) as [Hincl Hhere].
    destruct (IH _ _ _ _ _ _ _ Hrest) as [Hincl' Hthere].
    split; [by etrans|].
    intros config' key Hin Hkey Hstart.
    apply elem_of_cons in Hin as [->|Hin]; [|eauto].
    apply Hincl'. eauto.
Qed.

(** Whenever [config_diff] returns, its result holds every key of every
    record after the first that does not start with [start_key]. *)
Lemma config_diff_other_keys self start_key w diff_keys self' w' :
  ConfigList_config_diff self start_key w = (Ok diff_keys, self', w') →
  ∀ config key,
    config ∈ drop 1 self → key ∈ Config.keys config →
    starts_with key start_key = false → key ∈ diff_keys.
Proof.
  destruct self as [|ref_dict rest]; simpl.
  - intros _ ? ? Hin. by inversion Hin.
  - destruct (diff_configs start_key ref_dict rest [] w)
      as [[[r r1] rest1] w1] eqn:Hrest.
    intros [= -> <- <-]. rewrite drop_0.
    by destruct (diff_configs_grows _ _ _ _ _ _ _ _ _ Hrest).
Qed.

(** A run with one key under [metadata.custom] and one outside. *)
Definition example_run : Config.t :=
  {| Config.flattened :=
       [("metadata.custom.lr", VNum 0.5);
        ("metadata.system.hostname", VStr "node1")];
     Config.lazy :=
       [("metadata.custom.lr", Config.Eager (VNum 0.5));
        ("metadata.system.hostname", Config.Eager (VStr "node1"))];
     Config.lazydata_dict := [] |}.

(** C8 fails on the code.  The [else] of [config_diff] belongs to the test
    [key in ref_dict and key.startswith(start_key)], so a key that does not
    start with the prefix is added to the result too: for two identical
    runs the result is not empty and holds a key outside the prefix, and
    whenever [config_diff] returns, its result holds every key of the runs
    after the first that does not start with the prefix. *)
Theorem config_diff_identical_runs :
  (∀ w,
     ConfigList_config_diff [example_run; example_run] "metadata.custom" w
     = (Ok ["metadata.system.hostname"], [example_run; example_run], w))
  ∧ (∀ self start_key w diff_keys self' w',
       ConfigList_config_diff self start_key w = (Ok diff_keys, self', w') →
       ∀ config key,
         config ∈ drop 1 self → key ∈ Config.keys config →
         starts_with key start_key = false → key ∈ diff_keys).
Proof.
  split.
  - intros w. reflexivity.
  - apply config_diff_other_keys.
Qed.

End diff.

(** ** Grouping *)

Section grouping.

Variable str_value : value → string.
Variable str_valid_keys : valid_keys_arg → string.

Lemma check_valid_key_bound_method method key :
  _check_valid_key str_valid_keys (BoundMethod method) key = Raise TypeError.
Proof. reflexivity. Qed.

Lemma for_each_check_bound_method method key keys :
  for_each (_check_valid_key str_valid_keys (BoundMethod method)) (key :: keys)
  = Raise TypeError.
Proof. reflexivity. Qed.

(** Given the list of the columns, [_check_valid_key] accepts the keys of
    the list and rejects any other with [InvalidKeyError]. *)
Lemma check_valid_key_list l key :
  _check_valid_key str_valid_keys (KeysList l) key
  = if bool_decide (key ∈ l) then Ok ()
    else Raise (InvalidKeyError
                  ("The provided key " ++ key
                   ++ " is invalid! Valid keys are: "
                   ++ str_valid_keys (KeysList l))).
Proof. unfold _check_valid_key. simpl. by destruct (bool_decide (key ∈ l)). Qed.

(** C4 fails on the code.  [groupBy] gives [_check_valid_key] the method
    [self.keys] instead of the list [self.keys()]; the test [key in
    valid_keys] on a method is a [TypeError], which the handler of
    [AssertionError] lets through.  So with a key, known column or not,
    [groupBy] raises [TypeError] and never [InvalidKeyError]; only on the
    list of the columns does [_check_valid_key] do what the claim says. *)
Theorem groupBy_check_raises_type_error :
  (∀ self key keys,
     ConfigList_groupBy str_value str_valid_keys self (key :: keys)
     = Raise TypeError)
  ∧ (∀ l key,
       _check_valid_key str_valid_keys (KeysList l) key
       = if bool_decide (key ∈ l) then Ok ()
         else Raise (InvalidKeyError
                       ("The provided key " ++ key
                        ++ " is invalid! Valid keys are: "
                        ++ str_valid_keys (KeysList l)))).
Proof.
  split.
  - intros self key keys. unfold ConfigList_groupBy.
    by rewrite for_each_check_bound_method.
  - apply check_valid_key_list.
Qed.

Lemma group_by_no_keys_nonempty config_dict rest :
  _group_by str_value (config_dict :: rest) [] = Raise UnboundLocalError.
Proof. reflexivity. Qed.

(** C1 fails on the code: [groupBy] returns on no input.  With a key it
    raises in the check of the keys; with no key, [_add_nested_keys_val]
    reads the unbound [key] for the first run, and for an empty collection
    the call of [GroupedConfigs] on three arguments is a [TypeError]. *)
Theorem groupBy_never_returns (self : ConfigList)
    (list_group_keys : list string) :
  ConfigList_groupBy str_value str_valid_keys self list_group_keys
  = Raise match list_group_keys, self with
          | [], _ :: _ => UnboundLocalError
          | _, _ => TypeError
          end.
Proof.
  destruct list_group_keys as [|key keys].
  - destruct self as [|config_dict rest]; reflexivity.
  - unfold ConfigList_groupBy. rewrite for_each_check_bound_method.
    by destruct self.
Qed.

End grouping.

(** ** The order of binary64 floats *)

Section float_order.

Definition sf_nan (f : spec_float) : bool :=
  match f with
  | S754_nan => true
  | _ => false
  end.

Lemma SFcompare_refl f : sf_nan f = false → SFcompare f f = Some Eq.
Proof.
  destruct f as [[]|[]| |[] m e]; simpl; try done; intros _;
    rewrite Z.compare_refl, ?Pos.compare_cont_refl by done; done.
Qed.

Lemma SFcompare_antisym f g :
  SFcompare g f = option_map CompOpp (SFcompare f g).
Proof.
  destruct f as [[]|[]| |[] m e], g as [[]|[]| |[] m' e']; simpl; try done;
    rewrite (Z.compare_antisym e e'); destruct (e ?= e')%Z; simpl; try done;
    change (Pos.compare_cont Eq m' m) with (Pos.compare m' m);
    change (Pos.compare_cont Eq m m') with (Pos.compare m m');
    rewrite (Pos.compare_antisym m m'); by destruct (m ?= m')%positive.
Qed.

Lemma SFcompare_None f g :
  sf_nan f = false → sf_nan g = false → is_Some (SFcompare f g).
Proof.
  destruct f as [[]|[]| |[] m e], g as [[]|[]| |[] m' e']; simpl; eauto;
    discriminate.
Qed.

Lemma SFleb_trans f g h :
  SFleb f g = true → SFleb g h = true → SFleb f h = true.
Proof.
  unfold SFleb.
  destruct f as [[]|[]| |[] m e], g as [[]|[]| |[] m' e'],
    h as [[]|[]| |[] m'' e'']; simpl; try done;
    change (Pos.compare_cont Eq ?a ?b) with (Pos.compare a b);
    repeat match goal with
      | |- context [(?a ?= ?b)%Z] =>
          destruct (Z.compare_spec a b); simpl; try done; try lia
      | |- context [(?a ?= ?b)%positive] =>
          destruct (Pos.compare_spec a b); simpl; try done; try lia
      end.
Qed.

Lemma is_nan_spec x : is_nan x = sf_nan (Prim2SF x).
Proof.
  unfold is_nan. rewrite FloatAxioms.eqb_spec. unfold SFeqb.
  destruct (sf_nan (Prim2SF x)) eqn:E.
  - by destruct (Prim2SF x).
  - by rewrite SFcompare_refl.
Qed.

Lemma leb_refl x : is_nan x = false → (x <=? x)%float = true.
Proof.
  rewrite is_nan_spec, FloatAxioms.leb_spec. intros H. unfold SFleb.
  by rewrite SFcompare_refl.
Qed.

Lemma leb_trans x y z :
  (x <=? y)%float = true → (y <=? z)%float = true → (x <=? z)%float = true.
Proof. rewrite !FloatAxioms.leb_spec. apply SFleb_trans. Qed.

Lemma leb_total x y :
  is_nan x = false → is_nan y = false →
  (x <=? y)%float = false → (y <=? x)%float = true.
Proof.
  rewrite !is_nan_spec, !FloatAxioms.leb_spec. intros Hx Hy. unfold SFleb.
  rewrite (SFcompare_antisym (Prim2SF x) (Prim2SF y)).
  destruct (SFcompare_None _ _ Hx Hy) as [c ->]. by destruct c.
Qed.

Lemma leb_not_nan x y :
  (x <=? y)%float = true → is_nan x = false ∧ is_nan y = false.
Proof.
  rewrite !is_nan_spec, FloatAxioms.leb_spec. unfold SFleb.
  destruct (Prim2SF x) as [[]|[]| |[] m e],
    (Prim2SF y) as [[]|[]| |[] m' e']; simpl; done.
Qed.

Lemma ltb_leb x y : (x <? y)%float = true → (y <=? x)%float = false.
Proof.
  rewrite FloatAxioms.ltb_spec, FloatAxioms.leb_spec. unfold SFltb, SFleb.
  rewrite (SFcompare_antisym (Prim2SF x) (Prim2SF y)).
  by destruct (SFcompare (Prim2SF x) (Prim2SF y)) as [[]|].
Qed.

Lemma ltb_not_nan x y :
  (x <? y)%float = true → is_nan x = false ∧ is_nan y = false.
Proof.
  rewrite !is_nan_spec, FloatAxioms.ltb_spec. unfold SFltb.
  destruct (Prim2SF x) as [[]|[]| |[] m e],
    (Prim2SF y) as [[]|[]| |[] m' e']; simpl; done.
Qed.

End float_order.

(** ** The scans of [argmin] and [argmax] *)

(** [i] is the first position of an entry of [a] that [le] puts below every
    entry. *)
Definition first_extremum (le : float → float → bool) (a : list float)
    (i : nat) : Prop :=
  ∃ x, a !! i = Some x
       ∧ (∀ j y, a !! j = Some y → le x y = true)
       ∧ (∀ j y, (j < i)%nat → a !! j = Some y → le y x = false).

Definition first_least : list float → nat → Prop :=
  first_extremum PrimFloat.leb.

Definition first_greatest : list float → nat → Prop :=
  first_extremum (λ x y, y <=? x)%float.

Section scan.

Variable le : float → float → bool.
Hypothesis le_refl : ∀ x, is_nan x = false → le x x = true.
Hypothesis le_trans : ∀ x y z, le x y = true → le y z = true → le x z = true.
Hypothesis le_total :
  ∀ x y, is_nan x = false → is_nan y = false → le x y = false → le y x = true.

Fixpoint scan (mp : float) (ind i : nat) (l : list float) : nat :=
  match l with
  | [] => ind
  | x :: l' =>
      if negb (le mp x) then if is_nan x then i else scan x i (S i) l'
      else scan mp ind (S i) l'
  end.

Lemma scan_spec l : ∀ mp ind i,
  is_nan mp = false →
  Forall (λ x, is_nan x = false) l →
  (scan mp ind i l = ind ∧ ∀ y, y ∈ l → le mp y = true)
  ∨ ∃ k x,
      scan mp ind i l = (i + k)%nat
      ∧ l !! k = Some x
      ∧ le mp x = false
      ∧ (∀ y, y ∈ l → le x y = true)
      ∧ (∀ j y, (j < k)%nat → l !! j = Some y → le y x = false).
Proof using le_refl le_trans le_total.
  induction l as [|x l IH]; intros mp ind i Hmp Hl; simpl.
  - left. split; [done|]. intros y Hy. by inversion Hy.
  - apply Forall_cons in Hl as [Hx Hl]. rewrite Hx.
    destruct (le mp x) eqn:E; simpl.
    + destruct (IH mp ind (S i) Hmp Hl)
        as [[-> Hall]|(k & x' & -> & Hk & Hlt & Hall & Hfirst)].
      * left. split; [done|]. intros y [->|Hy]%elem_of_cons; auto.
      * right. exists (S k), x'.
        assert (is_nan x' = false) as Hx'
          by apply (Forall_lookup_1 _ _ _ _ Hl Hk).
        split_and!; [lia|done|done| |].
        -- intros y [->|Hy]%elem_of_cons; [|auto].
           eapply le_trans; [|exact E]. by apply le_total.
        -- intros [|j] y Hj; simpl.
           ++ intros [= <-]. destruct (le x x') eqn:E'; [|done].
              by rewrite (le_trans _ _ _ E E') in Hlt.
           ++ apply Hfirst. lia.
    + destruct (IH x i (S i) Hx Hl)
        as [[-> Hall]|(k & x' & -> & Hk & Hlt & Hall & Hfirst)].
      * right. exists 0%nat, x.
        split_and!; [lia|done|done| |intros; lia].
        intros y [->|Hy]%elem_of_cons; auto.
      * right. exists (S k), x'.
        assert (is_nan x' = false) as Hx'
          by apply (Forall_lookup_1 _ _ _ _ Hl Hk).
        assert (le x' x = true) as Hle by by apply le_total.
        split_and!; [lia|done| | |].
        -- destruct (le mp x') eqn:E'; [|done].
           by rewrite (le_trans _ _ _ E' Hle) in E.
        -- intros y [->|Hy]%elem_of_cons; auto.
        -- intros [|j] y Hj; simpl.
           ++ by intros [= <-].
           ++ apply Hfirst. lia.
Qed.

(** On an array without NaN the scan from its first entry finds the first
    extremum. *)
Lemma scan_first_extremum x l :
  Forall (λ x, is_nan x = false) (x :: l) →
  first_extremum le (x :: l) (scan x 0 1 l).
Proof using le_refl le_trans le_total.
  intros [Hx Hl]%Forall_cons.
  destruct (scan_spec l x 0%nat 1%nat Hx Hl)
    as [[-> Hall]|(k & x' & -> & Hk & Hlt & Hall & Hfirst)].
  - exists x. split_and!; [done| |intros; lia].
    intros [|j] y; simpl; [intros [= <-]; auto|].
    intros Hy. apply Hall. by eapply list_elem_of_lookup_2.
  - assert (is_nan x' = false) as Hx'
      by apply (Forall_lookup_1 _ _ _ _ Hl Hk).
    exists x'. split_and!; [done| |].
    + intros [|j] y; simpl.
      * intros [= <-]. by apply le_total.
      * intros Hy. apply Hall. by eapply list_elem_of_lookup_2.
    + intros [|j] y Hj; simpl.
      * by intros [= <-].
      * apply Hfirst. lia.
Qed.

End scan.

Section nanarg.

Lemma argmin_scan_eq l : ∀ mp ind i,
  np.argmin_scan mp ind i l = scan PrimFloat.leb mp ind i l.
Proof.
  induction l as [|x l IH]; intros; simpl; [done|]. by rewrite !IH.
Qed.

Lemma argmax_scan_eq l : ∀ mp ind i,
  np.argmax_scan mp ind i l = scan (λ x y, y <=? x)%float mp ind i l.
Proof.
  induction l as [|x l IH]; intros; simpl; [done|]. by rewrite !IH.
Qed.

Lemma replace_nan_not_nan val x :
  is_nan val = false → is_nan (np.replace_nan val x) = false.
Proof. intros Hval. unfold np.replace_nan. by destruct (is_nan x) eqn:E. Qed.

Lemma forall_replace_nan val a :
  is_nan val = false →
  Forall (λ x, is_nan x = false) (np.replace_nan val <$> a).
Proof.
  intros Hval. apply Forall_fmap, Forall_forall. intros x _.
  by apply replace_nan_not_nan.
Qed.

Lemma nanargmin_spec a :
  if forallb is_nan a then np.nanargmin_float a = Raise ValueError
  else ∃ i, np.nanargmin_float a = Ok i
            ∧ first_least (np.replace_nan infinity <$> a) i.
Proof.
  unfold np.nanargmin_float. destruct a as [|x l]; [done|].
  destruct (forallb is_nan (x :: l)) eqn:E; [done|].
  pose proof (forall_replace_nan infinity (x :: l) eq_refl) as Hall.
  rewrite fmap_cons in *. unfold np.argmin.
  rewrite (replace_nan_not_nan infinity x eq_refl), argmin_scan_eq.
  eexists. split; [done|].
  apply scan_first_extremum; [apply leb_refl|apply leb_trans| |done].
  apply leb_total.
Qed.

Lemma nanargmax_spec a :
  if forallb is_nan a then np.nanargmax_float a = Raise ValueError
  else ∃ i, np.nanargmax_float a = Ok i
            ∧ first_greatest (np.replace_nan neg_infinity <$> a) i.
Proof.
  unfold np.nanargmax_float. destruct a as [|x l]; [done|].
  destruct (forallb is_nan (x :: l)) eqn:E; [done|].
  pose proof (forall_replace_nan neg_infinity (x :: l) eq_refl) as Hall.
  rewrite fmap_cons in *. unfold np.argmax.
  rewrite (replace_nan_not_nan neg_infinity x eq_refl), argmax_scan_eq.
  eexists. split; [done|].
  apply scan_first_extremum; [apply leb_refl| | |done].
  - intros x' y z Hxy Hyz. by eapply leb_trans.
  - intros x' y Hx Hy. by apply leb_total.
Qed.

End nanarg.

(** ** The maps [Min] and [Max] *)

(** The record as [free_unused] leaves it. *)
Definition freed (c : Config.t) : Config.t := (Config.free_unused c).2.

(** Every [LazyData] of the record holds a cache. *)
Definition materialised (c : Config.t) : Prop :=
  ∀ key data,
    (key, data) ∈ Config.lazydata_dict c → is_Some (LazyData._data data).

(** A run whose only field is the number [x]. *)
Definition scalar_run (x : float) : Config.t :=
  {| Config.flattened := [("x", VNum x)];
     Config.lazy := [("x", Config.Eager (VNum x))];
     Config.lazydata_dict := [] |}.

Section min_max.

Lemma py_index_nat {A} (l : list A) i x :
  l !! i = Some x → py_index l (Z.of_nat i) = Ok x.
Proof.
  intros Hi. unfold py_index. pose proof (lookup_lt_Some _ _ _ Hi).
  destruct (Z.of_nat i <? 0)%Z eqn:E; [lia|].
  rewrite (proj2 (Z.leb_le _ _)), (proj2 (Z.ltb_lt _ _)) by lia.
  simpl. by rewrite Nat2Z.id, Hi.
Qed.

Lemma py_index_minus_one {A} (l : list A) x :
  l !! (length l - 1)%nat = Some x → py_index l (-1) = Ok x.
Proof.
  intros Hi. unfold py_index. pose proof (lookup_lt_Some _ _ _ Hi).
  simpl.
  rewrite (proj2 (Z.leb_le _ _)), (proj2 (Z.ltb_lt _ _)) by lia. simpl.
  replace (Z.to_nat (-1 + Z.of_nat (length l))) with (length l - 1)%nat by lia.
  by rewrite Hi.
Qed.

(** The index a map returns designates position [i] of a list of length
    [n]. *)
Definition designates (n : nat) (index : Z) (i : nat) : Prop :=
  index = Z.of_nat i ∨ (index = (-1)%Z ∧ i = (n - 1)%nat).

Lemma py_index_designates {A} (l : list A) index i x :
  designates (length l) index i → l !! i = Some x → py_index l index = Ok x.
Proof.
  intros [->|[-> ->]] Hi; [by apply py_index_nat|by apply py_index_minus_one].
Qed.

Lemma select_values self f data vs :
  AggregationMap.keys self = [f] →
  Forall2 (λ d v, dict_get d f = Some v) data vs →
  select self data = Ok vs.
Proof.
  intros Hkeys. unfold select.
  induction 1 as [|d v data vs Hd _ IH]; [done|].
  cbn [comprehension]. rewrite IH, Hkeys. simpl.
  unfold dict_item. by rewrite Hd.
Qed.

Lemma forallb_is_nan_last xs x :
  forallb is_nan xs = true → xs !! (length xs - 1)%nat = Some x →
  is_nan x = true.
Proof.
  intros Hall Hx. rewrite forallb_forall in Hall. apply Hall.
  apply list_elem_of_In. by eapply list_elem_of_lookup_2.
Qed.

(** [np.asarray] on ints in the range of int64, and on numbers one of which
    is a float. *)
Lemma asarray_ints ns :
  ns ≠ [] → Forall (λ n, np.in_int64 n = true) ns →
  np.asarray (VInt <$> ns) = Ok (np.Axis1 (np.I64 ns)).
Proof.
  intros Hne Hns.
  assert (mapM np.as_int (VInt <$> ns) = Some ns) as Hints.
  { apply mapM_Some. clear Hne.
    induction Hns as [|n ns Hn _ IH]; simpl; constructor; [|done].
    simpl. by rewrite Hn. }
  destruct ns as [|n ns]; [done|].
  unfold np.asarray. rewrite fmap_cons in *. by rewrite Hints.
Qed.

Lemma asarray_floats vs xs :
  Forall2 (λ v x, np.as_float v = Some x) vs xs →
  (∃ x, VNum x ∈ vs) →
  np.asarray vs = Ok (np.Axis1 (np.F64 xs)).
Proof.
  intros Hxs [x Hx].
  assert (mapM np.as_int vs = None) as Hints.
  { destruct (mapM np.as_int vs) as [ns|] eqn:E; [|done].
    apply mapM_Some in E.
    apply list_elem_of_lookup_1 in Hx as [i Hi].
    destruct (Forall2_lookup_l _ _ _ _ _ E Hi) as (n & _ & Hn). done. }
  assert (mapM np.as_float vs = Some xs) as Hfloats by by apply mapM_Some.
  destruct vs as [|v vs]; [by inversion Hx|].
  unfold np.asarray. by rewrite Hints, Hfloats.
Qed.

(** The first position of the least, of the greatest entry of a list of
    integers. *)
Definition first_least_int (ns : list Z) (i : nat) : Prop :=
  ∃ n, ns !! i = Some n
       ∧ (∀ j m, ns !! j = Some m → (n <= m)%Z)
       ∧ (∀ j m, (j < i)%nat → ns !! j = Some m → (n < m)%Z).

Definition first_greatest_int (ns : list Z) (i : nat) : Prop :=
  ∃ n, ns !! i = Some n
       ∧ (∀ j m, ns !! j = Some m → (m <= n)%Z)
       ∧ (∀ j m, (j < i)%nat → ns !! j = Some m → (m < n)%Z).

Lemma argmin_int_scan_spec l : ∀ mp ind i,
  (np.argmin_int_scan mp ind i l = ind ∧ ∀ y, y ∈ l → (mp <= y)%Z)
  ∨ ∃ k x,
      np.argmin_int_scan mp ind i l = (i + k)%nat
      ∧ l !! k = Some x
      ∧ (x < mp)%Z
      ∧ (∀ y, y ∈ l → (x <= y)%Z)
      ∧ (∀ j y, (j < k)%nat → l !! j = Some y → (x < y)%Z).
Proof.
  induction l as [|x l IH]; intros mp ind i; simpl.
  - left. split; [done|]. intros y Hy. by inversion Hy.
  - destruct (Z.ltb_spec x mp) as [Hlt|Hge].
    + destruct (IH x i (S i))
        as [[-> Hall]|(k & x' & -> & Hk & Hlt' & Hall & Hfirst)].
      * right. exists 0%nat, x. split_and!; [lia|done|done| |intros; lia].
        intros y [->|Hy]%elem_of_cons; [lia|auto].
      * right. exists (S k), x'. split_and!; [lia|done|lia| |].
        -- intros y [->|Hy]%elem_of_cons; [lia|auto].
        -- intros [|j] y Hj; simpl; [intros [= <-]; lia|].
           apply Hfirst. lia.
    + destruct (IH mp ind (S i))
        as [[-> Hall]|(k & x' & -> & Hk & Hlt' & Hall & Hfirst)].
      * left. split; [done|]. intros y [->|Hy]%elem_of_cons; auto.
      * right. exists (S k), x'. split_and!; [lia|done|done| |].
        -- intros y [->|Hy]%elem_of_cons; [lia|auto].
        -- intros [|j] y Hj; simpl; [intros [= <-]; lia|].
           apply Hfirst. lia.
Qed.

Lemma argmin_int_spec ns :
  ns ≠ [] → ∃ i, np.argmin_int ns = Ok i ∧ first_least_int ns i.
Proof.
  destruct ns as [|x l]; [done|]. intros _. simpl. eexists. split; [done|].
  destruct (argmin_int_scan_spec l x 0%nat 1%nat)
    as [[-> Hall]|(k & x' & -> & Hk & Hlt & Hall & Hfirst)].
  - exists x. split_and!; [done| |intros; lia].
    intros [|j] m; simpl; [intros [= <-]; lia|].
    intros Hm. apply Hall. by eapply list_elem_of_lookup_2.
  - exists x'. split_and!; [done| |].
    + intros [|j] m; simpl; [intros [= <-]; lia|].
      intros Hm. apply Hall. by eapply list_elem_of_lookup_2.
    + intros [|j] m Hj; simpl; [intros [= <-]; lia|].
      apply Hfirst. lia.
Qed.

Lemma argmax_int_scan_opp l : ∀ mp ind i,
  np.argmax_int_scan mp ind i l
  = np.argmin_int_scan (- mp) ind i (Z.opp <$> l).
Proof.
  induction l as [|x l IH]; intros mp ind i; simpl; [done|].
  rewrite !IH.
  destruct (Z.ltb_spec mp x), (Z.ltb_spec (- x) (- mp)); try lia; done.
Qed.

Lemma argmax_int_spec ns :
  ns ≠ [] → ∃ i, np.argmax_int ns = Ok i ∧ first_greatest_int ns i.
Proof.
  intros Hne.
  destruct (argmin_int_spec (Z.opp <$> ns)) as (i & Hi & n & Hn & Hall & Hfirst);
    [by destruct ns|].
  exists i. split.
  - destruct ns as [|x l]; [done|]. simpl in *.
    by rewrite argmax_int_scan_opp.
  - rewrite list_lookup_fmap in Hn.
    destruct (ns !! i) as [n'|] eqn:Hn'; [|done]. injection Hn as <-.
    exists n'. split_and!; [done| |].
    + intros j m Hm. specialize (Hall j (- m)%Z).
      rewrite list_lookup_fmap, Hm in Hall. specialize (Hall eq_refl). lia.
    + intros j m Hj Hm. specialize (Hfirst j (- m)%Z Hj).
      rewrite list_lookup_fmap, Hm in Hfirst. specialize (Hfirst eq_refl). lia.
Qed.

(** [Min.apply] and [Max.apply] on runs that hold an int at the field. *)
Lemma Min_apply_ints f data ns :
  Forall2 (λ d v, dict_get d f = Some v) data (VInt <$> ns) →
  ns ≠ [] → Forall (λ n, np.in_int64 n = true) ns →
  ∃ i n,
    ns !! i = Some n
    ∧ Min_apply (Min f) data
      = Ok (RetPair [("min(" ++ f ++ ")", VInt n)] (Some (Z.of_nat i)))
    ∧ first_least_int ns i.
Proof.
  intros Hdata Hne Hns. unfold Min_apply.
  rewrite (select_values (Min f) f data _ eq_refl Hdata). simpl.
  rewrite (asarray_ints ns Hne Hns). simpl.
  destruct (argmin_int_spec ns Hne) as (i & -> & Hfirst). simpl.
  destruct Hfirst as (n & Hn & Hfirst). exists i, n.
  split_and!; [done| |by exists n].
  rewrite (py_index_nat (VInt <$> ns) i (VInt n)); [done|].
  by rewrite list_lookup_fmap, Hn.
Qed.

Lemma Max_apply_ints f data ns :
  Forall2 (λ d v, dict_get d f = Some v) data (VInt <$> ns) →
  ns ≠ [] → Forall (λ n, np.in_int64 n = true) ns →
  ∃ i n,
    ns !! i = Some n
    ∧ Max_apply (Max f) data
      = Ok (RetPair [("max(" ++ f ++ ")", VInt n)] (Some (Z.of_nat i)))
    ∧ first_greatest_int ns i.
Proof.
  intros Hdata Hne Hns. unfold Max_apply.
  rewrite (select_values (Max f) f data _ eq_refl Hdata). simpl.
  rewrite (asarray_ints ns Hne Hns). simpl.
  destruct (argmax_int_spec ns Hne) as (i & -> & Hfirst). simpl.
  destruct Hfirst as (n & Hn & Hfirst). exists i, n.
  split_and!; [done| |by exists n].
  rewrite (py_index_nat (VInt <$> ns) i (VInt n)); [done|].
  by rewrite list_lookup_fmap, Hn.
Qed.

(** [Min.apply] and [Max.apply] on runs that hold a number at the field,
    a float for one of them: [xs] are the numbers as float64. *)
Lemma Min_apply_floats f data vs xs :
  Forall2 (λ d v, dict_get d f = Some v) data vs →
  Forall2 (λ v x, np.as_float v = Some x) vs xs →
  (∃ x, VNum x ∈ vs) →
  ∃ i index v,
    vs !! i = Some v
    ∧ designates (length vs) index i
    ∧ Min_apply (Min f) data
      = Ok (RetPair [("min(" ++ f ++ ")", v)] (Some index))
    ∧ if forallb is_nan xs then i = (length xs - 1)%nat
      else first_least (np.replace_nan infinity <$> xs) i.
Proof.
  intros Hdata Hxs Hfloat. unfold Min_apply.
  rewrite (select_values (Min f) f data vs eq_refl Hdata). simpl.
  rewrite (asarray_floats vs xs Hxs Hfloat). simpl.
  pose proof (Forall2_length _ _ _ Hxs) as Hlen.
  assert (vs ≠ []) as Hne.
  { destruct Hfloat as [x Hx]. intros ->. by inversion Hx. }
  pose proof (nanargmin_spec xs) as Hspec.
  destruct (forallb is_nan xs) eqn:Hall.
  - rewrite Hspec. simpl.
    destruct (vs !! (length vs - 1)%nat) as [v|] eqn:Hv.
    + exists (length vs - 1)%nat, (-1)%Z, v.
      split_and!; [done|by right| |by rewrite Hlen].
      by rewrite (py_index_minus_one vs v).
    + apply lookup_ge_None in Hv. destruct vs; simpl in *; [done|lia].
  - destruct Hspec as (i & -> & Hfirst). simpl.
    destruct Hfirst as (y & Hy & Hleast).
    rewrite list_lookup_fmap in Hy.
    destruct (xs !! i) as [x|] eqn:Hx; [|done].
    destruct (Forall2_lookup_r _ _ _ _ _ Hxs Hx) as (v & Hv & _).
    exists i, (Z.of_nat i), v. split_and!; [done|by left| |].
    + by rewrite (py_index_nat vs i v).
    + exists y. by rewrite list_lookup_fmap, Hx.
Qed.

Lemma Max_apply_floats f data vs xs :
  Forall2 (λ d v, dict_get d f = Some v) data vs →
  Forall2 (λ v x, np.as_float v = Some x) vs xs →
  (∃ x, VNum x ∈ vs) →
  ∃ i index v,
    vs !! i = Some v
    ∧ designates (length vs) index i
    ∧ Max_apply (Max f) data
      = Ok (RetPair [("max(" ++ f ++ ")", v)] (Some index))
    ∧ if forallb is_nan xs then i = (length xs - 1)%nat
      else first_greatest (np.replace_nan neg_infinity <$> xs) i.
Proof.
  intros Hdata Hxs Hfloat. unfold Max_apply.
  rewrite (select_values (Max f) f data vs eq_refl Hdata). simpl.
  rewrite (asarray_floats vs xs Hxs Hfloat). simpl.
  pose proof (Forall2_length _ _ _ Hxs) as Hlen.
  assert (vs ≠ []) as Hne.
  { destruct Hfloat as [x Hx]. intros ->. by inversion Hx. }
  pose proof (nanargmax_spec xs) as Hspec.
  destruct (forallb is_nan xs) eqn:Hall.
  - rewrite Hspec. simpl.
    destruct (vs !! (length vs - 1)%nat) as [v|] eqn:Hv.
    + exists (length vs - 1)%nat, (-1)%Z, v.
      split_and!; [done|by right| |by rewrite Hlen].
      by rewrite (py_index_minus_one vs v).
    + apply lookup_ge_None in Hv. destruct vs; simpl in *; [done|lia].
  - destruct Hspec as (i & -> & Hfirst). simpl.
    destruct Hfirst as (y & Hy & Hgreatest).
    rewrite list_lookup_fmap in Hy.
    destruct (xs !! i) as [x|] eqn:Hx; [|done].
    destruct (Forall2_lookup_r _ _ _ _ _ Hxs Hx) as (v & Hv & _).
    exists i, (Z.of_nat i), v. split_and!; [done|by left| |].
    + by rewrite (py_index_nat vs i v).
    + exists y. by rewrite list_lookup_fmap, Hx.
Qed.

(** A NaN is never the least entry when some entry is below [+inf]. *)
Lemma first_least_ignores_nan xs i x :
  first_least (np.replace_nan infinity <$> xs) i →
  xs !! i = Some x →
  (∃ y, y ∈ xs ∧ (y <? infinity)%float = true) →
  is_nan x = false
  ∧ ∀ y, y ∈ xs → is_nan y = false → (x <=? y)%float = true.
Proof.
  intros (x' & Hx' & Hleast & _) Hx (y & Hy & Hlt).
  rewrite list_lookup_fmap, Hx in Hx'. injection Hx' as <-.
  assert (∀ z, z ∈ xs → is_nan z = false →
               (np.replace_nan infinity x <=? z)%float = true) as Hle.
  { intros z [j Hj]%list_elem_of_lookup_1 Hz.
    specialize (Hleast j (np.replace_nan infinity z)).
    rewrite list_lookup_fmap, Hj in Hleast. specialize (Hleast eq_refl).
    unfold np.replace_nan in Hleast at 2. by rewrite Hz in Hleast. }
  assert (is_nan x = false) as Hnan.
  { destruct (is_nan x) eqn:E; [|done].
    destruct (ltb_not_nan _ _ Hlt) as [Hy' _].
    specialize (Hle y Hy Hy'). unfold np.replace_nan in Hle.
    rewrite E in Hle. by rewrite (ltb_leb _ _ Hlt) in Hle. }
  split; [done|]. intros z Hz Hz'. specialize (Hle z Hz Hz').
  unfold np.replace_nan in Hle. by rewrite Hnan in Hle.
Qed.

Lemma first_greatest_ignores_nan xs i x :
  first_greatest (np.replace_nan neg_infinity <$> xs) i →
  xs !! i = Some x →
  (∃ y, y ∈ xs ∧ (neg_infinity <? y)%float = true) →
  is_nan x = false
  ∧ ∀ y, y ∈ xs → is_nan y = false → (y <=? x)%float = true.
Proof.
  intros (x' & Hx' & Hgreatest & _) Hx (y & Hy & Hlt).
  rewrite list_lookup_fmap, Hx in Hx'. injection Hx' as <-.
  assert (∀ z, z ∈ xs → is_nan z = false →
               (z <=? np.replace_nan neg_infinity x)%float = true) as Hle.
  { intros z [j Hj]%list_elem_of_lookup_1 Hz.
    specialize (Hgreatest j (np.replace_nan neg_infinity z)).
    rewrite list_lookup_fmap, Hj in Hgreatest.
    specialize (Hgreatest eq_refl). simpl in Hgreatest.
    unfold np.replace_nan in Hgreatest at 1. by rewrite Hz in Hgreatest. }
  assert (is_nan x = false) as Hnan.
  { destruct (is_nan x) eqn:E; [|done].
    destruct (ltb_not_nan _ _ Hlt) as [_ Hy'].
    specialize (Hle y Hy Hy'). unfold np.replace_nan in Hle.
    rewrite E in Hle. by rewrite (ltb_leb _ _ Hlt) in Hle. }
  split; [done|]. intros z Hz Hz'. specialize (Hle z Hz Hz').
  unfold np.replace_nan in Hle. by rewrite Hnan in Hle.
Qed.

End min_max.

(** ** Aggregation of a group over an eager field *)

Section aggregate_eager.

Lemma getitem_eager c key v w :
  dict_get (Config.lazy c) key = Some (Config.Eager v) →
  Config.__getitem__ c key w = (Ok v, c, w).
Proof. intros H. unfold Config.__getitem__. by rewrite H. Qed.

Lemma free_all_materialised_ok l :
  (∀ key data, (key, data) ∈ l → is_Some (LazyData._data data)) →
  (Config.free_all l).1 = Ok ().
Proof.
  induction l as [|[k d] l IH]; intros Hall; simpl; [done|].
  destruct (lazydata_free_unused_cases d) as [[Hnone _]|(d0 & d' & _ & -> & _)].
  - destruct (Hall k d) as [? ?]; [constructor|congruence].
  - destruct (Config.free_all l) as [r l'] eqn:E. simpl.
    apply (IH (λ key data Hin, Hall key data (list_elem_of_further _ _ _ Hin))).
Qed.

Lemma free_unused_materialised c :
  materialised c → Config.free_unused c = (Ok (), freed c).
Proof.
  intros Hc. unfold freed, Config.free_unused.
  pose proof (free_all_materialised_ok _ Hc) as Hok.
  destruct (Config.free_all (Config.lazydata_dict c)) as [r l]. simpl in *.
  by rewrite Hok.
Qed.

(** The first loop of [_aggregate_collection] for one eager field. *)
Lemma gather_eager f collection vs w :
  Forall2
    (λ c v, dict_get (Config.lazy c) f = Some (Config.Eager v)) collection vs →
  Forall materialised collection →
  gather collection [f] w
  = (Ok ((λ v, [(f, v)]) <$> vs), freed <$> collection, w).
Proof.
  induction 1 as [|c v collection vs Hc _ IH]; intros Hmat; [done|].
  apply Forall_cons in Hmat as [Hm Hmat].
  cbn [gather extract]. rewrite (getitem_eager _ _ _ _ Hc).
  rewrite (free_unused_materialised _ Hm), (IH Hmat). done.
Qed.

Lemma extract_keys_single m f :
  AggregationMap.keys m = [f] → _extract_keys_from_maps [m] = [f].
Proof. intros H. unfold _extract_keys_from_maps. simpl. by rewrite H. Qed.

(** The aggregation over one map whose [apply] returns a pair with an
    index that designates run [i]. *)
Lemma aggregate_collection_selected m f collection vs w agg_val index i c :
  AggregationMap.keys m = [f] →
  Forall2
    (λ c v, dict_get (Config.lazy c) f = Some (Config.Eager v)) collection vs →
  Forall materialised collection →
  apply m ((λ v, [(f, v)]) <$> vs) = Ok (RetPair agg_val (Some index)) →
  designates (length collection) index i →
  (freed <$> collection) !! i = Some c →
  _aggregate_collection collection [m] w
  = (Ok [(AggregationMap.name m, [Config.update c agg_val])],
     freed <$> collection, w).
Proof.
  intros Hkeys Hvs Hmat Happly Hindex Hc. unfold _aggregate_collection.
  rewrite (extract_keys_single _ _ Hkeys), (gather_eager _ _ _ _ Hvs Hmat).
  cbn [aggregate_maps]. unfold aggregate_map. rewrite Happly. simpl.
  rewrite (py_index_designates (freed <$> collection) index i c);
    [done| |done].
  by rewrite length_fmap.
Qed.

(** The aggregation over one map whose [apply] returns no index. *)
Lemma aggregate_collection_all m f collection vs w agg_val :
  AggregationMap.keys m = [f] →
  Forall2
    (λ c v, dict_get (Config.lazy c) f = Some (Config.Eager v)) collection vs →
  Forall materialised collection →
  apply m ((λ v, [(f, v)]) <$> vs) = Ok (RetPair agg_val None) →
  _aggregate_collection collection [m] w
  = (Ok [(AggregationMap.name m,
          (λ c, Config.update c agg_val) <$> (freed <$> collection))],
     freed <$> collection, w).
Proof.
  intros Hkeys Hvs Hmat Happly. unfold _aggregate_collection.
  rewrite (extract_keys_single _ _ Hkeys), (gather_eager _ _ _ _ Hvs Hmat).
  cbn [aggregate_maps]. unfold aggregate_map. by rewrite Happly.
Qed.

Lemma data_of_values f (vs : list value) :
  Forall2 (λ (d : dict string value) v, dict_get d f = Some v)
    ((λ v, [(f, v)]) <$> vs) vs.
Proof.
  induction vs as [|v vs IH]; simpl; constructor; [|done].
  simpl. by rewrite decide_True.
Qed.

(** The values are ints in the range of int64 when [np.as_int] reads each
    of them. *)
Lemma as_int_values vs ns :
  mapM np.as_int vs = Some ns →
  vs = VInt <$> ns ∧ Forall (λ n, np.in_int64 n = true) ns.
Proof.
  intros H%mapM_Some. induction H as [|v n vs ns Hv _ [-> IH]]; [done|].
  destruct v; try done. simpl in Hv.
  destruct (np.in_int64 n0) eqn:Hn; [|done]. injection Hv as ->.
  split; [done|by constructor].
Qed.

(** Numbers that are not all ints have a float among them. *)
Lemma float_among vs :
  Forall (λ v, is_Some (np.as_float v)) vs →
  mapM np.as_int vs = None →
  ∃ x, VNum x ∈ vs.
Proof.
  intros Hvs H%mapM_None.
  induction H as [v vs Hv|v vs _ IH];
    apply Forall_cons in Hvs as [[x Hx] Hvs].
  - destruct v; try done.
    + eexists. constructor.
    + simpl in *. by destruct (np.in_int64 n).
  - destruct (IH Hvs) as [y Hy]. exists y. by constructor.
Qed.

End aggregate_eager.

(** ** The run [Min] and [Max] select *)

(** The record [c] with the value [v] attached under [key]: the key reads
    as [v], a plain value, and the flattened view shows it. *)
Definition with_field (c : Config.t) (key : string) (v : value) : Config.t :=
  {| Config.flattened := dict_set (Config.flattened c) key v;
     Config.lazy := dict_set (Config.lazy c) key (Config.Eager v);
     Config.lazydata_dict := Config.lazydata_dict c |}.

(** A run whose only field is the int [n]. *)
Definition int_run (n : Z) : Config.t :=
  {| Config.flattened := [("x", VInt n)];
     Config.lazy := [("x", Config.Eager (VInt n))];
     Config.lazydata_dict := [] |}.

(** A run whose only field holds the sequence [v]. *)
Definition seq_run (v : value) : Config.t :=
  {| Config.flattened := [("x", v)];
     Config.lazy := [("x", Config.Eager v)];
     Config.lazydata_dict := [] |}.

(** A run that holds [x = 1.0] and a metrics file it has not read. *)
Definition unread_run : Config.t :=
  {| Config.flattened := [("x", VNum 1); ("metrics.loss", Config.LAZYDATA)];
     Config.lazy := [("x", Config.Eager (VNum 1));
                     ("metrics.loss", Config.GetData "metrics")];
     Config.lazydata_dict :=
       [("metrics", LazyData.__init__ "run" "metrics")] |}.

Section selection.

Lemma update_single c key v : Config.update c [(key, v)] = with_field c key v.
Proof. reflexivity. Qed.

Lemma with_field_read c key v w :
  Config.__getitem__ (with_field c key v) key w
  = (Ok v, with_field c key v, w).
Proof. apply getitem_eager. simpl. apply dict_get_set_eq. Qed.

Lemma with_field_flattened c key v :
  dict_get (Config.flattened (with_field c key v)) key = Some v.
Proof. simpl. apply dict_get_set_eq. Qed.

(** What [np.nanargmin] and [np.nanargmax] select among float64 values. *)
Definition selects_float (least : bool) (xs : list float) (i : nat) : Prop :=
  if forallb is_nan xs then i = (length xs - 1)%nat
  else if least then first_least (np.replace_nan infinity <$> xs) i
       else first_greatest (np.replace_nan neg_infinity <$> xs) i.

Definition selects_int (least : bool) (ns : list Z) (i : nat) : Prop :=
  if least then first_least_int ns i else first_greatest_int ns i.

(** The aggregation of a group of numbers with one map that selects a
    run. *)
Lemma aggregate_selects (least : bool) m f collection vs w :
  m = (if least then Min f else Max f) →
  Forall2
    (λ c v, dict_get (Config.lazy c) f = Some (Config.Eager v)) collection vs →
  Forall (λ v, is_Some (np.as_float v)) vs →
  Forall materialised collection →
  collection ≠ [] →
  ∃ i c v,
    (freed <$> collection) !! i = Some c
    ∧ vs !! i = Some v
    ∧ _aggregate_collection collection [m] w
      = (Ok [(AggregationMap.name m,
              [with_field c (AggregationMap.name m) v])],
         freed <$> collection, w)
    ∧ (∀ ns, vs = VInt <$> ns → selects_int least ns i)
    ∧ (∀ xs, Forall2 (λ v x, np.as_float v = Some x) vs xs →
             (∃ x, VNum x ∈ vs) → selects_float least xs i).
Proof.
  intros Hm Hvs Hnum Hmat Hne.
  pose proof (Forall2_length _ _ _ Hvs) as Hlen.
  assert (AggregationMap.keys m = [f]) as Hkeys by (by destruct least; subst).
  assert (∀ i index v,
            vs !! i = Some v →
            designates (length vs) index i →
            apply m ((λ v, [(f, v)]) <$> vs)
            = Ok (RetPair [(AggregationMap.name m, v)] (Some index)) →
            ∃ c, (freed <$> collection) !! i = Some c
                 ∧ _aggregate_collection collection [m] w
                   = (Ok [(AggregationMap.name m,
                           [with_field c (AggregationMap.name m) v])],
                      freed <$> collection, w)) as Hrun.
  { intros i index v Hv Hindex Happly.
    destruct (lookup_lt_is_Some_2 (freed <$> collection) i) as [c Hc].
    { rewrite length_fmap, Hlen. by eapply lookup_lt_Some. }
    exists c. split; [done|]. rewrite <- Hlen in Hindex.
    rewrite (aggregate_collection_selected m f collection vs w _ index i c
               Hkeys Hvs Hmat Happly Hindex Hc).
    by rewrite update_single. }
  destruct (mapM np.as_int vs) as [ns|] eqn:Hints.
  - destruct (as_int_values _ _ Hints) as [-> Hns].
    assert (ns ≠ []) as Hne'.
    { intros ->. destruct collection; [done|]. by inversion Hvs. }
    assert (∃ i n,
              ns !! i = Some n
              ∧ apply m ((λ v, [(f, v)]) <$> (VInt <$> ns))
                = Ok (RetPair [(AggregationMap.name m, VInt n)]
                        (Some (Z.of_nat i)))
              ∧ selects_int least ns i) as (i & n & Hn & Happly & Hsel).
    { destruct least; subst m.
      - apply (Min_apply_ints f _ ns (data_of_values f _) Hne' Hns).
      - apply (Max_apply_ints f _ ns (data_of_values f _) Hne' Hns). }
    assert ((VInt <$> ns) !! i = Some (VInt n)) as Hv
      by (by rewrite list_lookup_fmap, Hn).
    destruct (Hrun i (Z.of_nat i) (VInt n) Hv (or_introl eq_refl) Happly)
      as (c & Hc & Hagg).
    exists i, c, (VInt n). split_and!; [done..| |].
    + intros ns' Heq.
      assert (ns' = ns) as ->; [|done].
      clear -Heq. revert ns' Heq.
      induction ns as [|n ns IH]; intros [|n' ns']; simpl; try done.
      intros [= -> H]. f_equal. auto.
    + intros xs _ [x Hx]. apply list_elem_of_fmap in Hx as (n' & Hn' & _).
      discriminate.
  - destruct (float_among vs Hnum Hints) as [x0 Hx0].
    destruct (mapM_is_Some_2 np.as_float vs Hnum) as [xs Hxs].
    apply mapM_Some in Hxs.
    assert (∃ i index v,
              vs !! i = Some v
              ∧ designates (length vs) index i
              ∧ apply m ((λ v, [(f, v)]) <$> vs)
                = Ok (RetPair [(AggregationMap.name m, v)] (Some index))
              ∧ selects_float least xs i)
      as (i & index & v & Hv & Hindex & Happly & Hsel).
    { destruct least; subst m.
      - apply (Min_apply_floats f _ vs xs (data_of_values f _) Hxs).
        by exists x0.
      - destruct (Max_apply_floats f _ vs xs (data_of_values f _) Hxs)
          as (i & index & v & ? & ? & ? & Hsel); [by exists x0|].
        exists i, index, v. split_and!; [done..|].
        unfold selects_float. by destruct (forallb is_nan xs). }
    destruct (Hrun i index v Hv Hindex Happly) as (c & Hc & Hagg).
    exists i, c, v. split_and!; [done..| |].
    + intros ns ->. apply list_elem_of_fmap in Hx0 as (n' & Hn' & _).
      discriminate.
    + intros xs' Hxs' _.
      assert (xs' = xs) as ->; [|done].
      apply mapM_Some in Hxs, Hxs'. congruence.
Qed.

(** C2, amended.  For a group of runs that hold at the field [f], as a
    plain value, a number -- a Python int in the range of int64 or a float,
    NaN included -- and whose lazily loaded files have all been read (C10),
    the aggregation with [Min f] returns under [min(f)] one record: run [i]
    (as [free_unused] left it) with the key [min(f)] attached, which reads
    as the value of the run at [f].  When the values are all ints, [i] is
    the first position of the least of them.  When a float is among them
    they are compared as float64 (an int through its nearest float): if
    every value is NaN, [i] is the last run; otherwise [i] is the first
    position of the least value once each NaN is read as [+inf], so the NaN
    are ignored and the value of run [i] is below every value that is not
    NaN, provided some value is below [+inf] (when the values are NaN and
    [+inf] only, the first run is selected, NaN or not).  The same holds
    for [Max f] with [max(f)], the greatest value, [-inf] and a value above
    [-inf].  On the records [{x:3}, {x:1}, {x:2}], [Min] returns the
    record of [x = 1] with [min(x) = 1] and [Max] the record of [x = 3]
    with [max(x) = 3]. *)
Theorem min_max_select (f : string) (collection : ConfigList)
    (vs : list value) (w : world) :
  Forall2
    (λ c v, dict_get (Config.lazy c) f = Some (Config.Eager v)) collection vs →
  Forall (λ v, is_Some (np.as_float v)) vs →
  Forall materialised collection →
  collection ≠ [] →
  (∃ i c v,
     (freed <$> collection) !! i = Some c
     ∧ vs !! i = Some v
     ∧ _aggregate_collection collection [Min f] w
       = (Ok [("min(" ++ f ++ ")", [with_field c ("min(" ++ f ++ ")") v])],
          freed <$> collection, w)
     ∧ (∀ w0,
          Config.__getitem__ (with_field c ("min(" ++ f ++ ")") v)
            ("min(" ++ f ++ ")") w0
          = (Ok v, with_field c ("min(" ++ f ++ ")") v, w0))
     ∧ dict_get (Config.flattened (with_field c ("min(" ++ f ++ ")") v))
         ("min(" ++ f ++ ")") = Some v
     ∧ (∀ ns, vs = VInt <$> ns → first_least_int ns i)
     ∧ (∀ xs,
          Forall2 (λ v x, np.as_float v = Some x) vs xs →
          (∃ x, VNum x ∈ vs) →
          (if forallb is_nan xs then i = (length xs - 1)%nat
           else first_least (np.replace_nan infinity <$> xs) i)
          ∧ ((∃ y, y ∈ xs ∧ (y <? infinity)%float = true) →
             ∃ x, xs !! i = Some x
                  ∧ is_nan x = false
                  ∧ ∀ y, y ∈ xs → is_nan y = false → (x <=? y)%float = true)))
  ∧ (∃ i c v,
       (freed <$> collection) !! i = Some c
       ∧ vs !! i = Some v
       ∧ _aggregate_collection collection [Max f] w
         = (Ok [("max(" ++ f ++ ")", [with_field c ("max(" ++ f ++ ")") v])],
            freed <$> collection, w)
       ∧ (∀ w0,
            Config.__getitem__ (with_field c ("max(" ++ f ++ ")") v)
              ("max(" ++ f ++ ")") w0
            = (Ok v, with_field c ("max(" ++ f ++ ")") v, w0))
       ∧ dict_get (Config.flattened (with_field c ("max(" ++ f ++ ")") v))
           ("max(" ++ f ++ ")") = Some v
       ∧ (∀ ns, vs = VInt <$> ns → first_greatest_int ns i)
       ∧ (∀ xs,
            Forall2 (λ v x, np.as_float v = Some x) vs xs →
            (∃ x, VNum x ∈ vs) →
            (if forallb is_nan xs then i = (length xs - 1)%nat
             else first_greatest (np.replace_nan neg_infinity <$> xs) i)
            ∧ ((∃ y, y ∈ xs ∧ (neg_infinity <? y)%float = true) →
               ∃ x, xs !! i = Some x
                    ∧ is_nan x = false
                    ∧ ∀ y, y ∈ xs → is_nan y = false →
                           (y <=? x)%float = true)))
  ∧ _aggregate_collection [int_run 3; int_run 1; int_run 2]
      [Min "x"; Max "x"] w
    = (Ok [("min(x)", [with_field (int_run 1) "min(x)" (VInt 1)]);
           ("max(x)", [with_field (int_run 3) "max(x)" (VInt 3)])],
       [int_run 3; int_run 1; int_run 2], w).
Proof.
  intros Hvs Hnum Hmat Hne.
  assert (∀ (xs : list float) i,
            Forall2 (λ v x, np.as_float v = Some x) vs xs →
            is_Some (vs !! i) → is_Some (xs !! i)) as Hposition.
  { intros xs i Hxs Hi. apply lookup_lt_is_Some.
    rewrite <- (Forall2_length _ _ _ Hxs). by apply lookup_lt_is_Some. }
  split_and!.
  - destruct (aggregate_selects true (Min f) f collection vs w eq_refl
                Hvs Hnum Hmat Hne)
      as (i & c & v & Hc & Hv & Hagg & Hint & Hfloat).
    exists i, c, v.
    split_and!; [done|done|exact Hagg|intros; apply with_field_read
                 |apply with_field_flattened|exact Hint|].
    intros xs Hxs Hsome. specialize (Hfloat xs Hxs Hsome).
    unfold selects_float in Hfloat. split; [done|].
    intros Hfin. destruct (forallb is_nan xs) eqn:Hall.
    + destruct Hfin as (y & Hy & Hlt). rewrite forallb_forall in Hall.
      destruct (ltb_not_nan _ _ Hlt) as [Hnan _].
      rewrite (Hall y) in Hnan; [done|]. by apply list_elem_of_In.
    + destruct (Hposition xs i Hxs (mk_is_Some _ _ Hv)) as [x Hx].
      exists x. split; [done|]. by eapply first_least_ignores_nan.
  - destruct (aggregate_selects false (Max f) f collection vs w eq_refl
                Hvs Hnum Hmat Hne)
      as (i & c & v & Hc & Hv & Hagg & Hint & Hfloat).
    exists i, c, v.
    split_and!; [done|done|exact Hagg|intros; apply with_field_read
                 |apply with_field_flattened|exact Hint|].
    intros xs Hxs Hsome. specialize (Hfloat xs Hxs Hsome).
    unfold selects_float in Hfloat. split.
    { by destruct (forallb is_nan xs). }
    intros Hfin. destruct (forallb is_nan xs) eqn:Hall.
    + destruct Hfin as (y & Hy & Hlt). rewrite forallb_forall in Hall.
      destruct (ltb_not_nan _ _ Hlt) as [_ Hnan].
      rewrite (Hall y) in Hnan; [done|]. by apply list_elem_of_In.
    + destruct (Hposition xs i Hxs (mk_is_Some _ _ Hv)) as [x Hx].
      exists x. split; [done|]. by eapply first_greatest_ignores_nan.
  - reflexivity.
Qed.

Lemma min_max_select_witness :
  let collection := [scalar_run 3; scalar_run nan; int_run 1] in
  Forall materialised collection
  ∧ ∃ i c v x,
      (freed <$> collection) !! i = Some c
      ∧ [VNum 3; VNum nan; VInt 1] !! i = Some v
      ∧ _aggregate_collection collection [Min "x"] example_world
        = (Ok [("min(x)", [with_field c "min(x)" v])],
           freed <$> collection, example_world)
      ∧ Config.__getitem__ (with_field c "min(x)" v) "min(x)" example_world
        = (Ok v, with_field c "min(x)" v, example_world)
      ∧ [3; nan; 1]%float !! i = Some x
      ∧ is_nan x = false
      ∧ (x <=? 3)%float = true.
Proof.
  intros collection.
  assert (Forall materialised collection) as Hmat.
  { repeat constructor; intros key data Hin; inversion Hin. }
  assert (Forall2
            (λ c v, dict_get (Config.lazy c) "x" = Some (Config.Eager v))
            collection [VNum 3; VNum nan; VInt 1]) as Hvs
    by (repeat constructor).
  assert (Forall (λ v, is_Some (np.as_float v)) [VNum 3; VNum nan; VInt 1])
    as Hnum by (repeat constructor; by eexists).
  assert (collection ≠ []) as Hne by discriminate.
  destruct (min_max_select "x" collection [VNum 3; VNum nan; VInt 1]
              example_world Hvs Hnum Hmat Hne)
    as [(i & c & v & Hc & Hv & Hagg & Hread & _ & _ & Hfloat) _].
  destruct (Hfloat [3; nan; 1]%float) as [_ Hignore].
  { repeat constructor. }
  { exists 3%float. constructor. }
  destruct Hignore as (x & Hx & Hnan & Hle).
  { exists 1%float. split; [|reflexivity]. repeat constructor. }
  split; [exact Hmat|]. exists i, c, v, x.
  split; [exact Hc|]. split; [exact Hv|]. split; [exact Hagg|].
  split; [exact (Hread example_world)|]. split; [exact Hx|].
  split; [exact Hnan|]. apply Hle; [constructor|reflexivity].
Defined.

(** C2 as stated fails in five ways.  A NaN is not ignored when the values
    that are not NaN are all [+inf]: [nanargmin] reads each NaN as [+inf]
    and takes the first least entry, so on the runs [{x: nan}, {x: inf}]
    [Min] returns the first run, annotated with [min(x) = nan]; likewise
    [Max] on [{x: nan}, {x: -inf}].  A run with no entry at the field is
    not ignored either: the aggregation raises [KeyError].  Entries that
    are no numbers are not ignored, and when every entry is one the last
    run is not returned: on [{x: [1.0, 2.0]}, {x: [3.0, 4.0]}] the
    aggregation raises [TypeError].  With a float among the values an int
    is compared through its nearest float: on [{x: 2**53 + 1}, {x: 2.0**53}]
    [Min] returns the first run, whose value is the greater.  And a run
    with a lazily loaded file it has not read makes the aggregation raise
    [AttributeError]. *)
Lemma min_selects_nan_before_infinity :
  _aggregate_collection [scalar_run nan; scalar_run infinity] [Min "x"]
    example_world
  = (Ok [("min(x)", [with_field (scalar_run nan) "min(x)" (VNum nan)])],
     [scalar_run nan; scalar_run infinity], example_world)
  ∧ _aggregate_collection [scalar_run nan; scalar_run neg_infinity] [Max "x"]
      example_world
    = (Ok [("max(x)", [with_field (scalar_run nan) "max(x)" (VNum nan)])],
       [scalar_run nan; scalar_run neg_infinity], example_world)
  ∧ is_nan nan = true
  ∧ is_nan infinity = false
  ∧ is_nan neg_infinity = false
  ∧ _aggregate_collection [scalar_run 1; example_run] [Min "x"] example_world
    = (Raise (KeyError "x"), [scalar_run 1; example_run], example_world)
  ∧ _aggregate_collection
      [seq_run (VSeq [1; 2]%float); seq_run (VSeq [3; 4]%float)] [Min "x"]
      example_world
    = (Raise TypeError,
       [seq_run (VSeq [1; 2]%float); seq_run (VSeq [3; 4]%float)],
       example_world)
  ∧ _aggregate_collection
      [int_run 9007199254740993; scalar_run 9007199254740992] [Min "x"]
      example_world
    = (Ok [("min(x)",
            [with_field (int_run 9007199254740993) "min(x)"
               (VInt 9007199254740993)])],
       [int_run 9007199254740993; scalar_run 9007199254740992],
       example_world)
  ∧ (9007199254740992 < 9007199254740993)%Z
  ∧ (∃ collection',
       _aggregate_collection [unread_run] [Min "x"] example_world
       = (Raise AttributeError, collection', example_world)).
Proof.
  split_and!; try reflexivity. eexists. reflexivity.
Qed.

End selection.

(** ** The map [AvgStd] *)

(** The mean and the deviation at one position, in binary64 arithmetic and
    in the order of the runs: [col] holds the values of the runs there, as
    float64, and [sq] the squares [new_array ** 2] holds for them. *)
Definition mean_at (col : list float) : float :=
  (foldl PrimFloat.add 0 col / np.float_of_nat (length col))%float.

Definition std_at (col sq : list float) : float :=
  PrimFloat.sqrt
    (foldl PrimFloat.add 0 sq / np.float_of_nat (length col)
     - mean_at col * mean_at col)%float.

(** The terms [new_array] and [new_array ** 2] add to the two sums. *)
Definition terms (a : np.ndarray) : list float := np.as_float64 a.

Definition square_terms (a : np.ndarray) : list float :=
  np.as_float64 (np.power2 a).

Section avgstd.

Lemma string_app_inv_head (s a b : string) : s ++ a = s ++ b → a = b.
Proof. induction s as [|c s IH]; simpl; [done|]. intros [= H]. auto. Qed.

Lemma avg_std_keys f : f ++ "_avg" ≠ f ++ "_std".
Proof. intros H%string_app_inv_head. discriminate. Qed.

Lemma add_take (a b : list float) :
  np.add (take (length a `min` length b) a) (take (length a `min` length b) b)
  = np.add a b.
Proof.
  unfold np.add. revert b. induction a as [|x a IH]; intros [|y b]; simpl; auto.
  by rewrite IH.
Qed.

Lemma length_square_terms a : length (square_terms a) = length (terms a).
Proof.
  unfold square_terms, terms.
  destruct a; cbn [np.power2 np.as_float64]; unfold np.square;
    by rewrite ?length_fmap.
Qed.

Lemma terms_slice n a : terms (np.slice n a) = take n (terms a).
Proof. destruct a; simpl; [done|]. by rewrite fmap_take. Qed.

Lemma square_terms_slice n a :
  square_terms (np.slice n a) = take n (square_terms a).
Proof.
  unfold square_terms.
  destruct a; cbn [np.slice np.power2 np.as_float64]; unfold np.square;
    by rewrite ?fmap_take.
Qed.

(** The length of a sequence is the size of its array. *)
Lemma py_len_asarray v a :
  np.asarray_seq v = Ok a → py_len v = Ok (length (terms a)).
Proof.
  destruct v as [| | |s|s| |l]; simpl; try done.
  - by intros [= <-].
  - by intros [= <-].
  - destruct l as [|n l]; [by intros [= <-]|].
    destruct (forallb np.in_int64 (n :: l)); [|done].
    intros [= <-]. unfold terms. simpl. by rewrite length_fmap.
Qed.

(** Evaluation of the lookups and updates of a dictionary whose keys are
    [f ++ "_avg"] and [f ++ "_std"]. *)
Ltac eval_avg_std f :=
  repeat first
    [ progress simpl
    | rewrite decide_True by done
    | rewrite (decide_False (P := f ++ "_avg" = f ++ "_std"))
        by apply avg_std_keys ].

Lemma accumulate_first f v a :
  np.asarray_seq v = Ok a →
  accumulate 0 [(f, v)] [] f
  = Ok [(f ++ "_avg", np.add (np.zeros (length (terms a))) (terms a));
        (f ++ "_std", np.add (np.zeros (length (terms a))) (square_terms a))].
Proof.
  intros Ha. pose proof (py_len_asarray v a Ha) as Hlen.
  unfold accumulate, dict_item. cbn [dict_get]. rewrite !decide_True by done.
  cbn [bind]. rewrite Hlen, Ha. cbn [bind]. eval_avg_std f.
  fold (terms (np.slice (length (terms a)) a)).
  fold (square_terms (np.slice (length (terms a)) a)).
  rewrite terms_slice, square_terms_slice.
  rewrite !firstn_all2
    by (rewrite ?length_square_terms; unfold np.zeros;
        rewrite ?length_replicate; lia).
  done.
Qed.

Lemma accumulate_next f i v arr a b :
  np.asarray_seq v = Ok arr →
  length a = length b →
  accumulate (S i) [(f, v)] [(f ++ "_avg", a); (f ++ "_std", b)] f
  = Ok [(f ++ "_avg", np.add a (terms arr));
        (f ++ "_std", np.add b (square_terms arr))].
Proof.
  intros Ha Hab. pose proof (py_len_asarray v arr Ha) as Hlen.
  unfold accumulate, dict_item. cbn [dict_get]. rewrite !decide_True by done.
  cbn [bind]. rewrite Hlen, Ha. cbn [bind]. eval_avg_std f.
  fold (terms (np.slice (length a `min` length (terms arr)) arr)).
  fold (square_terms (np.slice (length a `min` length (terms arr)) arr)).
  rewrite terms_slice, square_terms_slice, add_take.
  rewrite Hab, <- length_square_terms. by rewrite add_take.
Qed.

Lemma accumulate_runs_next f vs arrs :
  Forall2 (λ v a, np.asarray_seq v = Ok a) vs arrs →
  ∀ i a b,
    length a = length b →
    accumulate_runs (S i) ((λ v, [(f, v)]) <$> vs) [f]
      [(f ++ "_avg", a); (f ++ "_std", b)]
    = Ok [(f ++ "_avg", foldl np.add a (terms <$> arrs));
          (f ++ "_std", foldl np.add b (square_terms <$> arrs))].
Proof.
  induction 1 as [|v arr vs arrs Hv _ IH]; intros i a b Hlen; [done|].
  rewrite !fmap_cons. cbn [accumulate_runs accumulate_keys].
  rewrite (accumulate_next f i v arr a b Hv Hlen). cbn [bind].
  rewrite IH; [done|].
  unfold np.add. rewrite !length_zip_with, length_square_terms. lia.
Qed.

Lemma accumulate_runs_all f v arr vs arrs :
  Forall2 (λ v a, np.asarray_seq v = Ok a) (v :: vs) (arr :: arrs) →
  accumulate_runs 0 ((λ v, [(f, v)]) <$> (v :: vs)) [f] []
  = Ok [(f ++ "_avg",
         foldl np.add (np.zeros (length (terms arr))) (terms <$> arr :: arrs));
        (f ++ "_std",
         foldl np.add (np.zeros (length (terms arr)))
           (square_terms <$> arr :: arrs))].
Proof.
  intros H. inversion H as [|???? Hv Hvs]; subst.
  rewrite fmap_cons. cbn [accumulate_runs accumulate_keys].
  rewrite (accumulate_first f v arr Hv). cbn [bind].
  rewrite (accumulate_runs_next f vs arrs Hvs); [done|].
  unfold np.add, np.zeros.
  rewrite !length_zip_with, length_square_terms, !length_replicate. lia.
Qed.

Lemma normalise_avg_std f n a b :
  normalise n [(f ++ "_avg", a); (f ++ "_std", b)] f
  = Ok [(f ++ "_avg", np.divide a n);
        (f ++ "_std",
         np.sqrt (np.sub (np.divide b n) (np.square (np.divide a n))))].
Proof. unfold normalise, dict_item. by eval_avg_std f. Qed.

(** The curves [_compute_mean_and_std] returns for two runs or more. *)
Definition avg_curve (a : np.ndarray) (arrs : list np.ndarray)
  : list float :=
  np.divide
    (foldl np.add (np.zeros (length (terms a))) (terms <$> a :: arrs))
    (S (length arrs)).

Definition std_curve (a : np.ndarray) (arrs : list np.ndarray)
  : list float :=
  np.sqrt
    (np.sub
       (np.divide
          (foldl np.add (np.zeros (length (terms a)))
             (square_terms <$> a :: arrs))
          (S (length arrs)))
       (np.square (avg_curve a arrs))).

Lemma compute_mean_and_std_runs f v v' vs a a' arrs :
  Forall2 (λ v a, np.asarray_seq v = Ok a) (v :: v' :: vs) (a :: a' :: arrs) →
  _compute_mean_and_std ((λ v, [(f, v)]) <$> (v :: v' :: vs))
  = Ok ([(f ++ "_avg", VArr (avg_curve a (a' :: arrs)));
         (f ++ "_std", VArr (std_curve a (a' :: arrs)))], None).
Proof.
  intros H. pose proof (Forall2_length _ _ _ H) as Hlen.
  unfold _compute_mean_and_std.
  change ((λ v0 : value, [(f, v0)]) <$> v :: v' :: vs)
    with ([(f, v)] :: [(f, v')] :: ((λ v0 : value, [(f, v0)]) <$> vs)).
  cbv beta iota.
  change ([(f, v)] :: [(f, v')] :: ((λ v0 : value, [(f, v0)]) <$> vs))
    with ((λ v0 : value, [(f, v0)]) <$> v :: v' :: vs).
  change (dict_keys [(f, v)]) with [f].
  rewrite (accumulate_runs_all f v a (v' :: vs) (a' :: arrs) H).
  cbn [bind normalise_keys].
  rewrite normalise_avg_std. cbn [bind].
  rewrite length_fmap. simpl length.
  assert (length vs = length arrs) as -> by (simpl in Hlen; lia). done.
Qed.

Lemma compute_mean_and_std_single f v a :
  np.asarray_seq v = Ok a →
  _compute_mean_and_std [[(f, v)]]
  = Ok ([(f ++ "_avg", v);
         (f ++ "_std", VArr (np.zeros (length (terms a))))], None).
Proof.
  intros Hlen%py_len_asarray.
  pose proof (avg_std_keys f) as Hne.
  unfold _compute_mean_and_std, single_run, dict_of, dict_update.
  cbn [comprehension fst snd]. rewrite Hlen. simpl.
  by rewrite decide_False.
Qed.

Lemma comprehension_ok {A B} (g : A → outcome B) (h : A → B) l :
  (∀ x, x ∈ l → g x = Ok (h x)) → comprehension g l = Ok (h <$> l).
Proof.
  induction l as [|x l IH]; intros Hg; [done|].
  cbn [comprehension]. rewrite (Hg x) by constructor. cbn [bind].
  rewrite IH; [done|]. intros y Hy. apply Hg. by constructor.
Qed.

Lemma avgstd_inner_data f (vs : list value) :
  comprehension
    (λ d : dict string value,
       dict_of <$>
         comprehension
           (λ key, v ← dict_item (KeyError key) d key; Ok (key, v)) [f])
    ((λ v, [(f, v)]) <$> vs)
  = Ok ((λ v, [(f, v)]) <$> vs).
Proof.
  rewrite <- (list_fmap_id ((λ v, [(f, v)]) <$> vs)) at 2.
  apply comprehension_ok. intros d (s & -> & _)%list_elem_of_fmap.
  unfold dict_item. simpl. by rewrite decide_True.
Qed.

Lemma AvgStd_apply_runs f v v' vs a a' arrs :
  Forall2 (λ v a, np.asarray_seq v = Ok a) (v :: v' :: vs) (a :: a' :: arrs) →
  AvgStd_apply (AvgStd f) ((λ v, [(f, v)]) <$> (v :: v' :: vs))
  = Ok (RetPair
          [(f ++ "_avg", VArr (avg_curve a (a' :: arrs)));
           (f ++ "_std", VArr (std_curve a (a' :: arrs)))] None).
Proof.
  intros H. unfold AvgStd_apply.
  change (AggregationMap.keys (AvgStd f)) with [f].
  rewrite avgstd_inner_data. cbn [bind].
  by rewrite (compute_mean_and_std_runs f v v' vs a a' arrs H).
Qed.

Lemma AvgStd_apply_single f v a :
  np.asarray_seq v = Ok a →
  AvgStd_apply (AvgStd f) [[(f, v)]]
  = Ok (RetPair
          [(f ++ "_avg", v);
           (f ++ "_std", VArr (np.zeros (length (terms a))))] None).
Proof.
  intros H. unfold AvgStd_apply.
  change (AggregationMap.keys (AvgStd f)) with [f].
  change [[(f, v)]] with ((λ v0 : value, [(f, v0)]) <$> [v]).
  rewrite avgstd_inner_data. cbn [bind].
  change ((λ v0 : value, [(f, v0)]) <$> [v]) with [[(f, v)]].
  by rewrite (compute_mean_and_std_single f v a H).
Qed.

End avgstd.

(** ** The curves of [AvgStd], position by position *)

(** Two runs whose metrics files hold the losses 1, 2, 3 and 1, 2, not
    read yet. *)
Definition curves_world : world :=
  {| files :=
       {[ "runA/metrics.json" :=
            [Some {[ "loss" := 1%float ]}; Some {[ "loss" := 2%float ]};
             Some {[ "loss" := 3%float ]}];
          "runB/metrics.json" :=
            [Some {[ "loss" := 1%float ]}; Some {[ "loss" := 2%float ]}] ]};
     reads := [] |}.

Definition lazy_run (parent_dir : string) : Config.t :=
  {| Config.flattened := [("metrics.loss", Config.LAZYDATA)];
     Config.lazy := [("metrics.loss", Config.GetData "metrics")];
     Config.lazydata_dict :=
       [("metrics", LazyData.__init__ parent_dir "metrics")] |}.

(** The record [c] with the two curves of the field [f] attached. *)
Definition with_curves (c : Config.t) (f : string) (avg std : value)
  : Config.t :=
  with_field (with_field c (f ++ "_avg") avg) (f ++ "_std") std.

Section curves.

Lemma update_curves c f avg std :
  Config.update c [(f ++ "_avg", avg); (f ++ "_std", std)]
  = with_curves c f avg std.
Proof. reflexivity. Qed.

Lemma with_curves_read c f avg std w :
  Config.__getitem__ (with_curves c f avg std) (f ++ "_avg") w
  = (Ok avg, with_curves c f avg std, w)
  ∧ Config.__getitem__ (with_curves c f avg std) (f ++ "_std") w
    = (Ok std, with_curves c f avg std, w).
Proof.
  split; apply getitem_eager; simpl.
  - rewrite dict_get_set_ne by (intros H; by apply (avg_std_keys f)).
    apply dict_get_set_eq.
  - apply dict_get_set_eq.
Qed.

Lemma foldl_add_lookup seqs : ∀ acc j x col,
  acc !! j = Some x →
  Forall2 (λ (s : list float) y, s !! j = Some y) seqs col →
  foldl np.add acc seqs !! j = Some (foldl PrimFloat.add x col).
Proof.
  induction seqs as [|s seqs IH]; intros acc j x col Hacc Hcol;
    inversion Hcol as [|? y ? col' Hy Hcol']; subst; simpl; [done|].
  apply IH; [|done]. unfold np.add. rewrite lookup_zip_with, Hacc. simpl.
  by rewrite Hy.
Qed.

Lemma foldl_add_length seqs : ∀ acc,
  length (foldl np.add acc seqs)
  = foldl (λ n (s : list float), n `min` length s) (length acc) seqs.
Proof.
  induction seqs as [|s seqs IH]; intros acc; simpl; [done|].
  rewrite IH. unfold np.add. by rewrite length_zip_with.
Qed.

Lemma foldl_min_le (seqs : list (list float)) : ∀ n,
  (foldl (λ n s, n `min` length s) n seqs ≤ n)%nat
  ∧ ∀ s, s ∈ seqs → (foldl (λ n s, n `min` length s) n seqs ≤ length s)%nat.
Proof.
  induction seqs as [|s seqs IH]; intros n; simpl.
  - split; [done|]. intros s Hs. by inversion Hs.
  - destruct (IH (n `min` length s)) as [Hn Hall]. split; [lia|].
    intros s' [->|Hs']%elem_of_cons; [lia|auto].
Qed.

Lemma foldl_min_attained (seqs : list (list float)) : ∀ n,
  foldl (λ n s, n `min` length s) n seqs = n
  ∨ ∃ s, s ∈ seqs ∧ foldl (λ n s, n `min` length s) n seqs = length s.
Proof.
  induction seqs as [|s seqs IH]; intros n; simpl; [by left|].
  destruct (IH (n `min` length s)) as [->|(s' & Hs' & ->)].
  - destruct (Nat.min_spec n (length s)) as [[_ ->]|[_ ->]]; [by left|].
    right. exists s. split; [constructor|done].
  - right. exists s'. split; [by constructor|done].
Qed.

Lemma square_terms_lengths (arrs : list np.ndarray) : ∀ n,
  foldl (λ n (s : list float), n `min` length s) n (square_terms <$> arrs)
  = foldl (λ n (s : list float), n `min` length s) n (terms <$> arrs).
Proof.
  induction arrs as [|a arrs IH]; intros n; simpl; [done|].
  rewrite length_square_terms. apply IH.
Qed.

Lemma avg_curve_length a arrs :
  (∀ a', a' ∈ a :: arrs →
         (length (avg_curve a arrs) ≤ length (terms a'))%nat)
  ∧ ∃ a', a' ∈ a :: arrs ∧ length (avg_curve a arrs) = length (terms a').
Proof.
  unfold avg_curve, np.divide. rewrite length_fmap, foldl_add_length.
  assert (length (np.zeros (length (terms a))) = length (terms a)) as ->
    by apply length_replicate.
  rewrite fmap_cons. simpl. rewrite Nat.min_id. split.
  - destruct (foldl_min_le (terms <$> arrs) (length (terms a))) as [Hn Hall].
    intros a' [->|Ha']%elem_of_cons; [done|].
    apply Hall, list_elem_of_fmap. by exists a'.
  - destruct (foldl_min_attained (terms <$> arrs) (length (terms a)))
      as [->|(s' & (a' & -> & Ha')%list_elem_of_fmap & ->)].
    + exists a. split; [constructor|done].
    + exists a'. split; [by constructor|done].
Qed.

Lemma length_np_square a : length (np.square a) = length a.
Proof. apply length_fmap. Qed.

Lemma length_np_sqrt a : length (np.sqrt a) = length a.
Proof. apply length_fmap. Qed.

Lemma length_np_divide a n : length (np.divide a n) = length a.
Proof. apply length_fmap. Qed.

Lemma length_np_sub a b : length (np.sub a b) = length a `min` length b.
Proof. apply length_zip_with. Qed.

Lemma std_curve_length a arrs :
  length (std_curve a arrs) = length (avg_curve a arrs).
Proof.
  unfold std_curve.
  rewrite length_np_sqrt, length_np_sub, length_np_square, length_np_divide.
  unfold avg_curve. rewrite length_np_divide, !foldl_add_length.
  rewrite !fmap_cons. simpl.
  rewrite length_square_terms, square_terms_lengths. lia.
Qed.

Lemma lookup_np_divide a n j x :
  a !! j = Some x → np.divide a n !! j = Some (x / np.float_of_nat n)%float.
Proof. intros H. unfold np.divide. by rewrite list_lookup_fmap, H. Qed.

Lemma lookup_np_square a j x :
  a !! j = Some x → np.square a !! j = Some (x * x)%float.
Proof. intros H. unfold np.square. by rewrite list_lookup_fmap, H. Qed.

Lemma lookup_np_sqrt a j x :
  a !! j = Some x → np.sqrt a !! j = Some (PrimFloat.sqrt x).
Proof. intros H. unfold np.sqrt. by rewrite list_lookup_fmap, H. Qed.

Lemma lookup_np_sub a b j x y :
  a !! j = Some x → b !! j = Some y → np.sub a b !! j = Some (x - y)%float.
Proof. intros Ha Hb. unfold np.sub. by rewrite lookup_zip_with, Ha, Hb. Qed.

Lemma curves_lookup a arrs j col sq :
  Forall2 (λ a y, terms a !! j = Some y) (a :: arrs) col →
  Forall2 (λ a q, square_terms a !! j = Some q) (a :: arrs) sq →
  avg_curve a arrs !! j = Some (mean_at col)
  ∧ std_curve a arrs !! j = Some (std_at col sq).
Proof.
  intros Hcol Hsq. pose proof (Forall2_length _ _ _ Hcol) as Hlen.
  simpl in Hlen.
  assert (np.zeros (length (terms a)) !! j = Some 0%float) as Hzero.
  { inversion Hcol as [|? y ? col' Hy _]; subst.
    apply lookup_replicate_2. by eapply lookup_lt_Some. }
  assert (avg_curve a arrs !! j = Some (mean_at col)) as Havg.
  { unfold avg_curve, mean_at. rewrite <- Hlen.
    apply lookup_np_divide, foldl_add_lookup; [done|].
    by apply Forall2_fmap_l. }
  split; [done|].
  unfold std_curve, std_at. rewrite <- Hlen.
  apply lookup_np_sqrt, lookup_np_sub; [|by apply lookup_np_square].
  apply lookup_np_divide, foldl_add_lookup; [done|].
  by apply Forall2_fmap_l.
Qed.

(** The terms of float sequences and of int sequences at one position: a
    float is squared in binary64, an int in int64, where the square wraps,
    before it is added to the float64 sum. *)
Lemma float_terms (seqs : list (list float)) j col :
  Forall2 (λ s y, s !! j = Some y) seqs col →
  Forall2 (λ a y, terms a !! j = Some y) (np.F64 <$> seqs) col
  ∧ Forall2 (λ a q, square_terms a !! j = Some q) (np.F64 <$> seqs)
      ((λ x, x * x)%float <$> col).
Proof.
  induction 1 as [|s y seqs col Hy _ [IH1 IH2]]; [by split; constructor|].
  split; rewrite !fmap_cons; constructor; try done.
  unfold square_terms. cbn [np.power2 np.as_float64].
  by apply lookup_np_square.
Qed.

Lemma int_terms (seqs : list (list Z)) j col :
  Forall2 (λ s n, s !! j = Some n) seqs col →
  Forall2 (λ a y, terms a !! j = Some y) (np.I64 <$> seqs)
    (np.float_of_Z <$> col)
  ∧ Forall2 (λ a q, square_terms a !! j = Some q) (np.I64 <$> seqs)
      ((λ n, np.float_of_Z (np.wrap64 (n * n))) <$> col).
Proof.
  induction 1 as [|s n seqs col Hn _ [IH1 IH2]]; [by split; constructor|].
  split; rewrite !fmap_cons; constructor; try done.
  - unfold terms. cbn [np.as_float64]. by rewrite list_lookup_fmap, Hn.
  - unfold square_terms. cbn [np.power2 np.as_float64].
    by rewrite !list_lookup_fmap, Hn.
Qed.

(** The aggregation of a group with [AvgStd f], from what the reads of the
    field give. *)
Lemma aggregate_avgstd f collection collection' vs w w' :
  gather collection [f] w
  = (Ok ((λ v, [(f, v)]) <$> vs), collection', w') →
  ∀ d,
    AvgStd_apply (AvgStd f) ((λ v, [(f, v)]) <$> vs)
    = Ok (RetPair d None) →
    _aggregate_collection collection [AvgStd f] w
    = (Ok [("avgstd(" ++ f ++ ")",
            (λ c, Config.update c d) <$> collection')], collection', w').
Proof.
  intros Hgather d Happly. unfold _aggregate_collection.
  rewrite (extract_keys_single (AvgStd f) f eq_refl), Hgather.
  cbn [aggregate_maps]. unfold aggregate_map.
  change (apply (AvgStd f) ?d) with (AvgStd_apply (AvgStd f) d).
  by rewrite Happly.
Qed.

End curves.

(** The binary64 number nearest to 0.1. *)
Definition tenth : float := 0x1.999999999999ap-4%float.

(** C3, amended.  Let the reads of the field [f] from the runs of a group
    give the values [vs], sequences of floats or of ints in the range of
    int64, whose arrays are [arrs] (the reads leave the records
    [collection'] and the world [w']).  With two runs or more, the
    aggregation with [AvgStd f] attaches to every record of the group, under
    [f_avg] and [f_std], two curves of float64 whose length is that of the
    shortest sequence and whose value at each position is, in binary64
    arithmetic and in the order of the runs, the sum of the values the runs
    hold there divided by the number of runs, and
    [sqrt(sum of squares / number of runs - mean * mean)] with no clamping
    of a negative difference; the square of a float is taken in binary64 and
    the square of an int in int64, where it wraps.  With one run the mean is
    the sequence itself and the deviation is zero everywhere.  Each key
    attached reads back as the curve.  On the sequences [1, 2, 3] and
    [1, 2], held as ints by the records or as floats by metrics files not
    read yet, the mean is [1.0, 2.0] and the deviation [0.0, 0.0], attached
    to both runs. *)
Theorem avgstd_curves (f : string) (collection collection' : ConfigList)
    (vs : list value) (arrs : list np.ndarray) (w w' : world) :
  gather collection [f] w
  = (Ok ((λ v, [(f, v)]) <$> vs), collection', w') →
  Forall2 (λ v a, np.asarray_seq v = Ok a) vs arrs →
  (match vs with
   | [] => True
   | [v] =>
       ∃ n,
         py_len v = Ok n
         ∧ _aggregate_collection collection [AvgStd f] w
           = (Ok [("avgstd(" ++ f ++ ")",
                   (λ c, with_curves c f v (VArr (np.zeros n)))
                   <$> collection')],
              collection', w')
   | _ =>
       ∃ avg std,
         _aggregate_collection collection [AvgStd f] w
         = (Ok [("avgstd(" ++ f ++ ")",
                 (λ c, with_curves c f (VArr avg) (VArr std))
                 <$> collection')],
            collection', w')
         ∧ length std = length avg
         ∧ (∀ a, a ∈ arrs → (length avg ≤ length (np.as_float64 a))%nat)
         ∧ (∃ a, a ∈ arrs ∧ length avg = length (np.as_float64 a))
         ∧ (∀ j col sq,
              Forall2 (λ a y, np.as_float64 a !! j = Some y) arrs col →
              Forall2 (λ a q, np.as_float64 (np.power2 a) !! j = Some q)
                arrs sq →
              avg !! j = Some (mean_at col)
              ∧ std !! j = Some (std_at col sq))
         ∧ (∀ seqs j col,
              arrs = np.F64 <$> seqs →
              Forall2 (λ (s : list float) y, s !! j = Some y) seqs col →
              avg !! j = Some (mean_at col)
              ∧ std !! j
                = Some (std_at col ((λ x, x * x)%float <$> col)))
         ∧ (∀ seqs j col,
              arrs = np.I64 <$> seqs →
              Forall2 (λ (s : list Z) n, s !! j = Some n) seqs col →
              avg !! j = Some (mean_at (np.float_of_Z <$> col))
              ∧ std !! j
                = Some (std_at (np.float_of_Z <$> col)
                          ((λ n, np.float_of_Z (np.wrap64 (n * n)%Z))
                           <$> col)))
   end)
  ∧ (∀ c avg std w0,
       Config.__getitem__ (with_curves c f avg std) (f ++ "_avg") w0
       = (Ok avg, with_curves c f avg std, w0)
       ∧ Config.__getitem__ (with_curves c f avg std) (f ++ "_std") w0
         = (Ok std, with_curves c f avg std, w0))
  ∧ (let collection :=
       [seq_run (VSeqInt [1; 2; 3]%Z); seq_run (VSeqInt [1; 2]%Z)] in
     _aggregate_collection collection [AvgStd "x"] w
     = (Ok [("avgstd(x)",
             (λ c, with_curves c "x" (VArr [1; 2]%float)
                     (VArr [0; 0]%float))
             <$> collection)],
        collection, w))
  ∧ let r :=
      _aggregate_collection [lazy_run "runA"; lazy_run "runB"]
        [AvgStd "metrics.loss"] curves_world in
    r.1.1
    = Ok [("avgstd(metrics.loss)",
           (λ c, with_curves c "metrics.loss" (VArr [1; 2]%float)
                   (VArr [0; 0]%float))
           <$> r.1.2)]
    ∧ length r.1.2 = 2%nat
    ∧ reads r.2 = ["runA/metrics.json"; "runB/metrics.json"].
Proof.
  intros Hgather Harrs. split_and!.
  - pose proof (aggregate_avgstd f collection collection' vs w w' Hgather)
      as Hagg.
    destruct Harrs as [|v a vs arrs Hv Harrs]; [done|].
    destruct Harrs as [|v' a' vs arrs Hv' Harrs].
    + exists (length (terms a)). split; [by apply py_len_asarray|].
      by rewrite (Hagg _ (AvgStd_apply_single f v a Hv)).
    + assert (Forall2 (λ v a, np.asarray_seq v = Ok a)
                (v :: v' :: vs) (a :: a' :: arrs)) as Hall
        by (by repeat constructor).
      rewrite (Hagg _ (AvgStd_apply_runs f v v' vs a a' arrs Hall)).
      exists (avg_curve a (a' :: arrs)), (std_curve a (a' :: arrs)).
      split_and!; [done|apply std_curve_length|..].
      * apply avg_curve_length.
      * apply avg_curve_length.
      * apply curves_lookup.
      * intros seqs j col Heq Hcol.
        destruct (float_terms seqs j col Hcol) as [H1 H2].
        rewrite <- Heq in H1, H2. by apply curves_lookup.
      * intros seqs j col Heq Hcol.
        destruct (int_terms seqs j col Hcol) as [H1 H2].
        rewrite <- Heq in H1, H2. by apply curves_lookup.
  - intros c avg std w0. apply with_curves_read.
  - reflexivity.
  - vm_compute. split_and!; reflexivity.
Qed.

Lemma avgstd_curves_witness :
  let collection := [lazy_run "runA"; lazy_run "runB"] in
  let g := gather collection ["metrics.loss"] curves_world in
  g.1.1
  = Ok ((λ v, [("metrics.loss", v)])
        <$> [VSeq [1; 2; 3]%float; VSeq [1; 2]%float])
  ∧ ∃ avg std,
      _aggregate_collection collection [AvgStd "metrics.loss"] curves_world
      = (Ok [("avgstd(metrics.loss)",
              (λ c, with_curves c "metrics.loss" (VArr avg) (VArr std))
              <$> g.1.2)],
         g.1.2, g.2)
      ∧ length std = length avg
      ∧ avg !! 1%nat = Some (mean_at [2; 2]%float)
      ∧ std !! 1%nat = Some (std_at [2; 2]%float [4; 4]%float).
Proof.
  intros collection g.
  assert (g = (Ok ((λ v, [("metrics.loss", v)])
                   <$> [VSeq [1; 2; 3]%float; VSeq [1; 2]%float]),
               g.1.2, g.2)) as Hg
    by (vm_compute; reflexivity).
  destruct (avgstd_curves "metrics.loss" collection g.1.2
              [VSeq [1; 2; 3]%float; VSeq [1; 2]%float]
              [np.F64 [1; 2; 3]%float; np.F64 [1; 2]%float]
              curves_world g.2 Hg)
    as [(avg & std & Hagg & Hlen & _ & _ & Hpos & _) _].
  { repeat constructor. }
  split; [by rewrite Hg|].
  exists avg, std. split; [exact Hagg|]. split; [exact Hlen|].
  apply (Hpos 1%nat [2; 2]%float [4; 4]%float); repeat constructor.
Defined.

(** C3 as stated fails.  Three runs that hold the same float at a position
    have the population standard deviation 0 there, and two runs that hold
    the same int as well; the deviation attached is NaN in both cases: the
    difference [mean of squares - mean * mean] is rounded below zero in the
    first, and in the second the int64 square wrapped. *)
Lemma avgstd_deviation_nan :
  (let collection :=
     [seq_run (VSeq [tenth]); seq_run (VSeq [tenth]);
      seq_run (VSeq [tenth])] in
   ∃ avg std,
     _aggregate_collection collection [AvgStd "x"] example_world
     = (Ok [("avgstd(x)",
             (λ c, with_curves c "x" (VArr [avg]) (VArr [std]))
             <$> collection)],
        collection, example_world)
     ∧ is_nan std = true ∧ std ≠ 0%float)
  ∧ (let collection :=
       [seq_run (VSeqInt [4000000000%Z]);
        seq_run (VSeqInt [4000000000%Z])] in
     ∃ std,
       _aggregate_collection collection [AvgStd "x"] example_world
       = (Ok [("avgstd(x)",
               (λ c, with_curves c "x" (VArr [4000000000%float])
                       (VArr [std]))
               <$> collection)],
          collection, example_world)
       ∧ is_nan std = true ∧ std ≠ 0%float
       ∧ np.wrap64 (4000000000 * 4000000000)%Z = (-2446744073709551616)%Z).
Proof.
  split.
  - eexists _, nan. split_and!; [vm_compute; reflexivity|reflexivity|].
    intros H. by apply (f_equal is_nan) in H.
  - exists nan. split_and!; [vm_compute; reflexivity|reflexivity| |reflexivity].
    intros H. by apply (f_equal is_nan) in H.
Qed.

(** ** The partition [_group_by] builds *)

(** Every path of the nested dictionary [t] has [n] more keys before its
    list of records. *)
Fixpoint depth_is (n : nat) (t : nested) : Prop :=
  match n, t with
  | O, Leaf _ => True
  | S n', Node d => Forall (λ kv, depth_is n' kv.2) d
  | _, _ => False
  end.

(** The list of records at the end of the path [key :: keys] of [d]. *)
Fixpoint path_get (d : list (string * nested)) (key : string)
    (keys : list string) : option ConfigList :=
  match dict_get d key, keys with
  | Some (Leaf l), [] => Some l
  | Some (Node d'), key' :: keys' => path_get d' key' keys'
  | _, _ => None
  end.

Section nested_paths.

Lemma dict_get_Forall {V} (P : V → Prop) (d : dict string V) k v :
  Forall (λ kv, P kv.2) d → dict_get d k = Some v → P v.
Proof.
  intros Hall Hget. apply dict_get_elem_of in Hget.
  rewrite Forall_forall in Hall. apply (Hall _ Hget).
Qed.

Lemma dict_set_Forall {V} (P : V → Prop) (d : dict string V) k v :
  Forall (λ kv, P kv.2) d → P v → Forall (λ kv, P kv.2) (dict_set d k v).
Proof.
  intros Hall Hv. induction Hall as [|[k1 v1] d H1 Hall IH]; simpl.
  - by repeat constructor.
  - case_decide; constructor; auto.
Qed.

Lemma path_get_nil key keys : path_get [] key keys = None.
Proof. by destruct keys. Qed.

Lemma add_path_spec keys : ∀ d key val,
  Forall (λ kv, depth_is (length keys) kv.2) d →
  ∃ d',
    add_path d key keys val = Ok d'
    ∧ Forall (λ kv, depth_is (length keys) kv.2) d'
    ∧ path_get d' key keys
      = Some (default [] (path_get d key keys) ++ val)%list
    ∧ ∀ key2 keys2,
        length keys2 = length keys → key2 :: keys2 ≠ key :: keys →
        path_get d' key2 keys2 = path_get d key2 keys2.
Proof.
  induction keys as [|key' keys IH]; intros d key val Hd.
  - cbn [add_path length] in *.
    destruct (dict_get d key) as [[l|dn]|] eqn:E.
    + eexists. split; [done|]. split_and!.
      * by apply dict_set_Forall.
      * simpl. by rewrite dict_get_set_eq, E.
      * intros key2 [|? ?] Hlen Hne; [|done].
        simpl. rewrite dict_get_set_ne; [done|congruence].
    + by pose proof (dict_get_Forall _ _ _ _ Hd E).
    + eexists. split; [done|]. split_and!.
      * by apply dict_set_Forall.
      * simpl. by rewrite dict_get_set_eq, E.
      * intros key2 [|? ?] Hlen Hne; [|done].
        simpl. rewrite dict_get_set_ne; [done|congruence].
  - cbn [add_path length] in *.
    destruct (dict_get d key) as [[l|dn]|] eqn:E.
    + by pose proof (dict_get_Forall _ _ _ _ Hd E).
    + pose proof (dict_get_Forall _ _ _ _ Hd E) as Hdn. simpl in Hdn.
      destruct (IH dn key' val Hdn) as (d'' & -> & Hwf & Hget & Hother).
      eexists. split; [done|]. split_and!.
      * by apply dict_set_Forall.
      * simpl. by rewrite dict_get_set_eq, E.
      * intros key2 [|k2 ks2] Hlen Hne; [done|]. simpl.
        destruct (decide (key = key2)) as [<-|Hk].
        -- rewrite dict_get_set_eq, E. apply Hother; [by injection Hlen|].
           congruence.
        -- by rewrite dict_get_set_ne.
    + destruct (IH [] key' val) as (d'' & -> & Hwf & Hget & Hother);
        [constructor|].
      eexists. split; [done|]. split_and!.
      * by apply dict_set_Forall.
      * simpl. rewrite dict_get_set_eq, E. by rewrite path_get_nil in Hget.
      * intros key2 [|k2 ks2] Hlen Hne; [done|]. simpl.
        destruct (decide (key = key2)) as [<-|Hk].
        -- rewrite dict_get_set_eq, E.
           rewrite Hother; [apply path_get_nil|by injection Hlen|congruence].
        -- by rewrite dict_get_set_ne.
Qed.

Lemma reduce_get_path keys : ∀ d key l,
  path_get d key keys = Some l →
  reduce_get (key :: keys) (Some (Node d)) = Ok (Some (Leaf l)).
Proof.
  induction keys as [|key' keys IH]; intros d key l; simpl.
  - destruct (dict_get d key) as [[l'|dn]|]; [|done..]. by intros [= ->].
  - destruct (dict_get d key) as [[l'|dn]|]; [done| |done]. apply IH.
Qed.

End nested_paths.

Section group_by_partition.

Variable str_value : value → string.

(** The group-value tuple of a run. *)
Definition group_tuple (keys : list string) (c : Config.t) : list string :=
  match pkey_val str_value c keys with
  | Ok t => t
  | Raise _ => []
  end.

(** The run holds a value other than [None] at each key. *)
Definition has_values (keys : list string) (c : Config.t) : Prop :=
  ∀ k, k ∈ keys →
       ∃ v, dict_get (Config.flattened c) k = Some v ∧ v ≠ VNone.

Lemma pkey_val_has_values keys c :
  has_values keys c →
  pkey_val str_value c keys = Ok (group_tuple keys c)
  ∧ length (group_tuple keys c) = length keys.
Proof.
  intros Hc.
  assert (∃ vs,
            comprehension
              (λ group_key,
                 dict_item (KeyError group_key) (Config.flattened c) group_key)
              keys = Ok vs
            ∧ Forall (λ v, v ≠ VNone) vs ∧ length vs = length keys)
    as (vs & Hvs & Hnone & Hlen).
  { induction keys as [|k keys IH]; [by exists []|].
    destruct IH as (vs & Hvs & Hnone & Hlen).
    { intros k' Hk'. apply Hc. by constructor. }
    destruct (Hc k) as (v & Hv & Hvn); [constructor|].
    exists (v :: vs). cbn [comprehension]. unfold dict_item at 1.
    rewrite Hv, Hvs. simpl. split_and!; [done|by constructor|by rewrite Hlen]. }
  assert (pkey_val str_value c keys
          = Ok (omap (λ pkey, match pkey with
                              | VNone => None
                              | _ => Some (str_value pkey)
                              end) vs)) as Hpkey.
  { unfold pkey_val. by rewrite Hvs. }
  unfold group_tuple. rewrite Hpkey. split; [done|].
  rewrite <- Hlen. clear -Hnone.
  induction Hnone as [|v vs Hv _ IH]; [done|].
  destruct v; simpl; [done|f_equal; exact IH..].
Qed.

Lemma elem_of_add_new {A} `{EqDecision A} (x y : A) l :
  y ∈ add_new x l ↔ y = x ∨ y ∈ l.
Proof.
  induction l as [|z l IH]; simpl.
  - rewrite list_elem_of_singleton. split; [auto|]. intros [?|H]; [done|].
    by inversion H.
  - case_decide; subst.
    + split; [auto|]. intros [->|?]; [constructor|done].
    + rewrite !elem_of_cons, IH. tauto.
Qed.

Lemma NoDup_add_new {A} `{EqDecision A} (x : A) l :
  NoDup l → NoDup (add_new x l).
Proof.
  induction 1 as [|z l Hz Hl IH]; simpl.
  - apply NoDup_singleton.
  - case_decide; subst; [by constructor|].
    constructor; [|done]. rewrite elem_of_add_new. intros [?|?]; done.
Qed.

Lemma foldl_add_new_spec {A B} `{EqDecision B} (f : A → B) (l : list A) :
  ∀ acc,
    NoDup acc →
    NoDup (foldl (λ acc x, add_new (f x) acc) acc l)
    ∧ ∀ y, y ∈ foldl (λ acc x, add_new (f x) acc) acc l
           ↔ y ∈ acc ∨ ∃ x, x ∈ l ∧ f x = y.
Proof.
  induction l as [|x l IH]; intros acc Hacc; simpl.
  - split; [done|]. intros y. split; [auto|].
    intros [?|(x & Hx & _)]; [done|by inversion Hx].
  - destruct (IH (add_new (f x) acc)) as [Hnd Hin];
      [by apply NoDup_add_new|].
    split; [done|]. intros y. rewrite Hin, elem_of_add_new. split.
    + intros [[->|?]|(x' & Hx' & <-)]; [right|by left|right].
      * exists x. split; [constructor|done].
      * exists x'. split; [by constructor|done].
    + intros [?|(x' & [->|Hx']%elem_of_cons & <-)]; [by left; right| |].
      * left; by left.
      * right. by exists x'.
Qed.

Section loop.

Variable keys : list string.
Variable m : nat.

Lemma group_loop_spec runs : ∀ d gv,
  Forall (λ c, pkey_val str_value c keys = Ok (group_tuple keys c)
               ∧ length (group_tuple keys c) = S m) runs →
  Forall (λ kv, depth_is m kv.2) d →
  ∃ d',
    group_loop str_value runs keys d gv
    = Ok (d', foldl (λ acc c, add_new (group_tuple keys c) acc) gv runs)
    ∧ Forall (λ kv, depth_is m kv.2) d'
    ∧ ∀ key ks,
        length ks = m →
        path_get d' key ks
        = match filter (λ c, group_tuple keys c = key :: ks) runs with
          | [] => path_get d key ks
          | here => Some (default [] (path_get d key ks) ++ here)%list
          end.
Proof.
  induction runs as [|c runs IH]; intros d gv Hruns Hd.
  - exists d. by split_and!.
  - apply Forall_cons in Hruns as [[Hc Hlen] Hruns].
    cbn [group_loop]. rewrite Hc. cbn [bind].
    destruct (group_tuple keys c) as [|key0 ks0] eqn:Htup; [done|].
    injection Hlen as Hlen. subst m.
    destruct (add_path_spec ks0 d key0 [c] Hd)
      as (d1 & Hadd & Hd1 & Hhere & Hother).
    cbn [_add_nested_keys_val]. rewrite Hadd. cbn [bind].
    destruct (IH d1 (add_new (key0 :: ks0) gv) Hruns Hd1)
      as (d' & -> & Hd' & Hpaths).
    exists d'. split_and!; [by simpl; rewrite Htup|done|].
    intros key ks Hks. rewrite (Hpaths key ks Hks), filter_cons, Htup.
    destruct (decide (key0 :: ks0 = key :: ks)) as [[= <- <-]|Hne].
    + rewrite Hhere.
      destruct (filter _ runs) as [|c' here]; [done|].
      simpl. by rewrite <- app_assoc.
    + rewrite (Hother key ks Hks); [done|congruence].
Qed.

End loop.

Lemma dict_update_fresh {K V} `{EqDecision K} (l : list (K * V)) : ∀ acc,
  NoDup (acc.*1 ++ l.*1) → dict_update acc l = (acc ++ l)%list.
Proof.
  unfold dict_update.
  induction l as [|[k v] l IH]; intros acc Hnd; simpl.
  - by rewrite app_nil_r.
  - assert (dict_set acc k v = (acc ++ [(k, v)])%list) as ->.
    { assert (k ∉ acc.*1) as Hk.
      { simpl in Hnd. apply NoDup_app in Hnd as (_ & Hdisj & _).
        intros Hin. apply (Hdisj k Hin). constructor. }
      clear -Hk. induction acc as [|[k1 v1] acc IH]; simpl; [done|].
      simpl in Hk. rewrite not_elem_of_cons in Hk. destruct Hk as [Hne Hk].
      rewrite decide_False by done. by rewrite IH. }
    rewrite IH; [by rewrite <- app_assoc|].
    rewrite fmap_app. simpl in *. by rewrite <- app_assoc.
Qed.

(** The buckets of a list by the values of [f], one per member of a list
    [ks] without repeats that holds every value, rearrange the list. *)
Lemma buckets_permutation {A B} `{EqDecision B} (f : A → B) (l : list A) ks :
  NoDup ks →
  (∀ x, x ∈ l → f x ∈ ks) →
  mjoin ((λ k, filter (λ x, f x = k) l) <$> ks) ≡ₚ l.
Proof.
  intros Hnd Hall.
  assert (mjoin ((λ k, filter (λ x, f x = k) l) <$> ks)
          ≡ₚ filter (λ x, f x ∈ ks) l) as ->.
  { clear Hall. induction Hnd as [|k ks Hk Hnd IH]; simpl.
    - induction l as [|x l IHl]; [done|].
      rewrite filter_cons. by rewrite decide_False by by inversion 1.
    - rewrite IH. clear IH.
      induction l as [|x l IHl]; [done|].
      rewrite !filter_cons.
      destruct (decide (f x = k)) as [<-|Hne].
      + rewrite decide_False by done.
        rewrite decide_True by constructor. simpl. by rewrite IHl.
      + destruct (decide (f x ∈ ks)) as [Hin|Hnin].
        * rewrite decide_True by by constructor.
          rewrite <- Permutation_middle. by rewrite IHl.
        * rewrite decide_False; [done|].
          intros [?|?]%elem_of_cons; done. }
  induction l as [|x l IH]; [done|].
  rewrite filter_cons, decide_True by (apply Hall; constructor).
  rewrite IH; [done|]. intros y Hy. apply Hall. by constructor.
Qed.

(** X1.  With at least one key and every run holding a value other than
    [None] at each key, [_group_by] returns: the group values are the
    distinct tuples of the runs, each listed once, the dictionary maps each
    tuple to the runs that have it, in their order, and the groups together
    rearrange the runs -- every run is in exactly one group. *)
Theorem group_by_partitions (runs : ConfigList) (keys : list string) :
  keys ≠ [] →
  Forall (has_values keys) runs →
  ∃ grouped group_vals,
    _group_by str_value runs keys = Ok (grouped, keys, group_vals)
    ∧ NoDup group_vals
    ∧ (∀ t, t ∈ group_vals ↔ ∃ c, c ∈ runs ∧ group_tuple keys c = t)
    ∧ grouped
      = (λ t, (t, filter (λ c, group_tuple keys c = t) runs)) <$> group_vals
    ∧ mjoin (dict_values grouped) ≡ₚ runs.
Proof.
  intros Hkeys Hruns.
  destruct keys as [|k0 keys0] eqn:Ekeys; [done|]. rewrite <- Ekeys in *.
  set (m := length keys0).
  assert (Forall (λ c, pkey_val str_value c keys = Ok (group_tuple keys c)
                       ∧ length (group_tuple keys c) = S m) runs) as Htup.
  { eapply Forall_impl; [exact Hruns|]. intros c Hc.
    destruct (pkey_val_has_values keys c Hc) as [-> Hlen].
    split; [done|]. rewrite Hlen, Ekeys. done. }
  destruct (group_loop_spec keys m runs [] [] Htup) as (d & Hloop & _ & Hpaths);
    [constructor|].
  destruct (foldl_add_new_spec (group_tuple keys) runs [] (NoDup_nil_2))
    as [Hnd Hin].
  set (group_vals := foldl (λ acc c, add_new (group_tuple keys c) acc) [] runs)
    in *.
  set (bucket := λ t, filter (λ c, group_tuple keys c = t) runs).
  assert (∀ t, t ∈ group_vals ↔ ∃ c, c ∈ runs ∧ group_tuple keys c = t)
    as Hvals.
  { intros t. rewrite Hin. split; [|auto].
    intros [H|?]; [by inversion H|done]. }
  exists ((λ t, (t, bucket t)) <$> group_vals), group_vals.
  assert (dict_of ((λ t, (t, bucket t)) <$> group_vals)
          = (λ t, (t, bucket t)) <$> group_vals) as Hdict.
  { unfold dict_of. rewrite dict_update_fresh; [done|]. simpl.
    assert (((λ t, (t, bucket t)) <$> group_vals).*1 = group_vals) as ->;
      [|done].
    generalize group_vals. intros l.
    induction l as [|t l IH]; [done|]. simpl. f_equal. exact IH. }
  split_and!; [|done|done|done|].
  - unfold _group_by. rewrite Hloop. cbn [bind].
    rewrite (comprehension_ok _ (λ t, (t, bucket t)));
      [cbn [bind]; by rewrite Hdict|].
    intros t Ht. apply Hvals in Ht as (c & Hc & Ht).
    assert (length t = S m) as Hlen.
    { rewrite <- Ht. eapply (proj1 (Forall_forall _ _) Htup c Hc). }
    destruct t as [|key ks]; [done|]. injection Hlen as Hlen.
    assert (path_get d key ks = Some (bucket (key :: ks))) as Hpath.
    { rewrite (Hpaths key ks Hlen), path_get_nil.
      fold (bucket (key :: ks)).
      assert (c ∈ bucket (key :: ks)) as Hmem
        by (apply list_elem_of_filter; done).
      destruct (bucket (key :: ks)); [by inversion Hmem|done]. }
    by rewrite (reduce_get_path ks d key _ Hpath).
  - unfold dict_values. rewrite <- list_fmap_compose.
    apply (buckets_permutation (group_tuple keys) runs group_vals Hnd).
    intros c Hc. apply Hvals. by exists c.
Qed.

End group_by_partition.

(** A reading of [str] on the values of the example below. *)
Definition str_text (v : value) : string :=
  match v with
  | VStr s => s
  | _ => "?"
  end.

Definition optimiser_run (name : string) (seed : string) : Config.t :=
  {| Config.flattened := [("optimiser", VStr name); ("seed", VStr seed)];
     Config.lazy := [("optimiser", Config.Eager (VStr name));
                     ("seed", Config.Eager (VStr seed))];
     Config.lazydata_dict := [] |}.

Definition optimiser_runs : ConfigList :=
  [optimiser_run "sgd" "1"; optimiser_run "adam" "1"; optimiser_run "sgd" "2"].

Lemma group_by_partitions_witness :
  ∃ grouped group_vals,
    _group_by str_text optimiser_runs ["optimiser"]
    = Ok (grouped, ["optimiser"], group_vals)
    ∧ NoDup group_vals
    ∧ (∀ t, t ∈ group_vals
            ↔ ∃ c, c ∈ optimiser_runs
                   ∧ group_tuple str_text ["optimiser"] c = t)
    ∧ grouped
      = (λ t, (t, filter (λ c, group_tuple str_text ["optimiser"] c = t)
                    optimiser_runs)) <$> group_vals
    ∧ mjoin (dict_values grouped) ≡ₚ optimiser_runs.
Proof.
  apply (group_by_partitions str_text optimiser_runs ["optimiser"]);
    [discriminate|].
  repeat constructor;
    intros k Hk; apply list_elem_of_singleton in Hk as ->;
    eexists; (split; [reflexivity|discriminate]).
Defined.

(** * Further properties of the code *)

(** ** The allocator: outcome of one allocation *)

Section allocation_outcome.
Import Allocator.

(** X2.  An allocation with no requested id has two outcomes only, decided
    by the name of the next id [m+1], [m] being the maximum existing run
    id: when nothing holds the name, the directory is created and
    [(m+1, root/str(m+1))] returned; when something holds it -- which is
    then not a directory -- the 1001 attempts all fail, [FileExistsError]
    is raised and the root is left as it was. *)
Theorem make_run_dir_outcome (root_path : string) (root : entries) :
  root !! str (_maximum_existing_run_id root + 1) ≠ Some Dir
  ∧ _make_run_dir None root_path root
    = match root !! str (_maximum_existing_run_id root + 1) with
      | None =>
          (Ok ((_maximum_existing_run_id root + 1)%N,
               path_join root_path (str (_maximum_existing_run_id root + 1))),
           <[str (_maximum_existing_run_id root + 1) := Dir]> root)
      | Some _ => (Raise FileExistsError, root)
      end.
Proof.
  pose proof (maximum_existing_is_max root) as Hmax.
  set (m := _maximum_existing_run_id root) in *.
  split.
  - intros Hdir. destruct Hmax as [Hub _].
    assert (m + 1 <= m)%N; [|lia].
    apply Hub. exists (str (m + 1)). by rewrite str_isdigit, int_str.
  - unfold _make_run_dir.
    destruct (root !! str (m + 1)) as [k|] eqn:Hname.
    + by rewrite (attempt_taken 1000 root m k Hmax Hname).
    + by rewrite (attempt_free 1000 root m Hmax Hname).
Qed.

(** X3.  An allocation that returns gives a fresh id: nothing held its
    name, the only change to the root is the new directory, every run id
    present before is strictly smaller, and the id is the maximum existing
    run id afterwards. *)
Theorem make_run_dir_fresh (root_path : string) (root root' : entries)
    (i : N) (log_dir : string) :
  _make_run_dir None root_path root = (Ok (i, log_dir), root') →
  root !! str i = None
  ∧ root' = <[str i := Dir]> root
  ∧ log_dir = path_join root_path (str i)
  ∧ (∀ n, is_run_id root n → (n < i)%N)
  ∧ _maximum_existing_run_id root' = i.
Proof.
  intros Hrun.
  pose proof (maximum_existing_is_max root) as Hmax.
  set (m := _maximum_existing_run_id root) in *.
  unfold _make_run_dir in Hrun.
  destruct (root !! str (m + 1)) as [k|] eqn:Hname.
  - by rewrite (attempt_taken 1000 root m k Hmax Hname) in Hrun.
  - rewrite (attempt_free 1000 root m Hmax Hname) in Hrun.
    injection Hrun as <- <- <-. split_and!; [done..| |].
    + intros n Hn. destruct Hmax as [Hub _]. specialize (Hub n Hn). lia.
    + apply maximum_existing_eq. by apply is_max_id_insert.
Qed.

Lemma make_run_dir_fresh_witness :
  let root : entries := <["4" := Dir]> (<["notes" := File]> ∅) in
  root !! str 5 = None
  ∧ <["5" := Dir]> root = <[str 5 := Dir]> root
  ∧ "logs/5" = path_join "logs" (str 5)
  ∧ (∀ n, is_run_id root n → (n < 5)%N)
  ∧ _maximum_existing_run_id (<["5" := Dir]> root) = 5%N.
Proof.
  intros root.
  apply (make_run_dir_fresh "logs" root (<["5" := Dir]> root) 5 "logs/5").
  vm_compute. reflexivity.
Defined.

(** X4.  Only directories count: adding an entry that is not a directory
    under a new name, whatever the name, does not change the maximum
    existing run id, and neither does a new directory whose name is not
    made of digits. *)
Theorem maximum_existing_ignores (root : entries) (name : string) (k : kind) :
  root !! name = None →
  k = File ∨ isdigit name = false →
  _maximum_existing_run_id (<[name := k]> root)
  = _maximum_existing_run_id root.
Proof.
  intros Hnew Hk. apply maximum_existing_eq.
  assert (∀ n, is_run_id (<[name := k]> root) n ↔ is_run_id root n) as Hids.
  { intros n. split; intros (d & Hd & Hdigit & Hint); exists d.
    - destruct (decide (d = name)) as [->|Hne].
      + rewrite lookup_insert_eq in Hd. injection Hd as ->.
        destruct Hk; congruence.
      + by rewrite lookup_insert_ne in Hd.
    - split; [|done]. rewrite lookup_insert_ne; [done|congruence]. }
  destruct (maximum_existing_is_max root) as [Hub Hin]. split.
  - intros n Hn. by apply Hub, Hids.
  - destruct Hin as [?|Hin]; [by left|]. right. by apply Hids.
Qed.

Lemma maximum_existing_ignores_witness :
  _maximum_existing_run_id (<["9" := File]> (<["4" := Dir]> ∅))
  = _maximum_existing_run_id (<["4" := Dir]> ∅).
Proof.
  apply (maximum_existing_ignores (<["4" := Dir]> ∅) "9" File);
    [vm_compute; reflexivity|by left].
Defined.

(** X5.  A requested id is not reserved: with an id given,
    [_make_run_dir] returns it with its path without creating the run
    directory or looking at the root, so when the id is the next free one,
    a following allocation with no id returns the same id and the same
    path. *)
Theorem requested_id_not_reserved (root_path : string) (root : entries)
    (i : N) :
  i = (_maximum_existing_run_id root + 1)%N →
  root !! str i = None →
  ∃ log_dir root',
    _make_run_dir (Some i) root_path root = (Ok (i, log_dir), root)
    ∧ _make_run_dir None root_path root = (Ok (i, log_dir), root').
Proof.
  intros -> Hfree. eexists _, _. split; [reflexivity|].
  unfold _make_run_dir.
  by rewrite (attempt_free 1000 root _ (maximum_existing_is_max root) Hfree).
Qed.

Lemma requested_id_not_reserved_witness :
  ∃ log_dir root',
    _make_run_dir (Some 5%N) "logs" (<["4" := Dir]> ∅)
    = (Ok (5%N, log_dir), <["4" := Dir]> ∅)
    ∧ _make_run_dir None "logs" (<["4" := Dir]> ∅)
      = (Ok (5%N, log_dir), root').
Proof.
  apply (requested_id_not_reserved "logs" (<["4" := Dir]> ∅) 5);
    vm_compute; reflexivity.
Defined.

End allocation_outcome.

(** ** What a read of a metrics file returns *)

(** The lines up to the first one that does not parse. *)
Fixpoint parsed_lines (lines : json_file) : list (gmap string float) :=
  match lines with
  | Some cur_dict :: lines' => cur_dict :: parsed_lines lines'
  | _ => []
  end.

(** The values of the field [key] in the objects that have it, in order. *)
Definition column (key : string) (objects : list (gmap string float))
  : list float :=
  omap (λ cur_dict : gmap string float, cur_dict !! key) objects.

Section loading.

Lemma full_key_inj file_name key key' :
  file_name ++ "." ++ key = file_name ++ "." ++ key' → key = key'.
Proof. intros H%string_app_inv_head. by injection H. Qed.

Lemma add_line_lookup file_name cur_dict out_dict key :
  add_line file_name cur_dict out_dict !! (file_name ++ "." ++ key)
  = match cur_dict !! key with
    | Some x =>
        Some (app (default [] (out_dict !! (file_name ++ "." ++ key))) [x])
    | None => out_dict !! (file_name ++ "." ++ key)
    end.
Proof.
  unfold add_line.
  apply (map_fold_weak_ind
           (λ r (m : gmap string float),
              r !! (file_name ++ "." ++ key)
              = match m !! key with
                | Some x =>
                    Some (app (default []
                                 (out_dict !! (file_name ++ "." ++ key))) [x])
                | None => out_dict !! (file_name ++ "." ++ key)
                end)).
  - by rewrite lookup_empty.
  - intros i x m r Hi IH.
    destruct (decide (i = key)) as [->|Hne].
    + rewrite Hi in IH. rewrite lookup_insert_eq, IH.
      destruct (out_dict !! (file_name ++ "." ++ key));
        by rewrite lookup_insert_eq.
    + assert (file_name ++ "." ++ i ≠ file_name ++ "." ++ key) as Hfull.
      { intros H. by apply full_key_inj in H. }
      rewrite (lookup_insert_ne m) by done. rewrite <- IH.
      destruct (r !! (file_name ++ "." ++ i)); by rewrite lookup_insert_ne.
Qed.

Lemma add_line_keys file_name cur_dict out_dict k :
  is_Some (add_line file_name cur_dict out_dict !! k) →
  is_Some (out_dict !! k) ∨ ∃ key, k = file_name ++ "." ++ key.
Proof.
  unfold add_line.
  apply (map_fold_weak_ind
           (λ r (m : gmap string float),
              is_Some (r !! k) →
              is_Some (out_dict !! k) ∨ ∃ key, k = file_name ++ "." ++ key));
    [by left|].
  intros i x m r _ IH Hk.
  destruct (decide (k = file_name ++ "." ++ i)) as [->|Hne]; [right; eauto|].
  apply IH. destruct (r !! (file_name ++ "." ++ i));
    by rewrite lookup_insert_ne in Hk.
Qed.

Lemma load_lines_lookup file_name key lines : ∀ out_dict,
  load_lines file_name lines out_dict !! (file_name ++ "." ++ key)
  = match column key (parsed_lines lines) with
    | [] => out_dict !! (file_name ++ "." ++ key)
    | l => Some (app (default [] (out_dict !! (file_name ++ "." ++ key))) l)
    end.
Proof.
  induction lines as [|[cur_dict|] lines IH]; intros out_dict; [done| |done].
  cbn [load_lines parsed_lines column omap list_omap].
  fold (column key (parsed_lines lines)).
  rewrite IH, add_line_lookup.
  destruct (cur_dict !! key) as [x|]; [|done].
  simpl. destruct (column key (parsed_lines lines)) as [|y l]; [done|].
  simpl. by rewrite <- app_assoc.
Qed.

Lemma load_lines_keys file_name k lines : ∀ out_dict,
  is_Some (load_lines file_name lines out_dict !! k) →
  is_Some (out_dict !! k) ∨ ∃ key, k = file_name ++ "." ++ key.
Proof.
  induction lines as [|[cur_dict|] lines IH]; intros out_dict Hk;
    [by left| |by left].
  destruct (IH _ Hk) as [Hk'|?]; [|by right].
  by apply add_line_keys in Hk'.
Qed.

Lemma load_dict_lookup json_file_name file_name w lines key :
  files w !! json_file_name = Some lines →
  (_load_dict_from_json json_file_name file_name w).1
    !! (file_name ++ "." ++ key)
  = match column key (parsed_lines lines) with
    | [] => None
    | l => Some l
    end.
Proof.
  intros Hfile. unfold _load_dict_from_json. rewrite Hfile. simpl.
  by rewrite load_lines_lookup, lookup_empty.
Qed.

(** X6.  The dictionary read from a metrics file holds, under
    [file_name.key], the values of [key] in the lines that have it, in the
    order of the lines; the lines count up to the first one that does not
    parse, whose error is swallowed; a field no counted line has is absent,
    and so is every key that is not of the form [file_name.key]. *)
Theorem load_dict_columns (json_file_name file_name : string) (w : world)
    (lines : json_file) :
  files w !! json_file_name = Some lines →
  (∀ key,
     (_load_dict_from_json json_file_name file_name w).1
       !! (file_name ++ "." ++ key)
     = match column key (parsed_lines lines) with
       | [] => None
       | l => Some l
       end)
  ∧ (∀ k,
       is_Some ((_load_dict_from_json json_file_name file_name w).1 !! k) →
       ∃ key, k = file_name ++ "." ++ key).
Proof.
  intros Hfile. split.
  - intros key. by apply load_dict_lookup.
  - unfold _load_dict_from_json. rewrite Hfile. simpl.
    intros k Hk. apply load_lines_keys in Hk as [Hk|?]; [|done].
    rewrite lookup_empty in Hk. by destruct Hk.
Qed.

(** A metrics file whose second line is cut short. *)
Definition truncated_world : world :=
  {| files :=
       {[ "run/metrics.json" :=
            [Some {[ "loss" := 0.5%float ]}; None;
             Some {[ "loss" := 0.25%float ]}] ]};
     reads := [] |}.

Lemma load_dict_columns_witness :
  (_load_dict_from_json "run/metrics.json" "metrics" truncated_world).1
    !! "metrics.loss" = Some [0.5%float]
  ∧ ∀ k,
      is_Some ((_load_dict_from_json "run/metrics.json" "metrics"
                  truncated_world).1 !! k) →
      ∃ key, k = "metrics" ++ "." ++ key.
Proof.
  destruct (load_dict_columns "run/metrics.json" "metrics" truncated_world
              [Some {[ "loss" := 0.5%float ]}; None;
               Some {[ "loss" := 0.25%float ]}]) as [Hcolumn Hkeys].
  - vm_compute. reflexivity.
  - split; [exact (Hcolumn "loss")|exact Hkeys].
Defined.

Lemma get_data_after self key w :
  ∃ d,
    LazyData._data (LazyData.get_data self key w).1.2 = Some d
    ∧ key ∈ LazyData.used_keys (LazyData.get_data self key w).1.2
    ∧ (LazyData.get_data self key w).1.1
      = match d !! key with
        | Some l => Ok (VSeq l)
        | None => Raise (KeyError key)
        end.
Proof.
  unfold LazyData.get_data.
  assert (∃ d, LazyData._data (LazyData.reload self key w).1 = Some d
               ∧ key ∈ LazyData.used_keys (LazyData.reload self key w).1)
    as (d1 & Hd1 & Hused1).
  { unfold LazyData.reload.
    destruct (_load_dict_from_json _ _ w) as [d w']. simpl.
    exists d. split; [done|]. set_solver. }
  destruct (LazyData._data self) as [d|] eqn:Hd.
  - destruct (decide (key ∈ LazyData.used_keys self)) as [Hin|Hin].
    + exists d. rewrite Hd. by destruct (d !! key).
    + destruct (LazyData.reload self key w) as [self1 w1]. simpl in *.
      exists d1. rewrite Hd1. by destruct (d1 !! key).
  - destruct (LazyData.reload self key w) as [self1 w1]. simpl in *.
    exists d1. rewrite Hd1. by destruct (d1 !! key).
Qed.

Lemma get_data_hit self key w d :
  LazyData._data self = Some d →
  key ∈ LazyData.used_keys self →
  LazyData.get_data self key w
  = (match d !! key with
     | Some l => Ok (VSeq l)
     | None => Raise (KeyError key)
     end, self, w).
Proof.
  intros Hd Hused. unfold LazyData.get_data. rewrite Hd.
  rewrite decide_True by done. rewrite Hd. by destruct (d !! key).
Qed.

(** X7.  A field whose file is missing reads as an absent key: the error
    of [open] is swallowed by the loader, which returns an empty
    dictionary, so every read raises [KeyError] on the key. *)
Theorem get_data_missing_file (self : LazyData.t) (key : string) (w : world) :
  files w !! LazyData.path self = None →
  cache_of_file self w →
  (LazyData.get_data self key w).1.1 = Raise (KeyError key).
Proof.
  intros Hfile Hcache.
  assert (backing self w = ∅) as Hempty.
  { unfold backing, _load_dict_from_json. by rewrite Hfile. }
  destruct (LazyData._data self) as [d|] eqn:Hd.
  - destruct (decide (key ∈ LazyData.used_keys self)) as [Hin|Hin].
    + rewrite (get_data_hit _ _ _ _ Hd Hin). simpl.
      assert (d !! key = None) as ->; [|done].
      specialize (Hcache d Hd). rewrite Hempty in Hcache.
      eapply lookup_weaken_None; [apply lookup_empty|done].
    + destruct (get_data_reload self key w Hin) as (self' & w' & -> & _).
      by rewrite Hempty, lookup_empty.
  - unfold LazyData.get_data, LazyData.reload. rewrite Hd.
    fold (backing self w).
    unfold backing in Hempty.
    destruct (_load_dict_from_json _ _ w) as [d w'] eqn:E. simpl in *.
    subst d. by rewrite lookup_empty.
Qed.

Lemma get_data_missing_file_witness :
  (LazyData.get_data (LazyData.__init__ "other" "metrics") "metrics.loss"
     example_world).1.1
  = Raise (KeyError "metrics.loss").
Proof.
  apply (get_data_missing_file (LazyData.__init__ "other" "metrics")
           "metrics.loss" example_world).
  - vm_compute. reflexivity.
  - apply cache_of_file_init.
Defined.

(** X8.  A read is cached: reading the same key again returns the same
    result -- value or [KeyError] -- opens no file and changes nothing. *)
Theorem get_data_cached (self : LazyData.t) (key : string) (w : world) :
  let '(r, self', w') := LazyData.get_data self key w in
  LazyData.get_data self' key w' = (r, self', w').
Proof.
  destruct (get_data_after self key w) as (d & Hd & Hused & Hr).
  destruct (LazyData.get_data self key w) as [[r self'] w']. simpl in *.
  by rewrite (get_data_hit _ _ _ _ Hd Hused), Hr.
Qed.

(** X9.  [free_unused] after a read of a key always succeeds, leaves in the
    cache only keys that were read, and does not cost the key its cache: a
    further read of it returns the same result and opens no file. *)
Theorem read_free_read (self : LazyData.t) (key : string) (w : world) :
  let '(r, self1, w1) := LazyData.get_data self key w in
  ∃ self2 d2,
    LazyData.free_unused self1 = (Ok (), self2)
    ∧ LazyData._data self2 = Some d2
    ∧ dom d2 ⊆ LazyData.used_keys self2
    ∧ LazyData.get_data self2 key w1 = (r, self2, w1).
Proof.
  destruct (get_data_after self key w) as (d & Hd & Hused & Hr).
  destruct (LazyData.get_data self key w) as [[r self1] w1]. simpl in *.
  destruct (free_unused_spec _ _ Hd) as (self2 & Hfree & Hd2 & Hused2 & _).
  exists self2, (filter (λ kv, kv.1 ∈ LazyData.used_keys self1) d).
  split_and!; [done..| |].
  - intros k [l Hk]%elem_of_dom.
    apply map_lookup_filter_Some in Hk as [_ Hk]. by rewrite Hused2.
  - rewrite (get_data_hit _ _ _ _ Hd2) by (by rewrite Hused2). rewrite Hr.
    destruct (d !! key) as [l|] eqn:Hl.
    + by rewrite (proj2 (map_lookup_filter_Some _ _ _ _) (conj Hl Hused)).
    + assert (filter (λ kv : string * list float,
                        kv.1 ∈ LazyData.used_keys self1) d !! key = None)
        as ->; [|done].
      apply map_lookup_filter_None. by left.
Qed.

End loading.

(** ** Records: construction and [update] *)

Section records.

Lemma dict_get_fmap_eager (d : dict string value) key :
  dict_get ((λ kv : string * value, (kv.1, Config.Eager kv.2)) <$> d) key
  = Config.Eager <$> dict_get d key.
Proof.
  induction d as [|[k v] d IH]; [done|].
  simpl. destruct (decide (k = key)); [done|apply IH].
Qed.

(** X10.  [Config(flattened_dict, dir)] returns exactly when no value of the
    dictionary is the string [LAZYDATA]: the record then has the keys of
    the dictionary, in order, and reads each of them, without opening a
    file, as the dictionary has it ([KeyError] for any other key).  With a
    [LAZYDATA] value the constructor raises [AttributeError]. *)
Theorem config_init_eager (flattened_dict : dict string value)
    (parend_dir : string) :
  (Forall (λ kv, kv.2 ≠ Config.LAZYDATA) flattened_dict →
   ∃ c,
     Config.__init__ flattened_dict parend_dir = Ok c
     ∧ Config.flattened c = flattened_dict
     ∧ Config.keys c = dict_keys flattened_dict
     ∧ ∀ key w,
         Config.__getitem__ c key w
         = (dict_item (KeyError key) flattened_dict key, c, w))
  ∧ (Exists (λ kv, kv.2 = Config.LAZYDATA) flattened_dict →
     Config.__init__ flattened_dict parend_dir = Raise AttributeError).
Proof.
  set (lazy_key := λ kv : string * value,
         match kv.2 with
         | VStr s => if decide (s = "LAZYDATA") then Some kv.1 else None
         | _ => None
         end).
  assert (∀ kv, lazy_key kv = None ↔ kv.2 ≠ Config.LAZYDATA) as Hkey.
  { intros [k v]. unfold lazy_key, Config.LAZYDATA. simpl.
    destruct v as [|s| | | | |]; try (split; [discriminate|done]).
    case_decide; subst; split; try done; congruence. }
  split.
  - intros Hnone.
    assert (omap lazy_key flattened_dict = []) as Hall.
    { induction Hnone as [|kv d Hkv _ IH]; [done|].
      simpl. by rewrite (proj2 (Hkey kv) Hkv). }
    unfold Config.__init__. fold lazy_key. rewrite Hall.
    eexists. split_and!; [done|done| |].
    + unfold Config.keys, dict_keys. simpl. rewrite <- list_fmap_compose.
      done.
    + intros key w. unfold Config.__getitem__, dict_item. simpl.
      rewrite dict_get_fmap_eager. by destruct (dict_get flattened_dict key).
  - intros Hsome.
    assert (omap lazy_key flattened_dict ≠ []) as Hall.
    { induction Hsome as [kv d Hkv|kv d _ IH]; simpl.
      - destruct (lazy_key kv) eqn:E; [done|]. by apply Hkey in E.
      - by destruct (lazy_key kv). }
    unfold Config.__init__. fold lazy_key.
    by destruct (omap lazy_key flattened_dict).
Qed.

Lemma dict_get_update_fresh {V} (new : dict string V) : ∀ d key,
  dict_get new key = None →
  dict_get (dict_update d new) key = dict_get d key.
Proof.
  unfold dict_update.
  induction new as [|[k v] new IH]; intros d key; simpl; [done|].
  destruct (decide (k = key)) as [->|Hne]; [done|].
  intros Hnew. rewrite IH by done. by apply dict_get_set_ne.
Qed.

Lemma dict_get_update_new {V} (new : dict string V) : ∀ d key v,
  NoDup (dict_keys new) →
  dict_get new key = Some v →
  dict_get (dict_update d new) key = Some v.
Proof.
  unfold dict_update, dict_keys.
  induction new as [|[k v'] new IH]; intros d key v; simpl; [done|].
  intros [Hk Hnd]%NoDup_cons.
  destruct (decide (k = key)) as [->|Hne].
  - intros [= ->].
    assert (dict_get new key = None) as Hfresh.
    { destruct (dict_get new key) as [v0|] eqn:E; [|done].
      apply dict_get_elem_of in E. destruct Hk.
      by apply (list_elem_of_fmap_2 fst) in E. }
    fold (dict_update (dict_set d key v) new).
    rewrite (dict_get_update_fresh _ _ _ Hfresh). apply dict_get_set_eq.
  - by apply IH.
Qed.

(** X11.  After [update(new_dict)], a key of [new_dict] reads as its new
    value, eagerly -- no file is opened even where the key was lazy before
    -- and the flattened view has it too; a key outside [new_dict] reads
    exactly as it did before the update, lazy loading included; the
    [LazyData] objects are untouched. *)
Theorem update_then_read (c : Config.t) (new_dict : dict string value)
    (key : string) (w : world) :
  NoDup (dict_keys new_dict) →
  Config.lazydata_dict (Config.update c new_dict) = Config.lazydata_dict c
  ∧ match dict_get new_dict key with
    | Some v =>
        Config.__getitem__ (Config.update c new_dict) key w
        = (Ok v, Config.update c new_dict, w)
        ∧ dict_get (Config.flattened (Config.update c new_dict)) key = Some v
    | None =>
        Config.__getitem__ (Config.update c new_dict) key w
        = (let '(r, c', w') := Config.__getitem__ c key w in
           (r, Config.update c' new_dict, w'))
        ∧ dict_get (Config.flattened (Config.update c new_dict)) key
          = dict_get (Config.flattened c) key
    end.
Proof.
  intros Hnd. split; [done|].
  destruct (dict_get new_dict key) as [v|] eqn:Hkey.
  - split.
    + apply getitem_eager. simpl. apply dict_get_update_new.
      * unfold dict_keys in *. rewrite <- list_fmap_compose. done.
      * by rewrite dict_get_fmap_eager, Hkey.
    + simpl. by apply dict_get_update_new.
  - split; [|by apply dict_get_update_fresh].
    unfold Config.__getitem__ at 1. simpl.
    rewrite dict_get_update_fresh by (by rewrite dict_get_fmap_eager, Hkey).
    unfold Config.__getitem__.
    destruct (dict_get (Config.lazy c) key) as [[v|parent_key]|]; [done| |done].
    destruct (dict_get (Config.lazydata_dict c) parent_key) as [data|];
      [|done].
    by destruct (LazyData.get_data data key w) as [[r data'] w'].
Qed.

Lemma update_then_read_witness :
  Config.lazydata_dict
    (Config.update (lazy_run "run") [("metrics.loss", VNum 1)])
  = Config.lazydata_dict (lazy_run "run")
  ∧ Config.__getitem__
      (Config.update (lazy_run "run") [("metrics.loss", VNum 1)])
      "metrics.loss" curves_world
    = (Ok (VNum 1),
       Config.update (lazy_run "run") [("metrics.loss", VNum 1)],
       curves_world)
  ∧ dict_get
      (Config.flattened
         (Config.update (lazy_run "run") [("metrics.loss", VNum 1)]))
      "metrics.loss"
    = Some (VNum 1).
Proof.
  apply (update_then_read (lazy_run "run") [("metrics.loss", VNum 1)]
           "metrics.loss" curves_world).
  apply NoDup_singleton.
Defined.

End records.

(** ** What [config_diff] returns on eager records *)

(** Every entry of the record is a value: nothing is loaded lazily. *)
Definition eager (c : Config.t) : Prop :=
  Forall (λ kv : string * Config.lazy_entry, ∃ v, kv.2 = Config.Eager v)
    (Config.lazy c).

(** Every entry of the record is a value that is not a numpy array. *)
Definition plain (c : Config.t) : Prop :=
  Forall (λ kv : string * Config.lazy_entry,
            ∃ v, kv.2 = Config.Eager v ∧ ∀ a, v ≠ VArr a)
    (Config.lazy c).

(** The test of [config_diff] on one key of [config]: the key is added
    unless it starts with the prefix, is a key of the first record and has
    the same value in both. *)
Definition reported (start_key : string) (ref_dict config : Config.t)
    (key : string) : Prop :=
  starts_with key start_key = false
  ∨ dict_get (Config.lazy ref_dict) key = None
  ∨ ∃ a b,
      dict_get (Config.lazy ref_dict) key = Some (Config.Eager a)
      ∧ dict_get (Config.lazy config) key = Some (Config.Eager b)
      ∧ value_ne a b = Ok true.

Section diff_eager.

Lemma elem_of_dict_keys {V} (d : dict string V) k :
  k ∈ dict_keys d ↔ is_Some (dict_get d k).
Proof.
  unfold dict_keys. induction d as [|[k1 v1] d IH]; simpl.
  - split; [by inversion 1|by intros [? ?]].
  - rewrite elem_of_cons, IH. destruct (decide (k1 = k)) as [->|Hne].
    + split; [eauto|by left].
    + split; [by intros [?|?]|by right].
Qed.

Lemma eager_lookup c key :
  eager c →
  dict_get (Config.lazy c) key = None
  ∨ ∃ v, dict_get (Config.lazy c) key = Some (Config.Eager v).
Proof.
  intros Hc. destruct (dict_get (Config.lazy c) key) as [e|] eqn:E; [|by left].
  right.
  destruct (dict_get_Forall (λ e, ∃ v, e = Config.Eager v) _ _ _ Hc E)
    as [v ->]. eauto.
Qed.

Lemma getitem_absent c key w :
  dict_get (Config.lazy c) key = None →
  Config.__getitem__ c key w = (Raise (KeyError key), c, w).
Proof. intros H. unfold Config.__getitem__. by rewrite H. Qed.

Lemma diff_key_eager start_key key ref_dict config diff_keys w
    diff_keys' ref_dict' config' w' :
  eager ref_dict → eager config →
  key ∈ Config.keys config →
  diff_key start_key key ref_dict config diff_keys w
  = (Ok diff_keys', ref_dict', config', w') →
  ref_dict' = ref_dict ∧ config' = config ∧ w' = w
  ∧ ((reported start_key ref_dict config key
      ∧ diff_keys' = add_new key diff_keys)
     ∨ (¬ reported start_key ref_dict config key ∧ diff_keys' = diff_keys)).
Proof.
  intros Href Hconfig Hkey. unfold diff_key, Config.__contains__.
  apply elem_of_dict_keys in Hkey as [e He].
  destruct (eager_lookup config key Hconfig) as [Hb|[b Hb]]; [congruence|].
  destruct (eager_lookup ref_dict key Href) as [Ha|[a Ha]].
  - rewrite (getitem_absent _ _ _ Ha). simpl.
    intros [= <- <- <- <-]. split_and!; [done..|]. left. split; [|done].
    right. by left.
  - rewrite (getitem_eager _ _ _ _ Ha). simpl.
    destruct (starts_with key start_key) eqn:Hstart.
    + rewrite (getitem_eager _ _ _ _ Ha), (getitem_eager _ _ _ _ Hb).
      destruct (value_ne a b) as [[]|] eqn:Hne; intros [= <- <- <- <-];
        (split_and!; [done..|]).
      * left. split; [|done]. right. right. eauto.
      * right. split; [|done].
        intros [?|[?|(a' & b' & Ha' & Hb' & Hne')]]; [congruence..|].
        congruence.
    + intros [= <- <- <- <-]. split_and!; [done..|]. left. split; [|done].
      by left.
Qed.

Lemma diff_keys_of_eager start_key ref_dict config keys :
  eager ref_dict → eager config →
  ∀ diff_keys w diff_keys' ref_dict' config' w',
    keys ⊆ Config.keys config →
    diff_keys_of start_key keys ref_dict config diff_keys w
    = (Ok diff_keys', ref_dict', config', w') →
    ref_dict' = ref_dict ∧ config' = config ∧ w' = w
    ∧ (NoDup diff_keys → NoDup diff_keys')
    ∧ ∀ key,
        key ∈ diff_keys'
        ↔ key ∈ diff_keys
          ∨ (key ∈ keys ∧ reported start_key ref_dict config key).
Proof.
  intros Href Hconfig.
  induction keys as [|key keys IH];
    intros diff_keys w diff_keys' ref_dict' config' w' Hkeys; simpl.
  - intros [= <- <- <- <-]. split_and!; [done..|].
    intros key. split; [auto|]. intros [?|[Hin _]]; [done|by inversion Hin].
  - destruct (diff_key start_key key ref_dict config diff_keys w)
      as [[[[dk1|e] r1] c1] w1] eqn:Hstep; [|done].
    destruct (diff_key_eager _ _ _ _ _ _ _ _ _ _ Href Hconfig
                (Hkeys key (list_elem_of_here _ _)) Hstep)
      as (-> & -> & -> & Hdk1).
    intros Hrest.
    destruct (IH _ _ _ _ _ _
                (λ k Hk, Hkeys k (list_elem_of_further _ _ _ Hk)) Hrest)
      as (-> & -> & -> & Hnd & Hmem).
    split_and!; [done..| |].
    + intros Hnd0. apply Hnd.
      destruct Hdk1 as [[_ ->]|[_ ->]]; [by apply NoDup_add_new|done].
    + intros k. rewrite Hmem, elem_of_cons.
      destruct Hdk1 as [[Hrep ->]|[Hrep ->]].
      * rewrite elem_of_add_new. split.
        -- intros [[->|?]|[? ?]]; auto.
        -- intros [?|[[->|?] ?]]; auto.
      * split.
        -- intros [?|[? ?]]; auto.
        -- intros [?|[[->|?] ?]]; [auto|done|auto].
Qed.

Lemma diff_configs_eager start_key ref_dict rest :
  eager ref_dict → Forall eager rest →
  ∀ diff_keys w diff_keys' ref_dict' rest' w',
    diff_configs start_key ref_dict rest diff_keys w
    = (Ok diff_keys', ref_dict', rest', w') →
    ref_dict' = ref_dict ∧ rest' = rest ∧ w' = w
    ∧ (NoDup diff_keys → NoDup diff_keys')
    ∧ ∀ key,
        key ∈ diff_keys'
        ↔ key ∈ diff_keys
          ∨ ∃ config,
              config ∈ rest ∧ key ∈ Config.keys config
              ∧ reported start_key ref_dict config key.
Proof.
  intros Href Hrest.
  induction Hrest as [|config rest Hconfig _ IH];
    intros diff_keys w diff_keys' ref_dict' rest' w'; simpl.
  - intros [= <- <- <- <-]. split_and!; [done..|].
    intros key. split; [auto|].
    intros [?|(config & Hin & _)]; [done|by inversion Hin].
  - destruct (diff_keys_of start_key (Config.keys config) ref_dict config
                diff_keys w) as [[[[dk1|e] r1] c1] w1] eqn:Hkeys; [|done].
    destruct (diff_keys_of_eager _ _ _ _ Href Hconfig _ _ _ _ _ _
                (λ k Hk, Hk) Hkeys) as (-> & -> & -> & Hnd1 & Hmem1).
    destruct (diff_configs start_key ref_dict rest dk1 w)
      as [[[r r2] rest2] w2] eqn:Hloop.
    intros [= -> <- <- <-].
    destruct (IH _ _ _ _ _ _ Hloop) as (-> & -> & -> & Hnd2 & Hmem2).
    split_and!; [done..|auto|].
    intros key. rewrite Hmem2, Hmem1. split.
    + intros [[?|[? ?]]|(c & Hc & ? & ?)]; [auto| |].
      * right. exists config. split; [constructor|done].
      * right. exists c. split; [by constructor|done].
    + intros [?|(c & [->|Hc]%elem_of_cons & ? & ?)]; [auto|auto|].
      right. by exists c.
Qed.

Lemma plain_eager c : plain c → eager c.
Proof.
  intros Hc. eapply Forall_impl; [exact Hc|].
  intros kv (v & Hv & _). eauto.
Qed.

Lemma plain_lookup c key v :
  plain c → dict_get (Config.lazy c) key = Some (Config.Eager v) →
  ∀ a, v ≠ VArr a.
Proof.
  intros Hc Hv.
  destruct (dict_get_Forall
              (λ e, ∃ v, e = Config.Eager v ∧ ∀ a, v ≠ VArr a) _ _ _ Hc Hv)
    as (v' & [= <-] & Hplain).
  done.
Qed.

Lemma value_ne_plain a b :
  (∀ l, a ≠ VArr l) → (∀ l, b ≠ VArr l) → ∃ r, value_ne a b = Ok r.
Proof.
  intros Ha Hb.
  destruct a as [| | | |la| |], b as [| | | |lb| |]; simpl; eauto;
    solve [by destruct (Ha la) | by destruct (Hb lb)].
Qed.

Lemma diff_key_returns start_key key ref_dict config diff_keys w :
  plain ref_dict → plain config →
  key ∈ Config.keys config →
  ∃ diff_keys',
    diff_key start_key key ref_dict config diff_keys w
    = (Ok diff_keys', ref_dict, config, w).
Proof.
  intros Href Hconfig Hkey. unfold diff_key, Config.__contains__.
  apply elem_of_dict_keys in Hkey as [e He].
  destruct (eager_lookup config key (plain_eager _ Hconfig)) as [Hb|[b Hb]];
    [congruence|].
  destruct (eager_lookup ref_dict key (plain_eager _ Href)) as [Ha|[a Ha]].
  - rewrite (getitem_absent _ _ _ Ha). simpl. eauto.
  - rewrite (getitem_eager _ _ _ _ Ha). simpl.
    destruct (starts_with key start_key); [|eauto].
    rewrite (getitem_eager _ _ _ _ Ha), (getitem_eager _ _ _ _ Hb).
    destruct (value_ne_plain a b (plain_lookup _ _ _ Href Ha)
                (plain_lookup _ _ _ Hconfig Hb)) as [[] ->]; eauto.
Qed.

Lemma diff_keys_of_returns start_key ref_dict config keys :
  plain ref_dict → plain config →
  ∀ diff_keys w,
    keys ⊆ Config.keys config →
    ∃ diff_keys',
      diff_keys_of start_key keys ref_dict config diff_keys w
      = (Ok diff_keys', ref_dict, config, w).
Proof.
  intros Href Hconfig.
  induction keys as [|key keys IH]; intros diff_keys w Hkeys; simpl;
    [eauto|].
  destruct (diff_key_returns start_key key ref_dict config diff_keys w
              Href Hconfig (Hkeys key (list_elem_of_here _ _))) as [dk1 ->].
  apply IH. intros k Hk. apply Hkeys. by constructor.
Qed.

Lemma diff_configs_returns start_key ref_dict rest :
  plain ref_dict → Forall plain rest →
  ∀ diff_keys w,
    ∃ diff_keys',
      diff_configs start_key ref_dict rest diff_keys w
      = (Ok diff_keys', ref_dict, rest, w).
Proof.
  intros Href Hrest.
  induction Hrest as [|config rest Hconfig _ IH]; intros diff_keys w; simpl;
    [eauto|].
  destruct (diff_keys_of_returns start_key ref_dict config
              (Config.keys config) Href Hconfig diff_keys w (λ k Hk, Hk))
    as [dk1 ->].
  destruct (IH dk1 w) as [dk2 ->]. eauto.
Qed.

(** X12.  For records that hold values only (no lazy entry, no numpy
    array), [config_diff] returns, opens no file and changes no record, and
    its result lists, each once, exactly the keys of the records after the
    first that fail the test against the first record: a key is listed when
    it does not start with the prefix, or is not a key of the first record,
    or has there a value that differs. *)
Theorem config_diff_eager (ref_dict : Config.t) (rest : ConfigList)
    (start_key : string) (w : world) :
  Forall plain (ref_dict :: rest) →
  ∃ diff_keys,
    ConfigList_config_diff (ref_dict :: rest) start_key w
    = (Ok diff_keys, ref_dict :: rest, w)
    ∧ NoDup diff_keys
    ∧ ∀ key,
        key ∈ diff_keys
        ↔ ∃ config,
            config ∈ rest ∧ key ∈ Config.keys config
            ∧ reported start_key ref_dict config key.
Proof.
  intros [Href Hrest]%Forall_cons. simpl.
  destruct (diff_configs_returns start_key ref_dict rest Href Hrest [] w)
    as [diff_keys Hloop].
  assert (Forall eager rest) as Heager.
  { eapply Forall_impl; [exact Hrest|]. apply plain_eager. }
  destruct (diff_configs_eager _ _ _ (plain_eager _ Href) Heager
              _ _ _ _ _ _ Hloop) as (_ & _ & _ & Hnd & Hmem).
  rewrite Hloop. exists diff_keys.
  split_and!; [done|by apply Hnd, NoDup_nil_2|].
  intros key. rewrite Hmem. split; [|auto].
  intros [Hin|?]; [by inversion Hin|done].
Qed.

(** Two runs that differ in the learning rate only. *)
Definition other_run : Config.t :=
  {| Config.flattened :=
       [("metadata.custom.lr", VNum 0.25);
        ("metadata.system.hostname", VStr "node1")];
     Config.lazy :=
       [("metadata.custom.lr", Config.Eager (VNum 0.25));
        ("metadata.system.hostname", Config.Eager (VStr "node1"))];
     Config.lazydata_dict := [] |}.

Lemma config_diff_eager_witness :
  ∃ diff_keys,
    ConfigList_config_diff [example_run; other_run] "metadata.custom"
      example_world
    = (Ok diff_keys, [example_run; other_run], example_world)
    ∧ NoDup diff_keys
    ∧ ∀ key,
        key ∈ diff_keys
        ↔ ∃ config,
            config ∈ [other_run] ∧ key ∈ Config.keys config
            ∧ reported "metadata.custom" example_run config key.
Proof.
  apply (config_diff_eager example_run [other_run] "metadata.custom"
           example_world).
  repeat constructor; simpl; eexists; (split; [reflexivity|discriminate]).
Defined.

End diff_eager.

(** ** Aggregation maps: names, keys and edge cases *)

(** The four maps of [aggregation_maps.py] on a key. *)
Inductive is_map_on : AggregationMap.t → Prop :=
| is_Last key : is_map_on (Last key)
| is_Min key : is_map_on (Min key)
| is_Max key : is_map_on (Max key)
| is_AvgStd key : is_map_on (AvgStd key).

Section maps.

Lemma string_length_app (a b : string) :
  String.length (a ++ b) = (String.length a + String.length b)%nat.
Proof. induction a as [|c a IH]; simpl; [done|by rewrite IH]. Qed.

Lemma string_app_inv_tail (a b s : string) : a ++ s = b ++ s → a = b.
Proof.
  revert b. induction a as [|c a IH]; intros [|c' b]; simpl; [done| | |].
  - intros H%(f_equal String.length).
    rewrite ?string_length_app in H. simpl in H.
    rewrite ?string_length_app in H. lia.
  - intros H%(f_equal String.length).
    rewrite ?string_length_app in H. simpl in H.
    rewrite ?string_length_app in H. lia.
  - intros [= -> H]. f_equal. by apply IH.
Qed.

(** X13.  The name under which [aggregate] files the result of a map
    tells the map: two different maps among [Last], [Min], [Max] and
    [AvgStd] -- another class or another key -- have different names, so
    the result of one never overwrites that of another. *)
Theorem map_names_differ (m1 m2 : AggregationMap.t) :
  is_map_on m1 → is_map_on m2 → m1 ≠ m2 →
  AggregationMap.name m1 ≠ AggregationMap.name m2.
Proof.
  intros H1 H2 Hne Hname. apply Hne. revert Hname.
  destruct H1 as [k1|k1|k1|k1], H2 as [k2|k2|k2|k2]; simpl;
    unfold AggregationMap.make_name; simpl; try discriminate;
    intros [= H]; apply string_app_inv_head, string_app_inv_tail in H;
    by subst.
Qed.

Lemma map_names_differ_witness :
  AggregationMap.name (Min "loss") ≠ AggregationMap.name (Max "loss")
  ∧ AggregationMap.name (Min "loss") ≠ AggregationMap.name (Min "acc").
Proof.
  split.
  - apply (map_names_differ (Min "loss") (Max "loss"));
      [constructor|constructor|discriminate].
  - apply (map_names_differ (Min "loss") (Min "acc"));
      [constructor|constructor|discriminate].
Defined.

(** X14.  The fields [_aggregate_collection] reads for a list of maps are
    the keys of the maps, each once: a field two maps share is read once
    per run. *)
Theorem extract_keys_once (agg_maps : list AggregationMap.t) :
  NoDup (_extract_keys_from_maps agg_maps)
  ∧ ∀ key,
      key ∈ _extract_keys_from_maps agg_maps
      ↔ ∃ agg_map, agg_map ∈ agg_maps ∧ key ∈ AggregationMap.keys agg_map.
Proof.
  unfold _extract_keys_from_maps.
  destruct (foldl_add_new_spec (λ key : string, key)
              (mjoin (AggregationMap.keys <$> agg_maps)) [] (NoDup_nil_2))
    as [Hnd Hmem].
  split; [done|]. intros key. rewrite Hmem. split.
  - intros [Hin|(k & Hk & <-)]; [by inversion Hin|].
    apply list_elem_of_join in Hk as (l & Hk & Hl).
    apply list_elem_of_fmap in Hl as (agg_map & -> & Hin). eauto.
  - intros (agg_map & Hin & Hkey). right. exists key. split; [|done].
    apply list_elem_of_join. exists (AggregationMap.keys agg_map).
    split; [done|]. by apply list_elem_of_fmap_2.
Qed.

(** X15.  On the dictionary of one run, [Last.apply] returns the final
    element of the sequence held at its key under [last(key)], and an empty
    dictionary -- no error -- when the run has no such key or the sequence
    is empty. *)
Theorem last_apply_on_run (key : string) (d : dict string value) :
  (∀ l, dict_get d key = Some (VSeq l) →
        Last_apply (Last key) (DataDict d)
        = Ok (RetDict match last l with
                      | Some x => [("last(" ++ key ++ ")", VNum x)]
                      | None => []
                      end))
  ∧ (dict_get d key = None →
     Last_apply (Last key) (DataDict d) = Ok (RetDict [])).
Proof.
  split.
  - intros l Hd. rewrite Last_apply_run, Hd. by destruct (last l).
  - intros Hd. by rewrite Last_apply_run, Hd.
Qed.

(** X16.  No map aggregates an empty group: on an empty list of runs
    [Min] and [Max] fall back to the index [-1], which an empty list does
    not have, [AvgStd] reads the first run and [Last] subscripts the list
    by its key; so the aggregation of an empty group raises at its first
    map, [TypeError] for [Last] and [IndexError] for the three others. *)
Theorem aggregate_empty_group (agg_map : AggregationMap.t)
    (agg_maps : list AggregationMap.t) (w : world) :
  is_map_on agg_map →
  _aggregate_collection [] (agg_map :: agg_maps) w
  = (Raise match AggregationMap.cls agg_map with
           | AggregationMap.Last => TypeError
           | _ => IndexError
           end, [], w).
Proof. intros [key|key|key|key]; reflexivity. Qed.

Lemma aggregate_empty_group_witness :
  _aggregate_collection [] [Min "loss"; AvgStd "loss"] example_world
  = (Raise IndexError, [], example_world).
Proof.
  apply (aggregate_empty_group (Min "loss") [AvgStd "loss"] example_world).
  constructor.
Defined.

(** X17.  [aggregate] returns for the empty list of maps only, and then
    returns an empty dictionary: with at least one map, valid or not, the
    call raises -- at the latest when [_aggregate] builds its result by
    calling [GroupedConfigs] on three arguments. *)
Theorem aggregate_returns_nothing (self self' : GroupedConfigs.t)
    (aggregation_maps : list pyobj) (w w' : world)
    (result : dict string GroupedConfigs.t) :
  GroupedConfigs_aggregate self aggregation_maps w = (Ok result, self', w') →
  aggregation_maps = [] ∧ result = [].
Proof.
  unfold GroupedConfigs_aggregate.
  destruct (for_each _assert_valid_map aggregation_maps) eqn:Hvalid; [|done].
  destruct aggregation_maps as [|[m|str] aggregation_maps]; [| |done].
  - unfold _aggregate. simpl.
    destruct (aggregate_groups _ _ _ w) as [[[d|e] items'] w1]; [|done].
    by intros [= <- <- <-].
  - unfold _aggregate. cbn [omap list_omap as_map].
    destruct (aggregate_groups _ _ _ w) as [[[d|e] items'] w1]; [|done].
    cbn [fmap list_fmap comprehension].
    destruct (dict_item _ d _); simpl; done.
Qed.

(** One group of one run whose fields are values. *)
Definition scalar_grouped : GroupedConfigs.t :=
  {| GroupedConfigs.group_keys := ["x"];
     GroupedConfigs.grouped_dict := [(["1.0"], [scalar_run 1])] |}.

Lemma aggregate_returns_nothing_witness :
  GroupedConfigs_aggregate scalar_grouped [] example_world
  = (Ok [], scalar_grouped, example_world)
  ∧ @nil pyobj = [] ∧ @nil (string * GroupedConfigs.t) = [].
Proof.
  split; [reflexivity|].
  apply (aggregate_returns_nothing scalar_grouped scalar_grouped []
           example_world example_world []).
  reflexivity.
Defined.

End maps.

(** ** The nested dictionaries of groups *)

Section nested_round_trip.

Lemma reduce_get_leaf keys : ∀ d key l,
  reduce_get (key :: keys) (Some (Node d)) = Ok (Some (Leaf l))
  ↔ path_get d key keys = Some l.
Proof.
  induction keys as [|key' keys IH]; intros d key l; simpl.
  - destruct (dict_get d key) as [[l'|dn]|]; split; congruence.
  - destruct (dict_get d key) as [[l'|dn]|]; [done| |done]. apply IH.
Qed.

(** X18.  Writing then reading a path of the nested dictionary: on a
    dictionary whose paths all have the length of [keys],
    [_add_nested_keys_val(d, keys, val)] returns and keeps that shape;
    reading the path [keys] back with [reduce(dict.get, keys, d)] gives the
    list that was there followed by [val] ([val] alone on a new path), and
    every list at another path of that length is still there. *)
Theorem add_nested_then_reduce (d : list (string * nested))
    (key : string) (keys : list string) (val : ConfigList) :
  Forall (λ kv, depth_is (length keys) kv.2) d →
  ∃ d',
    _add_nested_keys_val d (key :: keys) val = Ok d'
    ∧ Forall (λ kv, depth_is (length keys) kv.2) d'
    ∧ (∀ l, reduce_get (key :: keys) (Some (Node d)) = Ok (Some (Leaf l)) →
            reduce_get (key :: keys) (Some (Node d'))
            = Ok (Some (Leaf (l ++ val))))
    ∧ ((∀ l, reduce_get (key :: keys) (Some (Node d)) ≠ Ok (Some (Leaf l))) →
       reduce_get (key :: keys) (Some (Node d')) = Ok (Some (Leaf val)))
    ∧ ∀ key2 keys2 l,
        length keys2 = length keys →
        key2 :: keys2 ≠ key :: keys →
        reduce_get (key2 :: keys2) (Some (Node d)) = Ok (Some (Leaf l)) →
        reduce_get (key2 :: keys2) (Some (Node d')) = Ok (Some (Leaf l)).
Proof.
  intros Hd.
  destruct (add_path_spec keys d key val Hd)
    as (d' & Hadd & Hd' & Hhere & Hother).
  exists d'. split_and!; [done|done| | |].
  - intros l Hl%reduce_get_leaf. apply reduce_get_leaf.
    by rewrite Hhere, Hl.
  - intros Hnew. apply reduce_get_leaf. rewrite Hhere.
    destruct (path_get d key keys) as [l|] eqn:Hl; [|done].
    apply reduce_get_leaf in Hl. by destruct (Hnew l).
  - intros key2 keys2 l Hlen Hne Hl%reduce_get_leaf. apply reduce_get_leaf.
    by rewrite Hother.
Qed.

Lemma add_nested_then_reduce_witness :
  ∃ d',
    _add_nested_keys_val [("sgd", Node [("1", Leaf [scalar_run 1])])]
      ["sgd"; "2"] [scalar_run 2] = Ok d'
    ∧ reduce_get ["sgd"; "2"] (Some (Node d'))
      = Ok (Some (Leaf [scalar_run 2]))
    ∧ reduce_get ["sgd"; "1"] (Some (Node d'))
      = Ok (Some (Leaf [scalar_run 1])).
Proof.
  destruct (add_nested_then_reduce
              [("sgd", Node [("1", Leaf [scalar_run 1])])]
              "sgd" ["2"] [scalar_run 2])
    as (d' & Hadd & _ & _ & Hnew & Hother).
  - repeat constructor.
  - exists d'. split_and!; [exact Hadd| |].
    + apply Hnew. intros l. discriminate.
    + apply Hother; [reflexivity|discriminate|reflexivity].
Defined.

End nested_round_trip.

(** ** Missing fields *)

Section missing_fields.

Variable str_value : value → string.

Lemma pkey_val_missing c keys1 key keys2 :
  (∀ k, k ∈ keys1 → is_Some (dict_get (Config.flattened c) k)) →
  dict_get (Config.flattened c) key = None →
  pkey_val str_value c (keys1 ++ key :: keys2) = Raise (KeyError key).
Proof.
  intros Hkeys Hkey. unfold pkey_val.
  assert (comprehension
            (λ group_key,
               dict_item (KeyError group_key) (Config.flattened c) group_key)
            (keys1 ++ key :: keys2) = Raise (KeyError key)) as ->; [|done].
  induction keys1 as [|k keys1 IH]; cbn [app comprehension].
  - unfold dict_item at 1. by rewrite Hkey.
  - destruct (Hkeys k) as [v Hv]; [constructor|].
    unfold dict_item at 1. rewrite Hv. cbn [bind].
    rewrite IH; [done|]. intros k' Hk'. apply Hkeys. by constructor.
Qed.

Lemma group_loop_raises keys m e c post pre : ∀ d gv,
  Forall (λ c, pkey_val str_value c keys = Ok (group_tuple str_value keys c)
               ∧ length (group_tuple str_value keys c) = S m) pre →
  Forall (λ kv, depth_is m kv.2) d →
  pkey_val str_value c keys = Raise e →
  group_loop str_value (pre ++ c :: post) keys d gv = Raise e.
Proof.
  induction pre as [|c0 pre IH]; intros d gv Hpre Hd Hc.
  - cbn [app group_loop]. by rewrite Hc.
  - apply Forall_cons in Hpre as [[Hc0 Hlen] Hpre].
    cbn [app group_loop]. rewrite Hc0. cbn [bind].
    destruct (group_tuple str_value keys c0) as [|key0 ks0]; [done|].
    injection Hlen as Hlen. subst m.
    destruct (add_path_spec ks0 d key0 [c0] Hd) as (d1 & Hadd & Hd1 & _).
    cbn [_add_nested_keys_val]. rewrite Hadd. cbn [bind].
    by apply IH.
Qed.

(** X19.  Grouping by a column some run does not have raises
    [KeyError] on that column: when the runs before run [c] hold a value
    other than [None] at every key, and [key] is the first of the keys that
    [c] lacks, [_group_by] raises [KeyError(key)]. *)
Theorem group_by_missing_key (pre post : ConfigList) (c : Config.t)
    (keys1 keys2 : list string) (key : string) :
  Forall (has_values (keys1 ++ key :: keys2)) pre →
  (∀ k, k ∈ keys1 → is_Some (dict_get (Config.flattened c) k)) →
  dict_get (Config.flattened c) key = None →
  _group_by str_value (pre ++ c :: post) (keys1 ++ key :: keys2)
  = Raise (KeyError key).
Proof.
  intros Hpre Hkeys Hkey. unfold _group_by.
  rewrite (group_loop_raises (keys1 ++ key :: keys2)
             (length (keys1 ++ keys2)) (KeyError key)); [done| | |].
  - eapply Forall_impl; [exact Hpre|]. intros c0 Hc0.
    destruct (pkey_val_has_values str_value _ c0 Hc0) as [-> Hlen].
    split; [done|]. rewrite Hlen, !length_app. simpl. lia.
  - constructor.
  - by apply pkey_val_missing.
Qed.

End missing_fields.

Lemma group_by_missing_key_witness :
  _group_by str_text
    ([optimiser_run "sgd" "1"] ++ [scalar_run 1])
    (["optimiser"] ++ ["seed"])
  = Raise (KeyError "optimiser").
Proof.
  apply (group_by_missing_key str_text [optimiser_run "sgd" "1"] []
           (scalar_run 1) [] ["seed"] "optimiser").
  - repeat constructor. intros k Hk.
    apply elem_of_cons in Hk as [->|Hk];
      [|apply list_elem_of_singleton in Hk as ->];
      eexists; (split; [reflexivity|discriminate]).
  - intros k Hk. by inversion Hk.
  - reflexivity.
Defined.

(** ** Aggregation over a field some run lacks, or that is a scalar *)

(** The record holds a value at each of the keys. *)
Definition has_eager (keys : list string) (c : Config.t) : Prop :=
  ∀ key, key ∈ keys →
         ∃ v, dict_get (Config.lazy c) key = Some (Config.Eager v).

Section aggregate_missing.

Lemma extract_eager c w keys : ∀ data,
  has_eager keys c → ∃ data', extract c keys data w = (Ok data', c, w).
Proof.
  induction keys as [|key keys IH]; intros data Hc; simpl; [eauto|].
  destruct (Hc key) as [v Hv]; [constructor|].
  rewrite (getitem_eager _ _ _ _ Hv). apply IH.
  intros k Hk. apply Hc. by constructor.
Qed.

Lemma extract_missing c w keys1 key keys2 : ∀ data,
  has_eager keys1 c →
  dict_get (Config.lazy c) key = None →
  extract c (keys1 ++ key :: keys2) data w = (Raise (KeyError key), c, w).
Proof.
  induction keys1 as [|k keys1 IH]; intros data Hc Hkey; cbn [app extract].
  - by rewrite (getitem_absent _ _ _ Hkey).
  - destruct (Hc k) as [v Hv]; [constructor|].
    rewrite (getitem_eager _ _ _ _ Hv). apply IH; [|done].
    intros k' Hk'. apply Hc. by constructor.
Qed.

Lemma gather_missing keys1 key keys2 c post w pre :
  Forall (has_eager (keys1 ++ key :: keys2)) pre →
  Forall materialised pre →
  has_eager keys1 c →
  dict_get (Config.lazy c) key = None →
  gather (pre ++ c :: post) (keys1 ++ key :: keys2) w
  = (Raise (KeyError key), ((freed <$> pre) ++ c :: post)%list, w).
Proof.
  intros Hpre Hmat Hc Hkey.
  induction pre as [|c0 pre IH]; cbn [app gather fmap list_fmap].
  - by rewrite (extract_missing _ _ _ _ _ _ Hc Hkey).
  - apply Forall_cons in Hpre as [Hc0 Hpre].
    apply Forall_cons in Hmat as [Hm0 Hmat].
    destruct (extract_eager c0 w _ [] Hc0) as [data ->].
    rewrite (free_unused_materialised _ Hm0), (IH Hpre Hmat). done.
Qed.

(** X20.  Aggregating over a field some run lacks raises [KeyError] on
    the field before any map is applied: when the runs before run [c] hold
    a value at every field the maps read and [key] is the first of these
    fields that [c] lacks, [_aggregate_collection] raises [KeyError(key)].
    The runs before [c] have been through [free_unused] by then; [c] and
    the runs after it are as they were, and no file is opened. *)
Theorem aggregate_missing_field (agg_maps : list AggregationMap.t)
    (pre post : ConfigList) (c : Config.t) (keys1 keys2 : list string)
    (key : string) (w : world) :
  _extract_keys_from_maps agg_maps = (keys1 ++ key :: keys2)%list →
  Forall (has_eager (keys1 ++ key :: keys2)) pre →
  Forall materialised pre →
  has_eager keys1 c →
  dict_get (Config.lazy c) key = None →
  _aggregate_collection (pre ++ c :: post) agg_maps w
  = (Raise (KeyError key), ((freed <$> pre) ++ c :: post)%list, w).
Proof.
  intros Hkeys Hpre Hmat Hc Hkey. unfold _aggregate_collection.
  by rewrite Hkeys, (gather_missing _ _ _ _ _ _ _ Hpre Hmat Hc Hkey).
Qed.

Lemma aggregate_missing_field_witness :
  _aggregate_collection ([scalar_run 1] ++ [example_run])
    [Min "x"; Max "x"] example_world
  = (Raise (KeyError "x"), ((freed <$> [scalar_run 1]) ++ [example_run])%list,
     example_world).
Proof.
  apply (aggregate_missing_field [Min "x"; Max "x"] [scalar_run 1] []
           example_run [] [] "x" example_world).
  - reflexivity.
  - repeat constructor. intros key Hkey.
    apply list_elem_of_singleton in Hkey as ->. by eexists.
  - repeat constructor. intros key data Hin. by inversion Hin.
  - intros key Hkey. by inversion Hkey.
  - reflexivity.
Defined.

Lemma avgstd_inner (f : string) (data : list (dict string value)) vs :
  Forall2 (λ d v, dict_get d f = Some v) data vs →
  comprehension
    (λ d : dict string value,
       dict_of <$>
         comprehension
           (λ key, v ← dict_item (KeyError key) d key; Ok (key, v)) [f])
    data
  = Ok ((λ v, [(f, v)]) <$> vs).
Proof.
  set (inner := λ d : dict string value,
         dict_of <$>
           comprehension
             (λ key, v ← dict_item (KeyError key) d key; Ok (key, v)) [f]).
  assert (∀ d v, dict_get d f = Some v → inner d = Ok [(f, v)]) as Hinner.
  { intros d v Hd. unfold inner, dict_item. simpl. by rewrite Hd. }
  induction 1 as [|d v data vs Hd _ IH]; [done|].
  cbn [comprehension]. by rewrite IH, (Hinner d v Hd).
Qed.

(** X21.  [AvgStd] averages sequences only: when every run of a group
    holds a value at the field and the first run holds a number, not a
    sequence, the aggregation raises [TypeError] (the length of the number
    is taken), after every run has been through [free_unused]. *)
Theorem avgstd_scalar_field (f : string) (c : Config.t)
    (collection : ConfigList) (x : float) (vs : list value) (w : world) :
  Forall2
    (λ c v, dict_get (Config.lazy c) f = Some (Config.Eager v))
    (c :: collection) (VNum x :: vs) →
  Forall materialised (c :: collection) →
  _aggregate_collection (c :: collection) [AvgStd f] w
  = (Raise TypeError, freed <$> c :: collection, w).
Proof.
  intros Hvs Hmat. unfold _aggregate_collection.
  rewrite (extract_keys_single (AvgStd f) f eq_refl).
  rewrite (gather_eager _ _ _ _ Hvs Hmat).
  cbn [aggregate_maps]. unfold aggregate_map, apply. simpl.
  unfold AvgStd_apply. simpl AggregationMap.keys.
  rewrite (avgstd_inner f _ (VNum x :: vs)).
  - destruct vs as [|v vs]; [reflexivity|].
    simpl. unfold accumulate. simpl. unfold dict_item. simpl.
    by rewrite decide_True.
  - clear. constructor.
    + simpl. by rewrite decide_True.
    + induction vs as [|v vs IH]; constructor; [|done].
      simpl. by rewrite decide_True.
Qed.

Lemma avgstd_scalar_field_witness :
  _aggregate_collection [scalar_run 1; scalar_run 2] [AvgStd "x"]
    example_world
  = (Raise TypeError, freed <$> [scalar_run 1; scalar_run 2], example_world).
Proof.
  apply (avgstd_scalar_field "x" (scalar_run 1) [scalar_run 2] 1
           [VNum 2] example_world).
  - repeat constructor.
  - repeat constructor; intros key data Hin; by inversion Hin.
Defined.

End aggregate_missing.

(** ** Logging metrics ([logger.py]) *)

Module Logger.

(** A yaml document as [yaml.safe_load] returns it: a mapping from
    strings (its values kept as text), or any other document ([None] for
    an empty file, a sequence, a scalar). *)
Inductive yaml_doc : Type :=
| YMap (d : gmap string string)
| YOther.

(** The files the logger writes, by path: the metrics files, one JSON
    object per line, each line ended by the line separator, and the yaml
    files, [None] standing for a file [yaml.safe_load] rejects.  The run
    directory exists, [.keys] can be created in it and a file opened for
    writing opens. *)
Record disk : Type := {
  json_files : gmap string json_file;
  yaml_files : gmap string (option yaml_doc)
}.

(** The attributes the logging of metrics uses. *)
Record t : Type := {
  _run_dir : string;
  _metric_dict_keys : list string
}.

Definition with_keys (self : t) (keys : list string) : t :=
  {| _run_dir := _run_dir self; _metric_dict_keys := keys |}.

(** [cur_yaml.update(dict_file)] for [dict_file = {key: "" for key in
    new_keys}]. *)
Definition add_keys (cur_yaml : gmap string string) (new_keys : list string)
  : gmap string string :=
  foldl (λ m key, <[key := ""]> m) cur_yaml new_keys.

(** [_log_metrics_key]: the attribute is extended before the keys file is
    read; a file that is missing or does not parse leaves [cur_yaml = {}],
    and a document that is not a mapping has no [update]. *)
Definition _log_metrics_key (self : t) (metrics_dict : dict string float)
    (file_name : string) (fs : disk) : outcome () * t * disk :=
  let new_keys :=
    filter (λ key, key ∉ _metric_dict_keys self) (dict_keys metrics_dict) in
  let self := with_keys self (_metric_dict_keys self ++ new_keys) in
  let keys_dir := path_join (_run_dir self) ".keys" in
  let file_name := path_join keys_dir file_name in
  let cur_yaml :=
    match yaml_files fs !! (file_name ++ ".yaml") with
    | Some (Some doc) => doc
    | Some None | None => YMap ∅
    end in
  match cur_yaml with
  | YOther => (Raise AttributeError, self, fs)
  | YMap cur_yaml =>
      (Ok (), self,
       {| json_files := json_files fs;
          yaml_files :=
            <[file_name ++ ".yaml" := Some (YMap (add_keys cur_yaml new_keys))]>
              (yaml_files fs) |})
  end.

(** [log_metric]: the dictionary is appended to the metrics file as one
    line. *)
Definition log_metric (self : t) (metric_dict : dict string float)
    (file_name : string) (fs : disk) : outcome () * t * disk :=
  match _log_metrics_key self metric_dict file_name fs with
  | (Raise e, self, fs) => (Raise e, self, fs)
  | (Ok _, self, fs) =>
      let file_name := path_join (_run_dir self) file_name in
      let lines := default [] (json_files fs !! (file_name ++ ".json")) in
      (Ok (), self,
       {| json_files :=
            <[file_name ++ ".json" :=
                (lines ++ [Some (list_to_map metric_dict)])%list]>
              (json_files fs);
          yaml_files := yaml_files fs |})
  end.

End Logger.

(** The files as the reader sees them. *)
Definition world_of (fs : Logger.disk) : world :=
  {| files := Logger.json_files fs; reads := [] |}.

Section logging.

Lemma string_app_assoc (a b c : string) : (a ++ b) ++ c = a ++ b ++ c.
Proof.
  induction a as [|x a IH]; [done|].
  change (String x ((a ++ b) ++ c) = String x (a ++ b ++ c)). by f_equal.
Qed.

(** The logger and the reader name the metrics file alike. *)
Lemma path_join_json run_dir file_name :
  path_join run_dir file_name ++ ".json"
  = path_join run_dir (file_name ++ ".json").
Proof.
  unfold path_join. destruct run_dir as [|c run_dir]; [done|].
  destruct (ends_with_slash (String c run_dir));
    by rewrite !string_app_assoc.
Qed.

Lemma parsed_lines_app lines cur_dict :
  Forall is_Some lines →
  parsed_lines (lines ++ [Some cur_dict]) = (parsed_lines lines ++ [cur_dict])%list.
Proof.
  induction 1 as [|line lines [d ->] _ IH]; [done|].
  simpl. by rewrite IH.
Qed.

Lemma column_app key objects objects' :
  column key (objects ++ objects') = (column key objects ++ column key objects')%list.
Proof. unfold column. apply omap_app. Qed.

Lemma log_metric_run_dir self metric_dict file_name fs :
  Logger._run_dir (Logger.log_metric self metric_dict file_name fs).1.2
  = Logger._run_dir self.
Proof.
  unfold Logger.log_metric, Logger._log_metrics_key.
  by destruct (match Logger.yaml_files fs !! _ with
               | Some (Some doc) => doc
               | _ => Logger.YMap ∅
               end).
Qed.

Lemma lookup_list_to_map_dict (d : dict string float) key :
  (list_to_map d : gmap string float) !! key = dict_get d key.
Proof.
  induction d as [|[k v] d IH]; simpl; [done|].
  destruct (decide (k = key)) as [->|Hne].
  - by rewrite lookup_insert_eq.
  - by rewrite lookup_insert_ne.
Qed.

(** X22.  What is logged is what is read.  After a call of [log_metric]
    that returns, on a metrics file whose lines all parse, a fresh
    [LazyData] on the run directory and the file name reads, at the key
    [file_name.key], the values the file had for [key] followed by the
    value just logged -- and unchanged values for a field the logged
    dictionary does not have. *)
Theorem log_metric_then_read (self self' : Logger.t)
    (metric_dict : dict string float) (file_name : string)
    (fs fs' : Logger.disk) (key : string) (lines : json_file) :
  default []
    (Logger.json_files fs
       !! path_join (Logger._run_dir self) (file_name ++ ".json"))
  = lines →
  Forall is_Some lines →
  Logger.log_metric self metric_dict file_name fs = (Ok (), self', fs') →
  (LazyData.get_data (LazyData.__init__ (Logger._run_dir self) file_name)
     (file_name ++ "." ++ key) (world_of fs')).1.1
  = match (column key (parsed_lines lines)
           ++ match dict_get metric_dict key with
              | Some x => [x]
              | None => []
              end)%list with
    | [] => Raise (KeyError (file_name ++ "." ++ key))
    | l => Ok (VSeq l)
    end.
Proof.
  set (path := path_join (Logger._run_dir self) (file_name ++ ".json")).
  intros Hfs Hlines Hlog.
  assert (Logger.json_files fs' !! path
          = Some (lines ++ [Some (list_to_map metric_dict)])%list) as Hfile.
  { unfold Logger.log_metric in Hlog.
    destruct (Logger._log_metrics_key self metric_dict file_name fs)
      as [[[[]|e] self1] fs1] eqn:Hkeys; [|done].
    assert (Logger._run_dir self1 = Logger._run_dir self
            ∧ Logger.json_files fs1 = Logger.json_files fs) as [Hdir Hjson].
    { unfold Logger._log_metrics_key in Hkeys.
      destruct (match Logger.yaml_files fs !! _ with
                | Some (Some doc) => doc
                | _ => Logger.YMap ∅
                end); [|done].
      injection Hkeys as H1 H2. by rewrite <- H1, <- H2. }
    injection Hlog as <- <-. simpl.
    rewrite Hdir, Hjson, path_join_json. fold path. rewrite Hfs.
    by rewrite lookup_insert_eq. }
  destruct (get_data_reload (LazyData.__init__ (Logger._run_dir self) file_name)
              (file_name ++ "." ++ key) (world_of fs'))
    as (data & w & -> & _); [set_solver|].
  simpl.
  unfold backing. simpl. fold path.
  rewrite (load_dict_lookup path file_name (world_of fs') _ key Hfile).
  rewrite parsed_lines_app, column_app by done. simpl.
  rewrite lookup_list_to_map_dict.
  destruct (dict_get metric_dict key); simpl;
    by destruct (column key (parsed_lines lines) ++ _)%list.
Qed.

(** A logger on the run directory [run], and a disk with no file. *)
Definition example_logger : Logger.t :=
  {| Logger._run_dir := "run"; Logger._metric_dict_keys := [] |}.

Definition empty_disk : Logger.disk :=
  {| Logger.json_files := ∅; Logger.yaml_files := ∅ |}.

Lemma log_metric_then_read_witness :
  (LazyData.get_data (LazyData.__init__ "run" "metrics") "metrics.loss"
     (world_of
        (Logger.log_metric example_logger [("loss", 0.5%float)] "metrics"
           empty_disk).2)).1.1
  = Ok (VSeq [0.5%float]).
Proof.
  apply (log_metric_then_read example_logger
           (Logger.log_metric example_logger [("loss", 0.5%float)] "metrics"
              empty_disk).1.2
           [("loss", 0.5%float)] "metrics" empty_disk
           (Logger.log_metric example_logger [("loss", 0.5%float)] "metrics"
              empty_disk).2
           "loss" []).
  - reflexivity.
  - constructor.
  - reflexivity.
Defined.

Lemma elem_of_add_keys cur_yaml new_keys : ∀ key,
  Logger.add_keys cur_yaml new_keys !! key
  = if decide (key ∈ new_keys) then Some "" else cur_yaml !! key.
Proof.
  unfold Logger.add_keys. revert cur_yaml.
  induction new_keys as [|k new_keys IH]; intros cur_yaml key;
    cbn [foldl].
  - destruct (decide (key ∈ [])) as [Hin|_]; [by inversion Hin|done].
  - rewrite IH. destruct (decide (key ∈ new_keys)) as [Hin|Hin].
    + destruct (decide (key ∈ k :: new_keys)) as [_|Hout]; [done|].
      destruct Hout. by constructor.
    + destruct (decide (key = k)) as [->|Hne].
      * rewrite lookup_insert_eq.
        destruct (decide (k ∈ k :: new_keys)) as [_|Hout]; [done|].
        destruct Hout. constructor.
      * rewrite lookup_insert_ne by done.
        destruct (decide (key ∈ k :: new_keys)) as [Hin'|_]; [|done].
        by apply elem_of_cons in Hin' as [?|?].
Qed.

(** X23.  The logger remembers each metric key once: whatever the outcome
    of [log_metric], the list of known keys keeps its members, in place,
    gains exactly the keys of the logged dictionary it did not have, and
    stays free of repetitions; the run directory does not change. *)
Theorem log_metric_known_keys (self : Logger.t)
    (metric_dict : dict string float) (file_name : string)
    (fs : Logger.disk) :
  NoDup (Logger._metric_dict_keys self) →
  NoDup (dict_keys metric_dict) →
  let self' := (Logger.log_metric self metric_dict file_name fs).1.2 in
  NoDup (Logger._metric_dict_keys self')
  ∧ Logger._metric_dict_keys self `prefix_of` Logger._metric_dict_keys self'
  ∧ (∀ key,
       key ∈ Logger._metric_dict_keys self'
       ↔ key ∈ Logger._metric_dict_keys self ∨ key ∈ dict_keys metric_dict)
  ∧ Logger._run_dir self' = Logger._run_dir self.
Proof.
  intros Hknown Hdict self'.
  assert (Logger._metric_dict_keys self'
          = (Logger._metric_dict_keys self
             ++ filter (λ key, key ∉ Logger._metric_dict_keys self)
                  (dict_keys metric_dict))%list) as Hkeys.
  { unfold self', Logger.log_metric, Logger._log_metrics_key.
    by destruct (match Logger.yaml_files fs !! _ with
                 | Some (Some doc) => doc
                 | _ => Logger.YMap ∅
                 end). }
  rewrite Hkeys. split_and!.
  - apply NoDup_app. split_and!; [done| |by apply NoDup_filter].
    intros key Hin [Hnew _]%list_elem_of_filter. done.
  - by eexists.
  - intros key. rewrite elem_of_app, list_elem_of_filter.
    destruct (decide (key ∈ Logger._metric_dict_keys self)); tauto.
  - apply log_metric_run_dir.
Qed.

Lemma log_metric_known_keys_witness :
  let self' :=
    (Logger.log_metric example_logger [("loss", 0.5%float)] "metrics"
       empty_disk).1.2 in
  NoDup (Logger._metric_dict_keys self')
  ∧ [] `prefix_of` Logger._metric_dict_keys self'
  ∧ (∀ key,
       key ∈ Logger._metric_dict_keys self' ↔ key ∈ [] ∨ key ∈ ["loss"])
  ∧ Logger._run_dir self' = "run".
Proof.
  apply (log_metric_known_keys example_logger [("loss", 0.5%float)] "metrics"
           empty_disk).
  - constructor.
  - apply NoDup_singleton.
Defined.

(** X24.  The keys file of a metrics file lists a key once it is logged
    to that file while new to the logger, and only then: after a call of
    [log_metric] that returns, the file [.keys/file_name.yaml] is a mapping
    that holds what it held before (nothing, if it was missing or did not
    parse) and the empty string at each key of the logged dictionary the
    logger did not know.  A key the logger learnt through another file
    name is not added. *)
Theorem log_metric_keys_file (self self' : Logger.t)
    (metric_dict : dict string float) (file_name : string)
    (fs fs' : Logger.disk) :
  Logger.log_metric self metric_dict file_name fs = (Ok (), self', fs') →
  ∃ before after,
    match Logger.yaml_files fs
            !! (path_join (path_join (Logger._run_dir self) ".keys") file_name
                ++ ".yaml") with
    | Some (Some doc) => doc
    | _ => Logger.YMap ∅
    end = Logger.YMap before
    ∧ Logger.yaml_files fs'
        !! (path_join (path_join (Logger._run_dir self) ".keys") file_name
            ++ ".yaml")
      = Some (Some (Logger.YMap after))
    ∧ ∀ key,
        after !! key
        = if decide (key ∈ dict_keys metric_dict
                     ∧ key ∉ Logger._metric_dict_keys self)
          then Some ""
          else before !! key.
Proof.
  unfold Logger.log_metric, Logger._log_metrics_key. simpl.
  destruct (match Logger.yaml_files fs !! _ with
            | Some (Some doc) => doc
            | _ => Logger.YMap ∅
            end) as [before|] eqn:Hdoc; [|done].
  intros [= <- <-]. simpl.
  exists before. eexists. split_and!; [done|by rewrite lookup_insert_eq|].
  intros key. rewrite elem_of_add_keys.
  destruct (decide (key ∈ filter _ (dict_keys metric_dict)))
    as [Hin|Hin]; rewrite list_elem_of_filter in Hin.
  - rewrite decide_True; [done|tauto].
  - rewrite decide_False; [done|tauto].
Qed.

Lemma log_metric_keys_file_witness :
  ∃ after,
    Logger.yaml_files
      (Logger.log_metric example_logger [("loss", 0.5%float)] "metrics"
         empty_disk).2
      !! "run/.keys/metrics.yaml"
    = Some (Some (Logger.YMap after))
    ∧ after !! "loss" = Some "".
Proof.
  destruct (log_metric_keys_file example_logger
              (Logger.log_metric example_logger [("loss", 0.5%float)]
                 "metrics" empty_disk).1.2
              [("loss", 0.5%float)] "metrics" empty_disk
              (Logger.log_metric example_logger [("loss", 0.5%float)]
                 "metrics" empty_disk).2 eq_refl)
    as (before & after & _ & Hfile & Hkeys).
  exists after. split; [exact Hfile|]. exact (Hkeys "loss").
Defined.

(** X25.  [log_metric] fails in one case only: the keys file holds a
    document that is not a mapping.  It then raises [AttributeError] before
    the metrics file is opened, so no file changes -- but the keys of the
    dictionary are already in the list of known keys. *)
Theorem log_metric_failure (self self' : Logger.t)
    (metric_dict : dict string float) (file_name : string)
    (fs fs' : Logger.disk) (e : exn) :
  Logger.log_metric self metric_dict file_name fs = (Raise e, self', fs') →
  e = AttributeError
  ∧ fs' = fs
  ∧ Logger.yaml_files fs
      !! (path_join (path_join (Logger._run_dir self) ".keys") file_name
          ++ ".yaml")
    = Some (Some Logger.YOther)
  ∧ ∀ key, key ∈ dict_keys metric_dict → key ∈ Logger._metric_dict_keys self'.
Proof.
  unfold Logger.log_metric, Logger._log_metrics_key. simpl.
  destruct (Logger.yaml_files fs !! _) as [[[m|]|]|] eqn:Hdoc; try done.
  intros [= <- <- <-]. split_and!; [done..|].
  intros key Hkey. simpl. rewrite elem_of_app, list_elem_of_filter.
  destruct (decide (key ∈ Logger._metric_dict_keys self)); tauto.
Qed.

(** A disk whose keys file for [metrics] is empty. *)
Definition empty_keys_disk : Logger.disk :=
  {| Logger.json_files := ∅;
     Logger.yaml_files := {[ "run/.keys/metrics.yaml" := Some Logger.YOther ]} |}.

Lemma log_metric_failure_witness :
  (Logger.log_metric example_logger [("loss", 0.5%float)] "metrics"
     empty_keys_disk).1.1 = Raise AttributeError
  ∧ (Logger.log_metric example_logger [("loss", 0.5%float)] "metrics"
       empty_keys_disk).2 = empty_keys_disk
  ∧ "loss" ∈ Logger._metric_dict_keys
               (Logger.log_metric example_logger [("loss", 0.5%float)]
                  "metrics" empty_keys_disk).1.2.
Proof.
  destruct (log_metric_failure example_logger
              (Logger.log_metric example_logger [("loss", 0.5%float)]
                 "metrics" empty_keys_disk).1.2
              [("loss", 0.5%float)] "metrics" empty_keys_disk
              (Logger.log_metric example_logger [("loss", 0.5%float)]
                 "metrics" empty_keys_disk).2 AttributeError eq_refl)
    as (_ & Hfs & _ & Hkeys).
  split_and!; [reflexivity|exact Hfs|]. apply Hkeys. constructor.
Defined.

End logging.

(** ** Instances of the statements above that hold under a condition *)

Lemma config_init_eager_witness :
  (∃ c,
     Config.__init__ [("metadata.custom.lr", VNum 0.5)] "run" = Ok c
     ∧ Config.flattened c = [("metadata.custom.lr", VNum 0.5)]
     ∧ Config.keys c = ["metadata.custom.lr"]
     ∧ ∀ key w,
         Config.__getitem__ c key w
         = (dict_item (KeyError key) [("metadata.custom.lr", VNum 0.5)] key,
            c, w))
  ∧ Config.__init__ [("metrics.loss", Config.LAZYDATA)] "run"
    = Raise AttributeError.
Proof.
  split.
  - apply (proj1 (config_init_eager [("metadata.custom.lr", VNum 0.5)] "run")).
    repeat constructor. discriminate.
  - apply (proj2 (config_init_eager [("metrics.loss", Config.LAZYDATA)] "run")).
    by constructor.
Defined.

Lemma last_apply_on_run_witness :
  Last_apply (Last "f") (DataDict [("f", VSeq [1; 2]%float)])
  = Ok (RetDict [("last(f)", VNum 2)])
  ∧ Last_apply (Last "f") (DataDict [("g", VSeq [1; 2]%float)])
    = Ok (RetDict []).
Proof.
  split.
  - apply (proj1 (last_apply_on_run "f" [("f", VSeq [1; 2]%float)])
             [1; 2]%float).
    reflexivity.
  - apply (proj2 (last_apply_on_run "f" [("g", VSeq [1; 2]%float)])).
    reflexivity.
Defined.
